(** * Heat map of municipalities: [criar_mapa_calor] of [modulos/utils.py]

    A shallow embedding of the function that filters the records of a
    pandas frame, sums a count column per municipality, keeps the [top_n]
    largest sums and draws one folium circle per municipality found in the
    coordinate table, followed by the properties of the map it returns.

    Counts are pandas [int64] cells, the arithmetic on them that Python
    performs in floating point is IEEE 754 binary64 ([spec_float] with
    precision 53 and exponent bound 1024), the coordinate table is a
    dictionary. *)

From Stdlib Require Import ZArith String Ascii List Lia Permutation.
From Stdlib Require Import DecimalString.
From Stdlib Require DecimalPos DecimalZ.
From Corelib Require Import SpecFloat PrimFloat FloatOps.
From stdpp Require Import base option list gmap strings sorting.

Set Warnings "-inexact-float".
Local Open Scope Z_scope.

(** ** Binary64 arithmetic, as Python floats and numpy [float64] have it *)

Module F64.

Definition t : Type := spec_float.

Definition mul (x y : t) : t := SFmul prec emax x y.
Definition div (x y : t) : t := SFdiv prec emax x y.
Definition add (x y : t) : t := SFadd prec emax x y.

(** [x > y] and [x <= y] on floats; false as soon as one side is a
    NaN. *)
Definition gtb (x y : t) : bool := SFltb y x.
Definition leb (x y : t) : bool := SFleb x y.

(** Conversion of an integer, rounding to nearest with ties to even:
    what numpy does with an [int64] operand of a float operation. *)
Definition of_int (z : Z) : t := binary_normalize prec emax z 0 false.

(** The literals of the source. *)
Definition c0_7 : t := Eval vm_compute in Prim2SF 0.7%float.
Definition c0_4 : t := Eval vm_compute in Prim2SF 0.4%float.
Definition c0_2 : t := Eval vm_compute in Prim2SF 0.2%float.
Definition c0_6 : t := Eval vm_compute in Prim2SF 0.6%float.
Definition c30000 : t := Eval vm_compute in Prim2SF 30000%float.
Definition c5000 : t := Eval vm_compute in Prim2SF 5000%float.

(** The floats 1.0 and 35000.0, the quotient and the radius of the
    largest sum. *)
Definition one : t := Eval vm_compute in Prim2SF 1%float.
Definition c35000 : t := Eval vm_compute in Prim2SF 35000%float.
Definition lat_PE : t := Eval vm_compute in Prim2SF (-8.0476)%float.
Definition lon_PE : t := Eval vm_compute in Prim2SF (-35.8770)%float.

Definition is_zero (x : t) : bool :=
  match x with S754_zero _ => true | _ => false end.

End F64.

(** ** The float of an integer, in closed form

    What [F64.of_int] computes, written with divisions by powers of two;
    the two are proved equal below. *)

Module Round53.

(** Rounding of the quotient [q], of remainder [rem] in the division by
    [P], to nearest, ties to even. *)
Definition rne (q rem P : Z) : Z :=
  if (P <? 2 * rem) || ((P =? 2 * rem) && Z.odd q) then q + 1 else q.

(** Exponent and mantissa of the float nearest to the positive integer
    [z]: the mantissa has 53 bits. *)
Definition round53 (z : Z) : Z * Z :=
  let d := Zdigits2 z in
  if d <=? 53 then (d - 53, z * 2^(53 - d))
  else
    let n := d - 53 in
    let m := rne (z / 2^n) (z mod 2^n) (2^n) in
    if m =? 2^53 then (n + 1, 2^52) else (n, m).

(** Exponent first, then mantissa. *)
Definition lex_le (x y : Z * Z) : Prop :=
  x.1 < y.1 ∨ (x.1 = y.1 ∧ x.2 ≤ y.2).

(** The record after [k] steps on [p]: the quotient by [2^k], and in the
    two flags the place of the remainder with respect to the half. *)
Definition shr_inv (p : Z) (k : Z) (mrs : shr_record) : Prop :=
  shr_m mrs = p / 2^k
  ∧ (shr_r mrs = true ↔ 2^k ≤ 2 * (p mod 2^k))
  ∧ (shr_s mrs = true ↔ 2 * (p mod 2^k) ≠ 0 ∧ 2 * (p mod 2^k) ≠ 2^k).

(** The second half of [binary_round_aux]: the rounded mantissa is
    brought back to 53 bits if the rounding carried into a 54th. *)
Definition finish (sx : bool) (m e : Z) : spec_float :=
  let '(mrs, e') := shr_fexp prec emax m e loc_Exact in
  match shr_m mrs with
  | Z0 => S754_zero sx
  | Zpos m' => if e' <=? emax - prec then S754_finite sx m' e' else S754_infinity sx
  | Zneg _ => S754_nan
  end.

(** A normal float: a mantissa of 53 bits, an exponent far from the
    ends of the range. *)
Definition normal (m : positive) (e : Z) : Prop :=
  Zpos (digits2_pos m) = 53 ∧ - 1000 ≤ e ≤ 900.

End Round53.

(** ** Python's string operations on text of ASCII characters

    [str.upper] and [str.strip] follow the Unicode tables of the
    interpreter, and the functions of the map take them as parameters.
    On a text of ASCII characters they do what is written here: the
    letters a to z are changed, the white space of ASCII is removed.
    This is the instance the examples run with, on names of ASCII
    characters; nothing is claimed of it on other text. *)

Module Py.

(** A text of ASCII characters. *)
Fixpoint is_ascii (s : string) : bool :=
  match s with
  | EmptyString => true
  | String c s' => (nat_of_ascii c <? 128)%nat && is_ascii s'
  end.

(** [str.upper] of an ASCII character. *)
Definition ascii_upper_char (c : ascii) : ascii :=
  let n := nat_of_ascii c in
  if ((97 <=? n) && (n <=? 122))%nat then ascii_of_nat (n - 32) else c.

Fixpoint ascii_upper (s : string) : string :=
  match s with
  | EmptyString => EmptyString
  | String c s' => String (ascii_upper_char c) (ascii_upper s')
  end.

(** The ASCII characters [str.strip] removes: the white space of
    [str.isspace] below 128. *)
Definition ascii_is_space (c : ascii) : bool :=
  let n := nat_of_ascii c in
  (((9 <=? n) && (n <=? 13)) || ((28 <=? n) && (n <=? 32)))%nat.

Fixpoint ascii_lstrip (s : string) : string :=
  match s with
  | EmptyString => EmptyString
  | String c s' => if ascii_is_space c then ascii_lstrip s' else s
  end.

Fixpoint ascii_rstrip (s : string) : string :=
  match s with
  | EmptyString => EmptyString
  | String c s' =>
      match ascii_rstrip s' with
      | EmptyString => if ascii_is_space c then EmptyString else String c EmptyString
      | r => String c r
      end
  end.

Definition ascii_strip (s : string) : string := ascii_rstrip (ascii_lstrip s).

(** The format [{n:,}] of an integer: decimal digits in groups of three
    separated by commas, with a leading minus sign when negative. *)
Fixpoint group3 (k : nat) (rev_digits : list ascii) : list ascii :=
  match rev_digits with
  | [] => []
  | c :: l =>
      match k with
      | 3%nat => "," %char :: c :: group3 1 l
      | _ => c :: group3 (S k) l
      end
  end.

Definition format_comma (z : Z) : string :=
  let digits := NilZero.string_of_uint (N.to_uint (Z.abs_N z)) in
  let body := string_of_list_ascii
                (rev (group3 0 (rev (list_ascii_of_string digits)))) in
  if z <? 0 then String "-" body else body.

End Py.

(** ** The pandas frame operations the function uses *)

Module Pandas.

(** A row holds, per column label, the cell of a text column or of an
    [int64] column; a label with no cell is a missing value (NaN). A
    column of counts is [int64] in pandas when every record has its
    count; what is proved of the sums as integers is stated for such
    frames. *)
Record Row := mkRow {
  str_cells : gmap string string;
  int_cells : gmap string Z
}.

Record DataFrame := mkDataFrame {
  columns : list string;
  rows : list Row
}.

(** [int64] arithmetic wraps around. *)
Definition wrap64 (z : Z) : Z := (z + 2^63) mod 2^64 - 2^63.

(** [df[df[col] == v]]: the rows whose cell of [col] equals [v]. *)
Definition cell_eqb (col : string) (v : Z) (r : Row) : bool :=
  match int_cells r !! col with
  | Some z => z =? v
  | None => false
  end.

Definition select_eq (col : string) (v : Z) (df : DataFrame) : DataFrame :=
  mkDataFrame (columns df) (List.filter (cell_eqb col v) (rows df)).

(** [df.groupby(key)[val].sum()]: one entry per key value; rows whose
    key is missing are dropped, missing values count for nothing. The
    sum is that of an [int64] column, which wraps around; pandas holds a
    column with a missing count as [float64], and its sums are then
    floats. *)
Definition add_row (key val : string) (r : Row) (acc : gmap string Z)
  : gmap string Z :=
  match str_cells r !! key with
  | Some k =>
      <[k := wrap64 (default 0 (acc !! k) + default 0 (int_cells r !! val))]> acc
  | None => acc
  end.

Definition groupby_sum (key val : string) (rs : list Row) : gmap string Z :=
  foldr (add_row key val) ∅ rs.

(** [.head(n)]: the first [n] entries, all but the last [-n] when [n]
    is negative. *)
Definition head {A} (n : Z) (l : list A) : list A :=
  if 0 <=? n then take (Z.to_nat n) l
  else take (length l - Z.to_nat (- n)) l.

(** [.max()] of a non-empty integer column. *)
Definition max (l : list Z) : Z :=
  match l with
  | [] => 0
  | x :: l' => foldr Z.max x l'
  end.

End Pandas.

(** ** The folium objects the function builds *)

Module Folium.

Record Circle := mkCircle {
  location : F64.t * F64.t;
  radius : F64.t;
  popup : string;
  tooltip : string;
  color : string;
  fill : bool;
  fillColor : string;
  fillOpacity : F64.t;
  weight : Z
}.

Record Map := mkMap {
  map_location : F64.t * F64.t;
  zoom_start : Z;
  tiles : string;
  circles : list Circle;
  html : list string
}.

Definition add_circle (c : Circle) (m : Map) : Map :=
  mkMap (map_location m) (zoom_start m) (tiles m) (circles m ++ [c]) (html m).

Definition add_html (e : string) (m : Map) : Map :=
  mkMap (map_location m) (zoom_start m) (tiles m) (circles m) (html m ++ [e]).

End Folium.

(** ** The function *)

(** An entry of [coordenadas.COORDENADAS_MUNICIPIOS]: the function reads
    its keys ['lat'] and ['lon']. *)
Record Coord := mkCoord {
  lat : F64.t;
  lon : F64.t
}.

(** The four classes of the legend, from the strongest to the weakest. *)
Inductive Intensidade := MuitoAlta | Alta | Media | Baixa.

Definition cor (i : Intensidade) : string :=
  match i with
  | MuitoAlta => "#8B0000"
  | Alta => "#DC143C"
  | Media => "#FF6347"
  | Baixa => "#FFA07A"
  end.

Definition nivel (i : Intensidade) : nat :=
  match i with
  | MuitoAlta => 3
  | Alta => 2
  | Media => 1
  | Baixa => 0
  end.

(** The chain [if vitimas > max_vitimas * 0.7: ... elif ... else]. *)
Definition intensidade (vitimas max_vitimas : Z) : Intensidade :=
  let v := F64.of_int vitimas in
  let m := F64.of_int max_vitimas in
  if F64.gtb v (F64.mul m F64.c0_7) then MuitoAlta
  else if F64.gtb v (F64.mul m F64.c0_4) then Alta
  else if F64.gtb v (F64.mul m F64.c0_2) then Media
  else Baixa.

(** [(vitimas / max_vitimas) * 30000 + 5000]. *)
Definition calc_radius (vitimas max_vitimas : Z) : F64.t :=
  F64.add
    (F64.mul (F64.div (F64.of_int vitimas) (F64.of_int max_vitimas)) F64.c30000)
    F64.c5000.

Definition dq : string := String "034"%char EmptyString.

Definition legend_html : string :=
  "
    <div style=" +:+ dq +:+ "position: fixed; 
                bottom: 50px; right: 50px; width: 200px; height: 120px; 
                background-color: white; border:2px solid grey; z-index:9999; 
                font-size:14px; padding: 10px" +:+ dq +:+ ">
        <p style=" +:+ dq +:+ "margin:0" +:+ dq +:+ "><b>Intensidade</b></p>
        <p style=" +:+ dq +:+ "margin:5px 0" +:+ dq +:+ "><span style=" +:+ dq
  +:+ "color:#8B0000" +:+ dq +:+ ">●</span> Muito Alta (>70%)</p>
        <p style=" +:+ dq +:+ "margin:5px 0" +:+ dq +:+ "><span style=" +:+ dq
  +:+ "color:#DC143C" +:+ dq +:+ ">●</span> Alta (40-70%)</p>
        <p style=" +:+ dq +:+ "margin:5px 0" +:+ dq +:+ "><span style=" +:+ dq
  +:+ "color:#FF6347" +:+ dq +:+ ">●</span> Média (20-40%)</p>
        <p style=" +:+ dq +:+ "margin:5px 0" +:+ dq +:+ "><span style=" +:+ dq
  +:+ "color:#FFA07A" +:+ dq +:+ ">●</span> Baixa (<20%)</p>
    </div>
    ".

Section MapaCalor.
Import Pandas Folium.

(** [str.upper] and [str.strip] of Python, which follow the Unicode
    tables of the interpreter: the function only composes them, so they
    are any two functions, and what is proved holds for Python's. *)
Variables str_upper str_strip : string → string.

(** The coordinate table: a dictionary from the upper-case name of a
    municipality to its coordinates. *)
Variable COORDENADAS_MUNICIPIOS : gmap string Coord.

(** [Series.sort_values(ascending=False)]: pandas sorts with numpy's
    quicksort, which fixes no order among equal sums, so the sort is
    any function that returns its argument rearranged in descending
    order of the sums. *)
Variable sort_values : list (string * Z) → list (string * Z).

(** Lines 29-36: the copy and the two optional filters. *)
Definition filtrar (df : DataFrame) (ano mes : option Z) : DataFrame :=
  let df_mapa := df in
  let df_mapa :=
    match ano with
    | Some a =>
        if bool_decide ("ANO" ∈ columns df_mapa)
        then select_eq "ANO" a df_mapa else df_mapa
    | None => df_mapa
    end in
  let df_mapa :=
    match mes with
    | Some m =>
        if bool_decide ("MES" ∈ columns df_mapa)
        then select_eq "MES" m df_mapa else df_mapa
    | None => df_mapa
    end in
  df_mapa.

(** Line 39: the sums per municipality, sorted, cut to [top_n]. *)
Definition agregar (df_mapa : DataFrame) (col_municipio col_vitimas : string)
    (top_n : Z) : list (string * Z) :=
  head top_n
    (sort_values
       (map_to_list (groupby_sum col_municipio col_vitimas (rows df_mapa)))).

(** Lines 50-82: the body of the loop, for one row of the aggregate. *)
Definition marcador (max_vitimas : Z) (row : string * Z) : option Circle :=
  let municipio := row.1 in
  let vitimas := row.2 in
  let municipio_upper := str_strip (str_upper municipio) in
  match COORDENADAS_MUNICIPIOS !! municipio_upper with
  | Some coords =>
      let radius := calc_radius vitimas max_vitimas in
      let color := cor (intensidade vitimas max_vitimas) in
      Some (mkCircle
              (lat coords, lon coords)
              radius
              ("<b>" +:+ municipio +:+ "</b><br>Total: "
                 +:+ Py.format_comma vitimas)
              (municipio +:+ ": " +:+ Py.format_comma vitimas)
              color
              true
              color
              F64.c0_6
              2)
  | None => None
  end.

Definition desenhar (max_vitimas : Z) (m : Map) (row : string * Z) : Map :=
  match marcador max_vitimas row with
  | Some c => add_circle c m
  | None => m
  end.

(** The map before anything is drawn on it (line 42). *)
Definition mapa_base : Map :=
  mkMap (F64.lat_PE, F64.lon_PE) 7 "OpenStreetMap" [] [].

(** The function; [None] is the [KeyError] pandas raises when one of
    the two columns is not in the frame. The call is one the pandas
    operations accept: a column of text for the municipalities, another
    column, of integers, for the counts. The other errors of pandas
    ([ValueError] when one column is given twice, [TypeError] for counts
    that are text) are not in the model. *)
Definition criar_mapa_calor (df : DataFrame)
    (col_municipio col_vitimas : string) (ano mes : option Z) (top_n : Z)
  : option Map :=
  let df_mapa := filtrar df ano mes in
  if bool_decide (col_municipio ∈ columns df_mapa)
     && bool_decide (col_vitimas ∈ columns df_mapa)
  then
    let df_mapa_agg := agregar df_mapa col_municipio col_vitimas top_n in
    let m := mapa_base in
    if (length df_mapa_agg =? 0)%nat then Some m
    else
      let max_vitimas := Pandas.max (df_mapa_agg.*2) in
      let m := foldl (desenhar max_vitimas) m df_mapa_agg in
      Some (add_html legend_html m)
  else None.

(** The coordinates the loop finds for a municipality, if any. *)
Definition resolve (municipio : string) : option Coord :=
  COORDENADAS_MUNICIPIOS !! str_strip (str_upper municipio).

(** What the function returns once the aggregate is known. *)
Definition desenho (df_mapa_agg : list (string * Z)) : Map :=
  match df_mapa_agg with
  | [] => mapa_base
  | _ =>
      mkMap (F64.lat_PE, F64.lon_PE) 7 "OpenStreetMap"
        (omap (marcador (Pandas.max (df_mapa_agg.*2))) df_mapa_agg)
        [legend_html]
  end.

(** The distinct values of the grouping column. *)
Definition chaves (df_mapa : DataFrame) (key : string) : list string :=
  remove_dups (omap (λ r, str_cells r !! key) (rows df_mapa)).

(** The count a row carries, nothing when the cell is missing. *)
Definition valor (val : string) (r : Row) : Z := default 0 (int_cells r !! val).

Definition soma_total (val : string) (rs : list Row) : Z :=
  foldr (λ r s, valor val r + s) 0 rs.

End MapaCalor.

(** ** A concrete sort and a concrete table, to run the function *)

Definition by_sum_desc (a b : string * Z) : Prop := b.2 ≤ a.2.

#[local] Instance by_sum_desc_dec a b : Decision (by_sum_desc a b) :=
  Z_le_dec _ _.

Definition sort_desc (l : list (string * Z)) : list (string * Z) :=
  merge_sort by_sum_desc l.

Definition linha (municipio : string) (total : Z) : Pandas.Row :=
  Pandas.mkRow {[ "MUNICIPIO" := municipio ]} {[ "TOTAL" := total ]}.

Definition frame (rs : list Pandas.Row) : Pandas.DataFrame :=
  Pandas.mkDataFrame ["MUNICIPIO"; "TOTAL"] rs.

Definition coordenadas_exemplo : gmap string Coord :=
  {[ "RECIFE" := mkCoord (Prim2SF (-8.0476)%float) (Prim2SF (-34.8770)%float);
     "OLINDA" := mkCoord (Prim2SF (-8.0089)%float) (Prim2SF (-34.8553)%float) ]}.

Definition run (df : Pandas.DataFrame) (ano mes : option Z) (top_n : Z)
  : option Folium.Map :=
  criar_mapa_calor
      Py.ascii_upper Py.ascii_strip coordenadas_exemplo
      sort_desc df "MUNICIPIO" "TOTAL"
    ano mes top_n.

(** The records of the scenario: RECIFE 100, OLINDA 40, ATLANTIS 10. *)
Definition tres_municipios : Pandas.DataFrame :=
  frame [linha "RECIFE" 100; linha "OLINDA" 40; linha "ATLANTIS" 10].

(** The same with the largest sum at the municipality without
    coordinates, and the records of two sums in the ratio 3 to 7. *)
Definition atlantis_no_topo : Pandas.DataFrame :=
  frame [linha "ATLANTIS" 100; linha "RECIFE" 40; linha "OLINDA" 10].

Definition tres_de_sete : Pandas.DataFrame :=
  frame [linha "RECIFE" 7; linha "OLINDA" 3].



(** ** The filters of the side bar: [aplicar_filtros] of [modulos/utils.py] *)

Module PyList.

(** [list.index]: the position of the first occurrence, [None] for the
    [ValueError] of a value that is not in the list. *)
Fixpoint index (x : string) (l : list string) : option nat :=
  match l with
  | [] => None
  | y :: l' => if bool_decide (x = y) then Some 0%nat else S <$> index x l'
  end.

(** [calendar.month_name[1]] to [calendar.month_name[12]], in the
    default locale. *)
Definition month_name : list string :=
  ["January"; "February"; "March"; "April"; "May"; "June"; "July";
   "August"; "September"; "October"; "November"; "December"].

End PyList.

Module Select.
Import Pandas.

(** [df[mask]]: the rows where the mask holds, in their order. *)
Definition select (mask : Row → bool) (df : DataFrame) : DataFrame :=
  mkDataFrame (columns df) (List.filter mask (rows df)).

(** [(df[col] >= lo) & (df[col] <= hi)]; a missing cell compares false. *)
Definition between (col : string) (lo hi : Z) (r : Row) : bool :=
  match int_cells r !! col with
  | Some z => (lo <=? z) && (z <=? hi)
  | None => false
  end.

(** [df[col].isin(values)] on a column of integers and on one of text. *)
Definition isin_int (col : string) (values : list Z) (r : Row) : bool :=
  match int_cells r !! col with
  | Some z => bool_decide (z ∈ values)
  | None => false
  end.

Definition isin_str (col : string) (values : list string) (r : Row) : bool :=
  match str_cells r !! col with
  | Some s => bool_decide (s ∈ values)
  | None => false
  end.

End Select.

(** The dictionary [filtros]: a key that is absent is [None]. Keys other
    than these eight are not read by [aplicar_filtros]. *)
Record Filtros := mkFiltros {
  ano_inicio : option Z;
  ano_fim : option Z;
  meses : option (list string);
  regioes : option (list string);
  municipios : option (list string);
  sexos : option (list string);
  idade_min : option Z;
  idade_max : option Z
}.

(** [todos not in sel and len(sel) > 0]. *)
Definition selecao_ativa (todos : string) (sel : list string) : bool :=
  negb (bool_decide (todos ∈ sel)) && (0 <? length sel)%nat.

(** The block the function repeats for the regions, the municipalities
    and the sexes (lines 207-220). *)
Definition filtro_selecao (sel : option (list string)) (todos col : string)
    (df_filtrado : Pandas.DataFrame) : Pandas.DataFrame :=
  match sel with
  | Some s =>
      if bool_decide (col ∈ Pandas.columns df_filtrado) then
        if selecao_ativa todos s
        then Select.select (Select.isin_str col s) df_filtrado
        else df_filtrado
      else df_filtrado
  | None => df_filtrado
  end.

(** The block of a pair of bounds, for the years and for the ages
    (lines 195-198 and 222-225). *)
Definition filtro_intervalo (lo hi : option Z) (col : string)
    (df_filtrado : Pandas.DataFrame) : Pandas.DataFrame :=
  match lo, hi with
  | Some a, Some b =>
      if bool_decide (col ∈ Pandas.columns df_filtrado)
      then Select.select (Select.between col a b) df_filtrado
      else df_filtrado
  | _, _ => df_filtrado
  end.

(** The block of the months (lines 200-205): the names selected are
    turned into numbers by their position in [meses_nomes]. *)
Definition meses_nomes : list string := "Todos" :: PyList.month_name.

Definition filtro_meses (sel : option (list string)) (col_mes : string)
    (df_filtrado : Pandas.DataFrame) : option Pandas.DataFrame :=
  match sel with
  | Some ms =>
      if bool_decide (col_mes ∈ Pandas.columns df_filtrado) then
        if selecao_ativa "Todos" ms then
          meses_numeros ←
            mapM (λ m, PyList.index m meses_nomes)
                 (List.filter (λ m, negb (bool_decide (m = "Todos"))) ms);
          Some (Select.select
                  (Select.isin_int col_mes (Z.of_nat <$> meses_numeros))
                  df_filtrado)
        else Some df_filtrado
      else Some df_filtrado
  | None => Some df_filtrado
  end.

(** The function; [None] is the [ValueError] of [meses_nomes.index]. *)
Definition aplicar_filtros (df : Pandas.DataFrame) (filtros : Filtros)
    (prefixo_colunas : option (gmap string string)) : option Pandas.DataFrame :=
  let prefixo_colunas := default ∅ prefixo_colunas in
  let df_filtrado := df in
  let col_ano := default "ANO" (prefixo_colunas !! "ano") in
  let col_mes := default "MES" (prefixo_colunas !! "mes") in
  let col_regiao := default "REGIAO_GEOGRAFICA" (prefixo_colunas !! "regiao") in
  let col_municipio := default "MUNICIPIO" (prefixo_colunas !! "municipio") in
  let col_sexo := default "SEXO" (prefixo_colunas !! "sexo") in
  let col_idade := default "IDADE" (prefixo_colunas !! "idade") in
  let df_filtrado :=
    filtro_intervalo (ano_inicio filtros) (ano_fim filtros) col_ano df_filtrado in
  df_filtrado ← filtro_meses (meses filtros) col_mes df_filtrado;
  let df_filtrado := filtro_selecao (regioes filtros) "Todas" col_regiao df_filtrado in
  let df_filtrado :=
    filtro_selecao (municipios filtros) "Todos" col_municipio df_filtrado in
  let df_filtrado := filtro_selecao (sexos filtros) "Todos" col_sexo df_filtrado in
  let df_filtrado :=
    filtro_intervalo (idade_min filtros) (idade_max filtros) col_idade df_filtrado in
  Some df_filtrado.

(** ** The filters and the map of [analise_cvp.render] *)

(** Lines 45-49: the years, then the regions and the municipalities
    unless the selection holds the entry for all; [None] is the
    [KeyError] of a column that is not in the frame. *)
Definition filtrar_cvp (df : Pandas.DataFrame) (ano_inicio ano_fim : Z)
    (regiao municipio : list string) : option Pandas.DataFrame :=
  df_filt ←
    (if bool_decide ("ANO" ∈ Pandas.columns df)
     then Some (Select.select (Select.between "ANO" ano_inicio ano_fim) df)
     else None);
  df_filt ←
    (if negb (bool_decide ("Todas" ∈ regiao)) then
       if bool_decide ("REGIAO_GEOGRAFICA" ∈ Pandas.columns df_filt)
       then Some (Select.select (Select.isin_str "REGIAO_GEOGRAFICA" regiao) df_filt)
       else None
     else Some df_filt);
  df_filt ←
    (if negb (bool_decide ("Todos" ∈ municipio)) then
       if bool_decide ("MUNICIPIO" ∈ Pandas.columns df_filt)
       then Some (Select.select (Select.isin_str "MUNICIPIO" municipio) df_filt)
       else None
     else Some df_filt);
  Some df_filt.

(** The value of the select box of the map: ['Todos'] or a year. *)
Inductive AnoMapa := Todos | Ano (a : Z).

(** Lines 89-90. *)
Definition mapa_cvp (str_upper str_strip : string → string)
    (COORDENADAS_MUNICIPIOS : gmap string Coord)
    (sort_values : list (string * Z) → list (string * Z))
    (df_filt : Pandas.DataFrame) (ano_map : AnoMapa) (top_n : Z)
  : option Folium.Map :=
  let ano_f := match ano_map with Todos => None | Ano a => Some a end in
  criar_mapa_calor str_upper str_strip COORDENADAS_MUNICIPIOS sort_values
    df_filt "MUNICIPIO" "TOTAL" ano_f None top_n.

(** ** What the properties are stated with *)

(** The sum of the counts of the rows whose key is [k], before any
    wrap-around. *)
Definition soma_do_grupo (key val k : string) (rs : list Pandas.Row) : Z :=
  foldr (λ r s, if bool_decide (Pandas.str_cells r !! key = Some k)
                then valor val r + s else s) 0 rs.

(** A row passes a selection when the selection is active only if its
    cell is one of the values selected. *)
Definition passa_selecao (sel : option (list string)) (todos col : string)
    (df : Pandas.DataFrame) (r : Pandas.Row) : Prop :=
  ∀ s, sel = Some s → col ∈ Pandas.columns df →
       todos ∉ s → s ≠ [] →
       ∃ v, Pandas.str_cells r !! col = Some v ∧ v ∈ s.

Definition passa_intervalo (lo hi : option Z) (col : string)
    (df : Pandas.DataFrame) (r : Pandas.Row) : Prop :=
  ∀ a b, lo = Some a → hi = Some b → col ∈ Pandas.columns df →
         ∃ z, Pandas.int_cells r !! col = Some z ∧ a ≤ z ≤ b.

(** A row passes the months when its month is that of a name selected:
    month [z] is [calendar.month_name[z]]. *)
Definition passa_meses (sel : option (list string)) (col_mes : string)
    (df : Pandas.DataFrame) (r : Pandas.Row) : Prop :=
  ∀ ms, sel = Some ms → col_mes ∈ Pandas.columns df →
        "Todos" ∉ ms → ms ≠ [] →
        ∃ z nome, Pandas.int_cells r !! col_mes = Some z
                  ∧ 1 ≤ z ≤ 12
                  ∧ PyList.month_name !! Z.to_nat (z - 1) = Some nome
                  ∧ nome ∈ ms.

(** The name of a column: [prefixo_colunas.get(chave, padrao)]. *)
Definition coluna (prefixo_colunas : option (gmap string string))
    (chave padrao : string) : string :=
  default padrao (default ∅ prefixo_colunas !! chave).

(** A row passes the filters when it passes each of the six blocks. *)
Definition passa_filtros (df : Pandas.DataFrame) (filtros : Filtros)
    (prefixo_colunas : option (gmap string string)) (r : Pandas.Row) : Prop :=
  passa_intervalo (ano_inicio filtros) (ano_fim filtros)
    (coluna prefixo_colunas "ano" "ANO") df r
  ∧ passa_meses (meses filtros) (coluna prefixo_colunas "mes" "MES") df r
  ∧ passa_selecao (regioes filtros) "Todas"
      (coluna prefixo_colunas "regiao" "REGIAO_GEOGRAFICA") df r
  ∧ passa_selecao (municipios filtros) "Todos"
      (coluna prefixo_colunas "municipio" "MUNICIPIO") df r
  ∧ passa_selecao (sexos filtros) "Todos"
      (coluna prefixo_colunas "sexo" "SEXO") df r
  ∧ passa_intervalo (idade_min filtros) (idade_max filtros)
      (coluna prefixo_colunas "idade" "IDADE") df r.

(** A frame with the columns of the data sets, to run the filters. *)
Definition registro (municipio regiao sexo : string) (ano mes idade total : Z)
  : Pandas.Row :=
  Pandas.mkRow
    {[ "MUNICIPIO" := municipio; "REGIAO_GEOGRAFICA" := regiao; "SEXO" := sexo ]}
    {[ "ANO" := ano; "MES" := mes; "IDADE" := idade; "TOTAL" := total ]}.

Definition base_exemplo : Pandas.DataFrame :=
  Pandas.mkDataFrame
    ["MUNICIPIO"; "REGIAO_GEOGRAFICA"; "SEXO"; "ANO"; "MES"; "IDADE"; "TOTAL"]
    [registro "RECIFE" "METROPOLITANA" "MASCULINO" 2023 1 30 5;
     registro "OLINDA" "METROPOLITANA" "FEMININO" 2023 2 25 3;
     registro "RECIFE" "METROPOLITANA" "FEMININO" 2024 2 41 2;
     registro "CARUARU" "AGRESTE" "MASCULINO" 2024 7 19 4;
     registro "ATLANTIS" "SERTAO" "MASCULINO" 2022 12 50 1].

Definition sem_filtros : Filtros :=
  mkFiltros None None None None None None None None.

(** Filters and frames to run [aplicar_filtros] on: the records of
    February of RECIFE and OLINDA, and a record without an age. *)
Definition filtros_exemplo : Filtros :=
  mkFiltros (Some 2023) (Some 2024) (Some ["February"]) None
    (Some ["RECIFE"; "OLINDA"]) None None None.

Definition base_filtrada : Pandas.DataFrame :=
  Pandas.mkDataFrame (Pandas.columns base_exemplo)
    [registro "OLINDA" "METROPOLITANA" "FEMININO" 2023 2 25 3;
     registro "RECIFE" "METROPOLITANA" "FEMININO" 2024 2 41 2].

Definition sem_idade : Pandas.Row :=
  Pandas.mkRow
    {[ "MUNICIPIO" := "OLINDA"; "REGIAO_GEOGRAFICA" := "METROPOLITANA";
       "SEXO" := "FEMININO" ]}
    {[ "ANO" := 2023; "MES" := 5; "TOTAL" := 1 ]}.

Definition base_com_lacuna : Pandas.DataFrame :=
  Pandas.mkDataFrame (Pandas.columns base_exemplo)
    (sem_idade :: Pandas.rows base_exemplo).

Definition filtros_padrao (a b lo hi : Z) : Filtros :=
  mkFiltros (Some a) (Some b) (Some ["Todos"]) (Some ["Todas"])
    (Some ["Todos"]) (Some ["Todos"]) (Some lo) (Some hi).

(** ** The text of a count *)

(** The text with its commas taken out, and the test of a decimal
    digit: what a reader does with [{vitimas:,}]. *)
Definition sem_virgulas (s : string) : string :=
  string_of_list_ascii
    (List.filter (λ c, negb (Ascii.eqb c ",")) (list_ascii_of_string s)).

Definition algarismo (c : ascii) : bool :=
  let n := nat_of_ascii c in ((48 <=? n) && (n <=? 57))%nat.

(** [municipio.upper().strip()], the key looked up at line 54, for a
    name of ASCII characters. *)
Definition chave (municipio : string) : string :=
  Py.ascii_strip (Py.ascii_upper municipio).

(** A call the pandas operations of the function accept: two different
    columns, the one of the municipalities holding text and the one of
    the counts an integer in every record, and no column name twice. On
    other calls pandas raises ([ValueError] for one column given twice,
    [TypeError] or [AttributeError] for a column of the wrong type). *)
Definition chamada_bem_formada (df : Pandas.DataFrame)
    (col_municipio col_vitimas : string) : Prop :=
  col_municipio ≠ col_vitimas
  ∧ NoDup (Pandas.columns df)
  ∧ ∀ r, r ∈ Pandas.rows df →
      Pandas.int_cells r !! col_municipio = None
      ∧ Pandas.str_cells r !! col_vitimas = None
      ∧ is_Some (Pandas.int_cells r !! col_vitimas).

(** ** Conversion of integers to binary64

    [F64.of_int] in closed form, and the fact the classification of the
    sums rests on: the conversion keeps the order of the integers. *)

Module F64Facts.
Import Round53.

(** *** Shifting right, one bit at a time *)

Lemma iter_pos_nat {A} (f : A → A) (p : positive) : ∀ x : A,
  SpecFloat.iter_pos f p x = Nat.iter (Pos.to_nat p) f x.
Proof.
  induction p as [p IH|p IH|]; intros x; cbn [SpecFloat.iter_pos].
  - rewrite !IH, Pos2Nat.inj_xI, <- Nat.iter_succ_r, <- Nat.iter_add.
    f_equal. lia.
  - rewrite !IH, Pos2Nat.inj_xO, <- Nat.iter_add. f_equal. lia.
  - reflexivity.
Qed.

Lemma shr_1_m m r s :
  0 ≤ m → shr_m (shr_1 (Build_shr_record m r s)) = m / 2.
Proof.
  intros Hm. destruct m as [|[q|q|]|q]; cbn [shr_1 shr_m]; try lia.
  - reflexivity.
  - rewrite (Pos2Z.inj_xI q). apply (Z.div_unique _ _ _ 1); lia.
  - rewrite (Pos2Z.inj_xO q). apply (Z.div_unique _ _ _ 0); lia.
  - reflexivity.
Qed.

Lemma shr_1_r m r s :
  0 ≤ m → shr_r (shr_1 (Build_shr_record m r s)) = Z.odd m.
Proof.
  intros Hm. destruct m as [|[q|q|]|q]; cbn [shr_1 shr_r]; try lia; reflexivity.
Qed.

Lemma shr_1_s m r s :
  shr_s (shr_1 (Build_shr_record m r s)) = r || s.
Proof. destruct m as [|[q|q|]|[q|q|]]; reflexivity. Qed.

Lemma shr_inv_step p k mrs :
  0 ≤ p → 0 ≤ k → shr_inv p k mrs → shr_inv p (k + 1) (shr_1 mrs).
Proof.
  intros Hp Hk (Hm & Hr & Hs). destruct mrs as [m r s].
  cbn [shr_m shr_r shr_s] in Hm, Hr, Hs.
  assert (HP : 0 < 2^k) by (apply Z.pow_pos_nonneg; lia).
  assert (Hm0 : 0 ≤ m) by (subst m; apply Z.div_pos; lia).
  pose proof (Z.div_mod p (2^k) ltac:(lia)) as Hdm.
  pose proof (Z.mod_pos_bound p (2^k) HP) as Hrem.
  pose proof (Z.div_mod m 2 ltac:(lia)) as Hdm2.
  pose proof (Z.mod_pos_bound m 2 ltac:(lia)) as Hb.
  rewrite <- Hm in Hdm.
  assert (Hq : p / (2^k * 2) = m / 2).
  { symmetry. apply (Z.div_unique _ _ _ (p mod 2^k + (m mod 2) * 2^k)); nia. }
  assert (Hrm : p mod (2^k * 2) = p mod 2^k + (m mod 2) * 2^k).
  { symmetry. apply (Z.mod_unique _ _ (m / 2)); nia. }
  unfold shr_inv. rewrite Z.pow_add_r, Z.pow_1_r by lia.
  rewrite shr_1_m, shr_1_r, shr_1_s by assumption.
  rewrite Hq, Hrm. split; [reflexivity|].
  rewrite Zmod_odd in *. set (P := 2^k) in *. clearbody P.
  set (rem := p mod P) in *. clearbody rem. clear Hdm Hdm2 Hq Hrm Hm.
  destruct (Z.odd m), r, s; simpl; split; split; intros; try lia;
    try discriminate; try reflexivity;
    first [ apply Hr; lia | apply Hs; lia | exfalso; intuition lia | idtac ].
Qed.

Lemma shr_inv_iter p (k : nat) mrs :
  0 ≤ p → shr_inv p 0 mrs → shr_inv p (Z.of_nat k) (Nat.iter k shr_1 mrs).
Proof.
  intros Hp H0. induction k as [|k IH]; [exact H0|].
  rewrite Nat2Z.inj_succ, <- Z.add_1_r. cbn [Nat.iter nat_rect].
  apply shr_inv_step; [assumption|lia|exact IH].
Qed.

Lemma shr_inv_0 p : shr_inv p 0 (Build_shr_record p false false).
Proof.
  unfold shr_inv. cbn [shr_m shr_r shr_s].
  rewrite Z.pow_0_r, Z.div_1_r, Z.mod_1_r. intuition (discriminate || lia).
Qed.

(** *** Number of binary digits *)

Lemma digits_bounds p :
  2^(Zpos (digits2_pos p) - 1) ≤ Zpos p < 2^(Zpos (digits2_pos p)).
Proof.
  induction p as [p IH|p IH|]; cbn [digits2_pos].
  - rewrite Pos2Z.inj_succ, (Pos2Z.inj_xI p).
    set (D := Zpos (digits2_pos p)) in *.
    assert (HD : 0 < D) by (unfold D; lia). clearbody D.
    replace (Z.succ D - 1) with (Z.succ (D - 1)) by lia.
    rewrite (Z.pow_succ_r 2 (D - 1)) by lia.
    rewrite (Z.pow_succ_r 2 D) by lia. lia.
  - rewrite Pos2Z.inj_succ, (Pos2Z.inj_xO p).
    set (D := Zpos (digits2_pos p)) in *.
    assert (HD : 0 < D) by (unfold D; lia). clearbody D.
    replace (Z.succ D - 1) with (Z.succ (D - 1)) by lia.
    rewrite (Z.pow_succ_r 2 (D - 1)) by lia.
    rewrite (Z.pow_succ_r 2 D) by lia. lia.
  - simpl. lia.
Qed.

Lemma digits_unique p d :
  2^(d - 1) ≤ Zpos p < 2^d → Zpos (digits2_pos p) = d.
Proof.
  intros [Hlo Hhi]. pose proof (digits_bounds p) as [Dlo Dhi].
  set (D := Zpos (digits2_pos p)) in *.
  assert (HD : 0 < D) by (unfold D; lia).
  assert (Hd : 0 < d).
  { destruct (Z.ltb_spec 0 d); [assumption|].
    destruct (Z.eq_dec d 0) as [->|Hd0]; [simpl in Hhi; lia|].
    rewrite Z.pow_neg_r in Hhi by lia. lia. }
  destruct (Z.lt_trichotomy D d) as [Hlt|[Heq|Hgt]]; [|exact Heq|].
  - pose proof (Z.pow_le_mono_r 2 D (d - 1) ltac:(lia) ltac:(lia)). lia.
  - pose proof (Z.pow_le_mono_r 2 d (D - 1) ltac:(lia) ltac:(lia)). lia.
Qed.

Lemma iter_xO p k : Zpos (Pos.iter xO p k) = Zpos p * 2^(Zpos k).
Proof.
  induction k as [|k IH] using Pos.peano_ind.
  - simpl. lia.
  - rewrite Pos.iter_succ, Pos2Z.inj_xO, IH, Pos2Z.inj_succ, Z.pow_succ_r by lia.
    lia.
Qed.

Lemma fexp_normal x : - 1021 ≤ x → fexp prec emax x = x - 53.
Proof. intros Hx. unfold fexp, emin, prec, emax. lia. Qed.

(** *** Rounding an integer to 53 bits *)

(** A mantissa of 53 bits with an exponent in range is kept as it is. *)
Lemma binary_round_aux_normal sx m e :
  Zpos (digits2_pos m) = 53 → - 1074 ≤ e ≤ 971 →
  binary_round_aux prec emax sx (Zpos m) e loc_Exact = S754_finite sx m e.
Proof.
  intros Hd He. unfold binary_round_aux, shr_fexp.
  cbn [Zdigits2 shr_record_of_loc]. rewrite Hd, fexp_normal by lia.
  replace (53 + e - 53 - e) with 0 by lia. cbn [shr shr_m loc_of_shr_record].
  cbn [round_nearest_even Zdigits2 shr_record_of_loc]. rewrite Hd, fexp_normal by lia.
  replace (53 + e - 53 - e) with 0 by lia. cbn [shr shr_m].
  unfold prec, emax. destruct (Z.leb_spec e (1024 - 53)); [reflexivity|lia].
Qed.

(** An integer of at most 53 bits is represented exactly. *)
Lemma binary_round_exact sx p :
  Zpos (digits2_pos p) ≤ 53 →
  binary_round prec emax sx p 0
  = S754_finite sx (Z.to_pos (Zpos p * 2^(53 - Zpos (digits2_pos p))))
      (Zpos (digits2_pos p) - 53).
Proof.
  intros Hd. pose proof (digits_bounds p) as [Dlo Dhi].
  set (d := Zpos (digits2_pos p)) in *.
  assert (Hd0 : 0 < d) by (unfold d; lia).
  unfold binary_round. rewrite fexp_normal by (fold d; lia). fold d.
  unfold shl_align.
  assert (Hpow : 2^(d - 1) * 2^(53 - d) = 2^52).
  { rewrite <- Z.pow_add_r by lia. f_equal. lia. }
  assert (Hpow' : 2^d * 2^(53 - d) = 2^53).
  { rewrite <- Z.pow_add_r by lia. f_equal. lia. }
  assert (Hpos : 0 < 2^(53 - d)) by (apply Z.pow_pos_nonneg; lia).
  destruct (d + 0 - 53 - 0) as [|k|k] eqn:E; [| lia |].
  - replace (53 - d) with 0 by lia. rewrite Z.pow_0_r, Z.mul_1_r.
    replace (d - 53) with 0 by lia. cbn [Z.to_pos].
    replace (fst (p, 0)) with p by reflexivity.
    apply binary_round_aux_normal; [fold d; lia|lia].
  - assert (Ek : 53 - d = Zpos k) by lia.
    rewrite binary_round_aux_normal.
    + rewrite Ek, <- iter_xO. cbn [Z.to_pos]. f_equal; lia.
    + apply digits_unique. rewrite iter_xO, <- Ek. nia.
    + lia.
Qed.

Lemma round_nearest_even_inv p k mrs :
  0 ≤ p → 0 ≤ k → shr_inv p k mrs →
  round_nearest_even (shr_m mrs) (loc_of_shr_record mrs)
  = rne (p / 2^k) (p mod 2^k) (2^k).
Proof.
  intros Hp Hk (Hm & Hr & Hs). destruct mrs as [m r s].
  cbn [shr_m shr_r shr_s] in *. subst m.
  assert (HP : 0 < 2^k) by (apply Z.pow_pos_nonneg; lia).
  pose proof (Z.mod_pos_bound p (2^k) HP) as Hrem.
  set (P := 2^k) in *. clearbody P. set (rem := p mod P) in *. clearbody rem.
  set (q := p / P). clearbody q. unfold rne.
  destruct r, s; cbn [loc_of_shr_record round_nearest_even].
  - assert (P < 2 * rem) by (destruct Hr as [Hr _], Hs as [Hs _];
      specialize (Hr eq_refl); specialize (Hs eq_refl); lia).
    rewrite (proj2 (Z.ltb_lt _ _)) by assumption. reflexivity.
  - assert (P = 2 * rem).
    { destruct Hr as [Hr _]. specialize (Hr eq_refl).
      destruct (Z.eq_dec P (2 * rem)); [assumption|].
      assert (false = true); [|discriminate]. apply Hs. lia. }
    rewrite (proj2 (Z.ltb_ge _ _)), (proj2 (Z.eqb_eq _ _)) by lia.
    rewrite <- Z.negb_odd. simpl. destruct (Z.odd q); reflexivity.
  - assert (2 * rem < P).
    { destruct (Z.lt_ge_cases (2 * rem) P); [assumption|].
      assert (false = true); [|discriminate]. apply Hr. lia. }
    rewrite (proj2 (Z.ltb_ge _ _)), (proj2 (Z.eqb_neq _ _)) by lia. reflexivity.
  - assert (2 * rem < P).
    { destruct (Z.lt_ge_cases (2 * rem) P); [assumption|].
      assert (false = true); [|discriminate]. apply Hr. lia. }
    rewrite (proj2 (Z.ltb_ge _ _)), (proj2 (Z.eqb_neq _ _)) by lia. reflexivity.
Qed.

Lemma binary_round_aux_finish sx mx ex lx :
  binary_round_aux prec emax sx mx ex lx
  = finish sx
      (round_nearest_even (shr_m (shr_fexp prec emax mx ex lx).1)
         (loc_of_shr_record (shr_fexp prec emax mx ex lx).1))
      (shr_fexp prec emax mx ex lx).2.
Proof.
  unfold binary_round_aux, finish.
  destruct (shr_fexp prec emax mx ex lx) as [mrs' e']. reflexivity.
Qed.

Lemma finish_normal sx m e :
  Zpos (digits2_pos m) = 53 → - 1074 ≤ e ≤ 971 →
  finish sx (Zpos m) e = S754_finite sx m e.
Proof.
  intros Hd He. unfold finish, shr_fexp.
  cbn [Zdigits2 shr_record_of_loc]. rewrite Hd, fexp_normal by lia.
  replace (53 + e - 53 - e) with 0 by lia. cbn [shr shr_m].
  unfold prec, emax. destruct (Z.leb_spec e (1024 - 53)); [reflexivity|lia].
Qed.

Lemma finish_carry sx e :
  - 1074 ≤ e ≤ 970 →
  finish sx (2^53) e = S754_finite sx (Z.to_pos (2^52)) (e + 1).
Proof.
  intros He. unfold finish, shr_fexp.
  change (Zdigits2 (2^53)) with 54. rewrite fexp_normal by lia.
  replace (54 + e - 53 - e) with 1 by lia.
  cbn [shr shr_record_of_loc SpecFloat.iter_pos].
  change (shr_m (shr_1 _)) with (2^52).
  change (2^52) with (Zpos (Z.to_pos (2^52))) at 1. cbv iota beta.
  unfold prec, emax. destruct (Z.leb_spec (e + 1) (1024 - 53)); [reflexivity|lia].
Qed.

(** An integer of more than 53 bits is rounded. *)
Lemma binary_round_shift sx p :
  53 < Zpos (digits2_pos p) ≤ 1000 →
  binary_round prec emax sx p 0
  = let n := Zpos (digits2_pos p) - 53 in
    let m := rne (Zpos p / 2^n) (Zpos p mod 2^n) (2^n) in
    if m =? 2^53 then S754_finite sx (Z.to_pos (2^52)) (n + 1)
    else S754_finite sx (Z.to_pos m) n.
Proof.
  intros Hd. pose proof (digits_bounds p) as [Dlo Dhi].
  set (d := Zpos (digits2_pos p)) in *.
  unfold binary_round. rewrite fexp_normal by (fold d; lia). fold d.
  unfold shl_align.
  destruct (d + 0 - 53 - 0) as [|k|k] eqn:E; [lia| |lia].
  replace (fst (p, 0)) with p by reflexivity.
  rewrite binary_round_aux_finish.
  unfold shr_fexp at 1 2 3. cbn [Zdigits2 shr_record_of_loc]. fold d.
  rewrite fexp_normal by lia.
  replace (d + 0 - 53 - 0) with (Zpos k) by lia. cbn [shr fst snd].
  assert (Hn : d - 53 = Zpos k) by lia. rewrite Hn. cbv zeta.
  assert (Hinv : shr_inv (Zpos p) (Zpos k)
                   (SpecFloat.iter_pos shr_1 k (Build_shr_record (Zpos p) false false))).
  { rewrite iter_pos_nat, <- (positive_nat_Z k).
    apply shr_inv_iter; [lia|apply shr_inv_0]. }
  rewrite (round_nearest_even_inv (Zpos p) (Zpos k)) by (lia || exact Hinv).
  assert (HP : 0 < 2^(Zpos k)) by (apply Z.pow_pos_nonneg; lia).
  assert (Hsplit : 2^(d - 1) = 2^52 * 2^(Zpos k)).
  { rewrite <- Z.pow_add_r by lia. f_equal. lia. }
  assert (Hsplit' : 2^d = 2^53 * 2^(Zpos k)).
  { rewrite <- Z.pow_add_r by lia. f_equal. lia. }
  assert (Hq : 2^52 ≤ Zpos p / 2^(Zpos k) < 2^53).
  { split.
    - apply Z.div_le_lower_bound; lia.
    - apply Z.div_lt_upper_bound; lia. }
  pose proof (Z.mod_pos_bound (Zpos p) (2^(Zpos k)) HP) as Hrem.
  set (m := rne _ _ _).
  assert (Hm : 2^52 ≤ m ≤ 2^53).
  { unfold m, rne. destruct (_ || _); lia. }
  destruct (Z.eqb_spec m (2^53)) as [->|Hne].
  - rewrite finish_carry by lia. f_equal; lia.
  - destruct m as [|m'|m'] eqn:Em; try lia.
    rewrite finish_normal; [reflexivity| |lia].
    apply digits_unique. lia.
Qed.

(** *** The closed form *)

Lemma Zdigits2_bounds z :
  0 < z → 0 < Zdigits2 z ∧ 2^(Zdigits2 z - 1) ≤ z < 2^(Zdigits2 z).
Proof.
  destruct z as [|p|p]; try lia. intros _. cbn [Zdigits2].
  split; [lia|apply digits_bounds].
Qed.

Lemma Zdigits2_mono b a : 0 < b → b ≤ a → Zdigits2 b ≤ Zdigits2 a.
Proof.
  intros Hb Hba.
  destruct (Zdigits2_bounds b Hb) as (Hdb & Hlo & _).
  destruct (Zdigits2_bounds a ltac:(lia)) as (Hda & _ & Hhi).
  destruct (Z.le_gt_cases (Zdigits2 b) (Zdigits2 a)) as [H|H]; [exact H|].
  pose proof (Z.pow_le_mono_r 2 (Zdigits2 a) (Zdigits2 b - 1) ltac:(lia) ltac:(lia)).
  lia.
Qed.

Lemma Zdigits2_le_64 z : 0 < z < 2^64 → Zdigits2 z ≤ 64.
Proof.
  intros [Hz Hlt]. destruct (Zdigits2_bounds z Hz) as (Hd & Hlo & _).
  destruct (Z.le_gt_cases (Zdigits2 z) 64) as [H|H]; [exact H|].
  pose proof (Z.pow_le_mono_r 2 64 (Zdigits2 z - 1) ltac:(lia) ltac:(lia)).
  lia.
Qed.

Lemma of_int_pos p :
  Zpos p < 2^64 →
  F64.of_int (Zpos p)
  = S754_finite false (Z.to_pos (round53 (Zpos p)).2) (round53 (Zpos p)).1.
Proof.
  intros Hp. pose proof (Zdigits2_le_64 (Zpos p) ltac:(lia)) as Hd.
  unfold F64.of_int, binary_normalize, round53. cbn [Zdigits2] in *.
  destruct (Z.leb_spec (Zpos (digits2_pos p)) 53) as [Hle|Hgt].
  - rewrite binary_round_exact by assumption. reflexivity.
  - rewrite binary_round_shift by lia. cbv zeta.
    destruct (_ =? _); reflexivity.
Qed.

Lemma of_int_neg p :
  Zpos p < 2^64 →
  F64.of_int (Zneg p)
  = S754_finite true (Z.to_pos (round53 (Zpos p)).2) (round53 (Zpos p)).1.
Proof.
  intros Hp. pose proof (Zdigits2_le_64 (Zpos p) ltac:(lia)) as Hd.
  unfold F64.of_int, binary_normalize, round53. cbn [Zdigits2] in *.
  destruct (Z.leb_spec (Zpos (digits2_pos p)) 53) as [Hle|Hgt].
  - rewrite binary_round_exact by assumption. reflexivity.
  - rewrite binary_round_shift by lia. cbv zeta.
    destruct (_ =? _); reflexivity.
Qed.

Lemma rne_mono P b a :
  0 < P → 0 ≤ b → b ≤ a →
  rne (b / P) (b mod P) P ≤ rne (a / P) (a mod P) P.
Proof.
  intros HP Hb Hba.
  pose proof (Z.div_mod b P ltac:(lia)) as Eb.
  pose proof (Z.div_mod a P ltac:(lia)) as Ea.
  pose proof (Z.mod_pos_bound b P HP) as Rb.
  pose proof (Z.mod_pos_bound a P HP) as Ra.
  pose proof (Z.div_le_mono b a P HP Hba) as Hq.
  set (qb := b / P) in *. set (qa := a / P) in *.
  set (rb := b mod P) in *. set (ra := a mod P) in *.
  clearbody qb qa rb ra. unfold rne.
  destruct (Z.eq_dec qb qa) as [->|Hne].
  - assert (rb ≤ ra) by lia.
    destruct (Z.ltb_spec P (2 * rb)), (Z.ltb_spec P (2 * ra)),
      (Z.eqb_spec P (2 * rb)), (Z.eqb_spec P (2 * ra)), (Z.odd qa);
      cbn [orb andb]; lia.
  - assert (qb + 1 ≤ qa) by lia.
    destruct (_ || _), (_ || _); lia.
Qed.

Lemma rne_bounds z :
  0 < z → 53 < Zdigits2 z →
  2^52 ≤ rne (z / 2^(Zdigits2 z - 53)) (z mod 2^(Zdigits2 z - 53))
           (2^(Zdigits2 z - 53)) ≤ 2^53.
Proof.
  intros Hz Hd. destruct (Zdigits2_bounds z Hz) as (_ & Hlo & Hhi).
  set (d := Zdigits2 z) in *. clearbody d.
  assert (HP : 0 < 2^(d - 53)) by (apply Z.pow_pos_nonneg; lia).
  assert (Hsplit : 2^(d - 1) = 2^52 * 2^(d - 53)).
  { rewrite <- Z.pow_add_r by lia. f_equal. lia. }
  assert (Hsplit' : 2^d = 2^53 * 2^(d - 53)).
  { rewrite <- Z.pow_add_r by lia. f_equal. lia. }
  assert (Hq : 2^52 ≤ z / 2^(d - 53) < 2^53).
  { split.
    - apply Z.div_le_lower_bound; lia.
    - apply Z.div_lt_upper_bound; lia. }
  unfold rne. destruct (_ || _); lia.
Qed.

Lemma round53_mantissa z :
  0 < z → 2^52 ≤ (round53 z).2 < 2^53.
Proof.
  intros Hz. destruct (Zdigits2_bounds z Hz) as (Hd & Hlo & Hhi).
  unfold round53. destruct (Z.leb_spec (Zdigits2 z) 53) as [Hle|Hgt]; cbn [snd].
  - set (d := Zdigits2 z) in *. clearbody d.
    assert (Hpos : 0 < 2^(53 - d)) by (apply Z.pow_pos_nonneg; lia).
    assert (Hpow : 2^(d - 1) * 2^(53 - d) = 2^52).
    { rewrite <- Z.pow_add_r by lia. f_equal. lia. }
    assert (Hpow' : 2^d * 2^(53 - d) = 2^53).
    { rewrite <- Z.pow_add_r by lia. f_equal. lia. }
    nia.
  - pose proof (rne_bounds z Hz Hgt) as Hb. cbv zeta.
    destruct (Z.eqb_spec (rne (z / 2^(Zdigits2 z - 53)) (z mod 2^(Zdigits2 z - 53))
                            (2^(Zdigits2 z - 53))) (2^53)); cbn [snd]; lia.
Qed.

Lemma round53_mono b a : 0 < b → b ≤ a → lex_le (round53 b) (round53 a).
Proof.
  intros Hb Hba. assert (Ha : 0 < a) by lia.
  pose proof (Zdigits2_mono b a Hb Hba) as Hd.
  destruct (Zdigits2_bounds b Hb) as (Hdb & Hblo & Hbhi).
  destruct (Zdigits2_bounds a Ha) as (Hda & Halo & Hahi).
  pose proof (round53_mantissa a Ha) as Hma.
  pose proof (round53_mantissa b Hb) as Hmb.
  unfold round53 in *. unfold lex_le.
  destruct (Z.leb_spec (Zdigits2 b) 53) as [Hb53|Hb53],
           (Z.leb_spec (Zdigits2 a) 53) as [Ha53|Ha53]; cbv zeta in *.
  - cbn [fst snd]. destruct (Z.eq_dec (Zdigits2 b) (Zdigits2 a)) as [E|E]; [|lia].
    right. split; [lia|]. rewrite E.
    apply Z.mul_le_mono_nonneg_r; [|exact Hba].
    apply Z.pow_nonneg. lia.
  - left. destruct (_ =? _); cbn [fst]; lia.
  - lia.
  - pose proof (rne_bounds b Hb Hb53) as Bb.
    pose proof (rne_bounds a Ha Ha53) as Ba.
    destruct (Z.eq_dec (Zdigits2 b) (Zdigits2 a)) as [E|E].
    + rewrite E in *.
      assert (HP : 0 < 2^(Zdigits2 a - 53)) by (apply Z.pow_pos_nonneg; lia).
      pose proof (rne_mono _ b a HP ltac:(lia) Hba) as Hm.
      destruct (Z.eqb_spec (rne (b / 2^(Zdigits2 a - 53)) (b mod 2^(Zdigits2 a - 53))
                              (2^(Zdigits2 a - 53))) (2^53)),
               (Z.eqb_spec (rne (a / 2^(Zdigits2 a - 53)) (a mod 2^(Zdigits2 a - 53))
                              (2^(Zdigits2 a - 53))) (2^53));
        cbn [fst snd] in *; lia.
    + destruct (Z.eqb_spec (rne (b / 2^(Zdigits2 b - 53)) (b mod 2^(Zdigits2 b - 53))
                              (2^(Zdigits2 b - 53))) (2^53)),
               (Z.eqb_spec (rne (a / 2^(Zdigits2 a - 53)) (a mod 2^(Zdigits2 a - 53))
                              (2^(Zdigits2 a - 53))) (2^53));
        cbn [fst snd] in *; lia.
Qed.

(** *** Order *)

Ltac cases_compare :=
  repeat match goal with
    | H : context [(?a ?= ?b)%Z] |- _ => destruct (Z.compare_spec a b)
    | |- context [(?a ?= ?b)%Z] => destruct (Z.compare_spec a b)
    | H : context [(?a ?= ?b)%positive] |- _ => destruct (Pos.compare_spec a b)
    | |- context [(?a ?= ?b)%positive] => destruct (Pos.compare_spec a b)
    end.

Lemma SFltb_SFleb_trans x y z :
  SFltb x y = true → SFleb y z = true → SFltb x z = true.
Proof.
  unfold SFltb, SFleb, SFcompare.
  destruct x as [sx|sx| |sx mx ex], y as [sy|sy| |sy my ey],
    z as [sz|sz| |sz mz ez];
    try discriminate; try reflexivity;
    repeat match goal with s : bool |- _ => destruct s end;
    try discriminate; try reflexivity;
    change (Pos.compare_cont Eq) with Pos.compare;
    intros H1 H2; cases_compare; cbn [CompOpp] in *;
    try discriminate; try reflexivity; subst; lia.
Qed.

Lemma SFleb_finite_pos m1 e1 m2 e2 :
  lex_le (e1, Zpos m1) (e2, Zpos m2) →
  SFleb (S754_finite false m1 e1) (S754_finite false m2 e2) = true.
Proof.
  unfold lex_le, SFleb, SFcompare. cbn [fst snd].
  change (Pos.compare_cont Eq) with Pos.compare.
  intros H; cases_compare; try reflexivity; lia.
Qed.

Lemma SFleb_finite_neg m1 e1 m2 e2 :
  lex_le (e2, Zpos m2) (e1, Zpos m1) →
  SFleb (S754_finite true m1 e1) (S754_finite true m2 e2) = true.
Proof.
  unfold lex_le, SFleb, SFcompare. cbn [fst snd].
  change (Pos.compare_cont Eq) with Pos.compare.
  intros H; cases_compare; cbn [CompOpp]; try reflexivity; lia.
Qed.

Lemma round53_lex b a :
  0 < b → b ≤ a →
  lex_le ((round53 b).1, Zpos (Z.to_pos (round53 b).2))
         ((round53 a).1, Zpos (Z.to_pos (round53 a).2)).
Proof.
  intros Hb Hba.
  pose proof (round53_mantissa b Hb). pose proof (round53_mantissa a ltac:(lia)).
  rewrite !Z2Pos.id by lia.
  pose proof (round53_mono b a Hb Hba) as H'. unfold lex_le in *. exact H'.
Qed.

(** Converting integers of 64 bits to floats keeps their order. *)
Lemma of_int_mono b a :
  - 2^64 < b → b ≤ a → a < 2^64 →
  SFleb (F64.of_int b) (F64.of_int a) = true.
Proof.
  intros Hlo Hba Hhi.
  destruct b as [|pb|pb], a as [|pa|pa]; try lia;
    rewrite ?of_int_pos, ?of_int_neg by lia; try reflexivity.
  - apply SFleb_finite_pos, round53_lex; lia.
  - apply SFleb_finite_neg, round53_lex; lia.
Qed.

(** A threshold that an integer exceeds is exceeded by every larger
    integer. *)
Lemma gtb_of_int_mono t b a :
  - 2^64 < b → b ≤ a → a < 2^64 →
  F64.gtb (F64.of_int b) t = true → F64.gtb (F64.of_int a) t = true.
Proof.
  intros Hlo Hba Hhi H. unfold F64.gtb in *.
  eapply SFltb_SFleb_trans; [exact H|]. apply of_int_mono; assumption.
Qed.

Lemma of_int_nonzero z :
  - 2^64 < z < 2^64 → z ≠ 0 → F64.is_zero (F64.of_int z) = false.
Proof.
  intros Hz Hne. destruct z as [|p|p]; [congruence| |];
    rewrite ?of_int_pos, ?of_int_neg by lia; reflexivity.
Qed.

(** *** The quotient of a float by itself, and of zero *)

Lemma div_self s m e :
  F64.div (S754_finite s m e) (S754_finite s m e) = F64.one.
Proof.
  unfold F64.div, SFdiv, SFdiv_core_binary. cbv zeta.
  replace (Zdigits2 (Z.pos m) + e - (Zdigits2 (Z.pos m) + e)) with 0 by lia.
  replace (e - e) with 0 by lia.
  change (Z.min (fexp prec emax 0) 0) with (-53).
  change (0 - -53) with 53.
  cbv iota beta.
  destruct (Z.div_eucl (Z.shiftl (Z.pos m) 53) (Z.pos m)) as [q r] eqn:E.
  assert (Hq : q = 2^53).
  { change q with (fst (q, r)). rewrite <- E.
    change (fst (Z.div_eucl ?a ?b)) with (a / b).
    rewrite Z.shiftl_mul_pow2 by lia. rewrite Z.mul_comm. apply Z.div_mul. lia. }
  assert (Hr : r = 0).
  { change r with (snd (q, r)). rewrite <- E.
    change (snd (Z.div_eucl ?a ?b)) with (a mod b).
    rewrite Z.shiftl_mul_pow2 by lia. rewrite Z.mul_comm. apply Z.mod_mul. lia. }
  subst q r.
  assert (Hl : new_location (Z.pos m) 0 = loc_Exact).
  { unfold new_location, new_location_even, new_location_odd.
    destruct (Z.even (Z.pos m)); reflexivity. }
  rewrite Hl. destruct s; vm_compute; reflexivity.
Qed.

Lemma of_int_finite z :
  - 2^64 < z < 2^64 → z ≠ 0 →
  ∃ s m e, F64.of_int z = S754_finite s m e ∧ s = (z <? 0).
Proof.
  intros Hz Hne. destruct z as [|p|p]; [congruence| |].
  - rewrite of_int_pos by lia. eauto.
  - rewrite of_int_neg by lia. eauto.
Qed.

(** The largest sum is drawn with the radius 35000, a sum of zero with
    the radius 5000. *)
Lemma calc_radius_max v :
  - 2^64 < v < 2^64 → v ≠ 0 → calc_radius v v = F64.c35000.
Proof.
  intros Hv Hne. unfold calc_radius.
  destruct (of_int_finite v Hv Hne) as (s & m & e & -> & _).
  rewrite div_self. vm_compute. reflexivity.
Qed.

Lemma calc_radius_zero max_vitimas :
  - 2^64 < max_vitimas < 2^64 → max_vitimas ≠ 0 →
  calc_radius 0 max_vitimas = F64.c5000.
Proof.
  intros Hv Hne. unfold calc_radius.
  destruct (of_int_finite max_vitimas Hv Hne) as (s & m & e & -> & _).
  destruct s; reflexivity.
Qed.

(** *** Rounding in closed form, for any exponent *)

Lemma bra_shift sx p e :
  53 < Zpos (digits2_pos p) → - 1021 ≤ Zpos (digits2_pos p) + e →
  e + (Zpos (digits2_pos p) - 53) ≤ 970 →
  binary_round_aux prec emax sx (Zpos p) e loc_Exact
  = S754_finite sx (Z.to_pos (round53 (Zpos p)).2) (e + (round53 (Zpos p)).1).
Proof.
  intros Hd Hlo Hhi. pose proof (digits_bounds p) as [Dlo Dhi].
  unfold round53. cbn [Zdigits2].
  set (d := Zpos (digits2_pos p)) in *.
  rewrite (proj2 (Z.leb_gt d 53)) by lia. cbv zeta.
  rewrite binary_round_aux_finish.
  unfold shr_fexp at 1 2 3. cbn [Zdigits2 shr_record_of_loc]. fold d.
  rewrite fexp_normal by lia.
  destruct (d - 53) as [|k|k] eqn:Hn; [lia| |lia].
  replace (d + e - 53 - e) with (Zpos k) by lia. cbn [shr fst snd].
  assert (Hinv : shr_inv (Zpos p) (Zpos k)
                   (SpecFloat.iter_pos shr_1 k (Build_shr_record (Zpos p) false false))).
  { rewrite iter_pos_nat, <- (positive_nat_Z k).
    apply shr_inv_iter; [lia|apply shr_inv_0]. }
  rewrite (round_nearest_even_inv (Zpos p) (Zpos k)) by (lia || exact Hinv).
  assert (HP : 0 < 2^(Zpos k)) by (apply Z.pow_pos_nonneg; lia).
  assert (Hsplit : 2^(d - 1) = 2^52 * 2^(Zpos k)).
  { rewrite <- Z.pow_add_r by lia. f_equal. lia. }
  assert (Hsplit' : 2^d = 2^53 * 2^(Zpos k)).
  { rewrite <- Z.pow_add_r by lia. f_equal. lia. }
  assert (Hq : 2^52 ≤ Zpos p / 2^(Zpos k) < 2^53).
  { split.
    - apply Z.div_le_lower_bound; lia.
    - apply Z.div_lt_upper_bound; lia. }
  pose proof (Z.mod_pos_bound (Zpos p) (2^(Zpos k)) HP) as Hrem.
  set (m := rne _ _ _).
  assert (Hm : 2^52 ≤ m ≤ 2^53).
  { unfold m, rne. destruct (_ || _); lia. }
  destruct (Z.eqb_spec m (2^53)) as [->|Hne]; cbn [fst snd].
  - rewrite finish_carry by lia. f_equal; lia.
  - destruct m as [|m'|m'] eqn:Em; try lia.
    rewrite finish_normal; [reflexivity| |lia].
    apply digits_unique. lia.
Qed.

Lemma Zdigits2_unique z d : 2^(d - 1) ≤ z < 2^d → 0 < z → Zdigits2 z = d.
Proof.
  intros H Hz. destruct z as [|p|p]; try lia. cbn [Zdigits2].
  apply digits_unique. exact H.
Qed.

Lemma Zdigits2_scale z k : 0 < z → 0 ≤ k → Zdigits2 (z * 2^k) = Zdigits2 z + k.
Proof.
  intros Hz Hk. destruct (Zdigits2_bounds z Hz) as (Hd & Hlo & Hhi).
  assert (HP : 0 < 2^k) by (apply Z.pow_pos_nonneg; lia).
  apply Zdigits2_unique; [|nia].
  replace (Zdigits2 z + k - 1) with ((Zdigits2 z - 1) + k) by lia.
  rewrite !Z.pow_add_r by lia. nia.
Qed.

Lemma rne_scale q rem P K :
  0 < K → rne q (rem * K) (P * K) = rne q rem P.
Proof.
  intros HK. unfold rne.
  assert ((P * K <? 2 * (rem * K)) = (P <? 2 * rem)) as ->.
  { destruct (Z.ltb_spec P (2 * rem)), (Z.ltb_spec (P * K) (2 * (rem * K)));
      try reflexivity; nia. }
  assert ((P * K =? 2 * (rem * K)) = (P =? 2 * rem)) as ->.
  { destruct (Z.eqb_spec P (2 * rem)), (Z.eqb_spec (P * K) (2 * (rem * K)));
      try reflexivity; nia. }
  reflexivity.
Qed.

Lemma round53_scale z k :
  0 < z → 0 ≤ k → round53 (z * 2^k) = ((round53 z).1 + k, (round53 z).2).
Proof.
  intros Hz Hk. destruct (Zdigits2_bounds z Hz) as (Hd & Hlo & Hhi).
  assert (HK : 0 < 2^k) by (apply Z.pow_pos_nonneg; lia).
  unfold round53. rewrite Zdigits2_scale by assumption.
  set (d := Zdigits2 z) in *. clearbody d.
  destruct (Z.leb_spec d 53) as [Hle|Hgt].
  - cbn [fst snd]. destruct (Z.leb_spec (d + k) 53) as [Hle'|Hgt'].
    + f_equal; [lia|]. rewrite <- Z.mul_assoc, <- Z.pow_add_r by lia.
      f_equal. f_equal. lia.
    + assert (E : z * 2^k = (z * 2^(53 - d)) * 2^(d + k - 53)).
      { rewrite <- Z.mul_assoc, <- Z.pow_add_r by lia. f_equal. f_equal. lia. }
      assert (HP : 0 < 2^(d + k - 53)) by (apply Z.pow_pos_nonneg; lia).
      assert (Hpow : 2^(d - 1) * 2^(53 - d) = 2^52).
      { rewrite <- Z.pow_add_r by lia. f_equal. lia. }
      assert (Hpow' : 2^d * 2^(53 - d) = 2^53).
      { rewrite <- Z.pow_add_r by lia. f_equal. lia. }
      assert (H53 : 0 < 2^(53 - d)) by (apply Z.pow_pos_nonneg; lia).
      assert (Hr : rne ((z * 2^k) / 2^(d + k - 53)) ((z * 2^k) mod 2^(d + k - 53))
                     (2^(d + k - 53)) = z * 2^(53 - d)).
      { rewrite E. rewrite Z.div_mul, Z.mod_mul by lia. unfold rne.
        rewrite (proj2 (Z.ltb_ge _ _)) by lia.
        rewrite (proj2 (Z.eqb_neq _ _)) by lia. reflexivity. }
      cbv zeta. rewrite !Hr.
      rewrite (proj2 (Z.eqb_neq (z * 2^(53 - d)) (2^53))) by nia.
      f_equal. lia.
  - rewrite (proj2 (Z.leb_gt (d + k) 53)) by lia. cbv zeta.
    replace (d + k - 53) with ((d - 53) + k) by lia.
    assert (HP : 0 < 2^(d - 53)) by (apply Z.pow_pos_nonneg; lia).
    rewrite Z.pow_add_r by lia.
    rewrite Z.div_mul_cancel_r by lia.
    rewrite Zmult_mod_distr_r.
    rewrite rne_scale by lia.
    destruct (_ =? _); cbn [fst snd]; f_equal; lia.
Qed.

(** *** Normal floats: quotient, product and sum *)

Lemma normal_bounds m e : normal m e → 2^52 ≤ Zpos m < 2^53.
Proof. intros [Hd _]. pose proof (digits_bounds m) as H. rewrite Hd in H. exact H. Qed.

Lemma round53_exp z :
  0 < z → Zdigits2 z - 53 ≤ (round53 z).1 ≤ Z.max (Zdigits2 z - 53) (Zdigits2 z - 52).
Proof.
  intros Hz. unfold round53.
  destruct (Z.leb_spec (Zdigits2 z) 53); cbv zeta; [cbn [fst]; lia|].
  destruct (_ =? _); cbn [fst]; lia.
Qed.

Lemma of_int_normal z :
  0 < z < 2^64 →
  ∃ m e, F64.of_int z = S754_finite false m e ∧ normal m e
         ∧ (e, Zpos m) = round53 z.
Proof.
  intros Hz. destruct z as [|p|p]; try lia.
  rewrite of_int_pos by lia.
  pose proof (round53_mantissa (Zpos p) ltac:(lia)) as Hm.
  pose proof (round53_exp (Zpos p) ltac:(lia)) as He.
  pose proof (Zdigits2_le_64 (Zpos p) ltac:(lia)) as Hd.
  pose proof (Zdigits2_bounds (Zpos p) ltac:(lia)) as (Hd0 & _).
  eexists _, _. split; [reflexivity|]. split.
  - split; [|lia]. apply digits_unique. rewrite Z2Pos.id by lia. exact Hm.
  - rewrite Z2Pos.id by lia. destruct (round53 (Zpos p)); reflexivity.
Qed.

Lemma round_nearest_even_cases m l :
  round_nearest_even m l = m ∨ round_nearest_even m l = m + 1.
Proof. destruct l as [|[]]; cbn; try destruct (Z.even m); auto. Qed.

Lemma loc_of_record_of_loc m l :
  loc_of_shr_record (shr_record_of_loc m l) = l
  ∧ shr_m (shr_record_of_loc m l) = m.
Proof. destruct l as [|[]]; split; reflexivity. Qed.

Lemma finish_cases sx R e :
  2^52 ≤ R ≤ 2^53 → - 1074 ≤ e ≤ 970 →
  ∃ m e2, finish sx R e = S754_finite sx m e2
    ∧ Zpos (digits2_pos m) = 53
    ∧ ((e2 = e ∧ Zpos m = R) ∨ (e2 = e + 1 ∧ Zpos m = 2^52 ∧ R = 2^53)).
Proof.
  intros HR He. destruct (Z.eq_dec R (2^53)) as [->|Hne].
  - rewrite finish_carry by lia. eexists _, _. split; [reflexivity|].
    split; [reflexivity|]. right. auto.
  - destruct R as [|m|m]; try lia.
    assert (Hd : Zpos (digits2_pos m) = 53) by (apply digits_unique; lia).
    rewrite finish_normal by (assumption || lia).
    eexists _, _. split; [reflexivity|]. split; [exact Hd|]. left. auto.
Qed.

(** Rounding a quotient of 53 or 54 bits, wherever the remainder lies. *)
Lemma bra_quotient sx q e l :
  2^52 ≤ q < 2^54 → - 1000 ≤ e ≤ 900 →
  ∃ m e2, binary_round_aux prec emax sx q e l = S754_finite sx m e2
    ∧ Zpos (digits2_pos m) = 53
    ∧ e ≤ e2
    ∧ (q < 2^53 → e2 ≤ e + 1 ∧ (e2 = e + 1 → Zpos m = 2^52))
    ∧ (e2 ≤ e + 2 ∧ (e2 = e + 2 → Zpos m = 2^52)).
Proof.
  intros Hq He. rewrite binary_round_aux_finish. unfold shr_fexp.
  destruct (Z.lt_ge_cases q (2^53)) as [Hlt|Hge].
  - assert (Hd : Zdigits2 q = 53) by (apply Zdigits2_unique; lia).
    rewrite Hd, fexp_normal by lia.
    replace (53 + e - 53 - e) with 0 by lia. cbn [shr fst snd].
    destruct (loc_of_record_of_loc q l) as [-> ->].
    destruct (finish_cases sx (round_nearest_even q l) e) as (m & e2 & -> & Hm & Hc).
    { destruct (round_nearest_even_cases q l) as [-> | ->]; lia. }
    { lia. }
    exists m, e2. split; [reflexivity|]. split; [exact Hm|].
    destruct Hc as [[-> _]|(-> & H2 & _)]; repeat split; lia.
  - assert (Hd : Zdigits2 q = 54) by (apply Zdigits2_unique; lia).
    rewrite Hd, fexp_normal by lia.
    replace (54 + e - 53 - e) with 1 by lia.
    cbn [shr fst snd SpecFloat.iter_pos].
    set (rec := shr_record_of_loc q l).
    assert (Hrec : shr_m (shr_1 rec) = q / 2).
    { unfold rec. destruct l as [|[]]; cbn [shr_record_of_loc];
        apply shr_1_m; lia. }
    rewrite Hrec.
    assert (Hq2 : 2^52 ≤ q / 2 < 2^53).
    { split; [apply Z.div_le_lower_bound; lia|apply Z.div_lt_upper_bound; lia]. }
    destruct (finish_cases sx (round_nearest_even (q / 2)
                                 (loc_of_shr_record (shr_1 rec))) (e + 1))
      as (m & e2 & -> & Hm & Hc).
    { destruct (round_nearest_even_cases (q / 2) (loc_of_shr_record (shr_1 rec)))
        as [-> | ->]; lia. }
    { lia. }
    exists m, e2. split; [reflexivity|]. split; [exact Hm|].
    destruct Hc as [[-> _]|(-> & H2 & _)]; repeat split; lia.
Qed.

Lemma div_le_one mx ex my ey :
  normal mx ex → normal my ey → - 100 ≤ ex ≤ 100 → - 100 ≤ ey ≤ 100 →
  lex_le (ex, Zpos mx) (ey, Zpos my) →
  ∃ m e, F64.div (S754_finite false mx ex) (S754_finite false my ey)
         = S754_finite false m e
    ∧ normal m e
    ∧ ex - ey - 53 ≤ e
    ∧ lex_le (e, Zpos m) (-52, 2^52).
Proof.
  intros Hx Hy Hex Hey Hle.
  pose proof (normal_bounds _ _ Hx) as Bx.
  pose proof (normal_bounds _ _ Hy) as By.
  destruct (decide (ex = ey ∧ mx = my)) as [[-> ->]|Hne].
  { rewrite div_self. exists (Z.to_pos (2^52)), (-52).
    split; [reflexivity|]. split; [split; [reflexivity|lia]|].
    split; [lia|]. right. cbn. lia. }
  unfold F64.div, SFdiv, SFdiv_core_binary. cbv zeta.
  destruct Hx as [Hdx _], Hy as [Hdy _]. cbn [Zdigits2]. rewrite Hdx, Hdy.
  rewrite fexp_normal by lia.
  replace (Z.min (53 + ex - (53 + ey) - 53) (ex - ey)) with (ex - ey - 53) by lia.
  replace (ex - ey - (ex - ey - 53)) with 53 by lia. cbv iota beta.
  destruct (Z.div_eucl (Z.shiftl (Z.pos mx) 53) (Z.pos my)) as [q r] eqn:E.
  assert (Hq : q = (Zpos mx * 2^53) / Zpos my).
  { change q with (fst (q, r)). rewrite <- E.
    change (fst (Z.div_eucl ?a ?b)) with (a / b).
    rewrite Z.shiftl_mul_pow2 by lia. reflexivity. }
  assert (Hqb : 2^52 ≤ q < 2^54).
  { rewrite Hq. split.
    - apply Z.div_le_lower_bound; lia.
    - apply Z.div_lt_upper_bound; lia. }
  cbv iota beta. cbn [xorb].
  destruct (bra_quotient false q (ex - ey - 53) (new_location (Z.pos my) r))
    as (m & e & -> & Hm & Hlo & Hsmall & Hbig); [exact Hqb|lia|].
  exists m, e. split; [reflexivity|]. split; [split; [exact Hm|lia]|].
  split; [exact Hlo|].
  unfold lex_le in *. cbn [fst snd] in *.
  destruct Hle as [Hlt|[-> Hmle]].
  - destruct Hbig as [Hb1 Hb2].
    destruct (Z.eq_dec e (ex - ey - 53 + 2)) as [E2|E2]; [|left; lia].
    destruct (Z.eq_dec (ex - ey - 53 + 2) (-52)); [|left; lia].
    right. split; [lia|]. rewrite Hb2 by lia. lia.
  - assert (Hmlt : Zpos mx < Zpos my).
    { destruct (Z.eq_dec (Zpos mx) (Zpos my)) as [Em|]; [|lia].
      exfalso. apply Hne. split; [reflexivity|]. congruence. }
    assert (Hq53 : q < 2^53).
    { rewrite Hq. apply Z.div_lt_upper_bound; lia. }
    destruct (Hsmall Hq53) as [Hs1 Hs2].
    destruct (Z.eq_dec e (ey - ey - 53 + 1)) as [E1|E1]; [|left; lia].
    right. split; [lia|]. rewrite Hs2 by lia. lia.
Qed.

Lemma digits_product m1 m2 :
  2^52 ≤ Zpos m1 < 2^53 → 2^52 ≤ Zpos m2 < 2^53 →
  105 ≤ Zpos (digits2_pos (m1 * m2)) ≤ 106.
Proof.
  intros H1 H2. pose proof (digits_bounds (m1 * m2)) as [Dlo Dhi].
  rewrite Pos2Z.inj_mul in Dlo, Dhi.
  set (d := Zpos (digits2_pos (m1 * m2))) in *.
  assert (Hd0 : 0 < d) by (unfold d; lia).
  assert (Hlo : 2^104 ≤ Zpos m1 * Zpos m2) by nia.
  assert (Hhi : Zpos m1 * Zpos m2 < 2^106) by nia.
  split.
  - destruct (Z.lt_ge_cases d 105) as [Hlt|]; [|lia].
    assert (2^d ≤ 2^104) by (apply Z.pow_le_mono_r; lia). lia.
  - destruct (Z.lt_ge_cases 106 d) as [Hlt|]; [|lia].
    assert (2^106 ≤ 2^(d - 1)) by (apply Z.pow_le_mono_r; lia). lia.
Qed.

Lemma mul_normal m1 e1 m2 e2 :
  normal m1 e1 → normal m2 e2 → - 300 ≤ e1 ≤ 300 → - 300 ≤ e2 ≤ 300 →
  F64.mul (S754_finite false m1 e1) (S754_finite false m2 e2)
  = S754_finite false (Z.to_pos (round53 (Zpos m1 * Zpos m2)).2)
      (e1 + e2 + (round53 (Zpos m1 * Zpos m2)).1).
Proof.
  intros H1 H2 He1 He2.
  pose proof (digits_product m1 m2 (normal_bounds _ _ H1) (normal_bounds _ _ H2)) as Hd.
  unfold F64.mul, SFmul. cbn [xorb].
  rewrite bra_shift by lia. rewrite Pos2Z.inj_mul. reflexivity.
Qed.

Lemma shl_align_val m e ez :
  ez ≤ e → Zpos (shl_align m e ez).1 = Zpos m * 2^(e - ez).
Proof.
  intros H. unfold shl_align.
  destruct (ez - e) as [|k|k] eqn:E; cbn [fst].
  - replace (e - ez) with 0 by lia. lia.
  - lia.
  - rewrite iter_xO. f_equal. f_equal. lia.
Qed.

Lemma add_normal m1 e1 m2 e2 :
  normal m1 e1 → normal m2 e2 → - 300 ≤ e1 ≤ 300 → - 300 ≤ e2 ≤ 300 →
  let ez := Z.min e1 e2 in
  let S := Zpos m1 * 2^(e1 - ez) + Zpos m2 * 2^(e2 - ez) in
  F64.add (S754_finite false m1 e1) (S754_finite false m2 e2)
  = S754_finite false (Z.to_pos (round53 S).2) (ez + (round53 S).1).
Proof.
  intros H1 H2 He1 He2 ez S.
  pose proof (normal_bounds _ _ H1) as B1.
  pose proof (normal_bounds _ _ H2) as B2.
  unfold F64.add, SFadd. fold ez. cbn [cond_Zopp].
  rewrite !shl_align_val by (unfold ez; lia). fold S.
  assert (HA : 1 ≤ 2^(e1 - ez)) by (apply Z.lt_pred_le, Z.pow_pos_nonneg; unfold ez; lia).
  assert (HB : 1 ≤ 2^(e2 - ez)) by (apply Z.lt_pred_le, Z.pow_pos_nonneg; unfold ez; lia).
  set (K := 2^(Z.max e1 e2 - ez)).
  assert (HAK : 2^(e1 - ez) ≤ K) by (apply Z.pow_le_mono_r; unfold ez; lia).
  assert (HBK : 2^(e2 - ez) ≤ K) by (apply Z.pow_le_mono_r; unfold ez; lia).
  assert (HSlo : 2^53 ≤ S) by (unfold S; nia).
  assert (HShi : S < 2^(54 + (Z.max e1 e2 - ez))).
  { rewrite Z.pow_add_r by (unfold ez; lia). fold K. unfold S. nia. }
  destruct S as [|p|p] eqn:ES; try lia.
  unfold binary_normalize, binary_round.
  pose proof (digits_bounds p) as [Dlo Dhi].
  set (d := Zpos (digits2_pos p)) in *.
  assert (Hd54 : 54 ≤ d).
  { destruct (Z.lt_ge_cases d 54) as [Hlt|]; [|lia].
    assert (2^d ≤ 2^53) by (apply Z.pow_le_mono_r; lia). lia. }
  assert (Hdhi : d ≤ 54 + (Z.max e1 e2 - ez)).
  { destruct (Z.lt_ge_cases (54 + (Z.max e1 e2 - ez)) d) as [Hlt|]; [|lia].
    assert (2^(54 + (Z.max e1 e2 - ez)) ≤ 2^(d - 1))
      by (apply Z.pow_le_mono_r; unfold ez; lia). lia. }
  rewrite fexp_normal by (unfold ez; lia).
  unfold shl_align.
  destruct (d + ez - 53 - ez) as [|k|k] eqn:E; try lia.
  rewrite bra_shift by (fold d; unfold ez; lia). reflexivity.
Qed.

Lemma lex_le_value m e :
  2^52 ≤ m < 2^53 → e ≤ 0 → lex_le (e, m) (-52, 2^52) → m ≤ 2^(- e).
Proof.
  intros Hm He H. unfold lex_le in H. cbn [fst snd] in H.
  destruct H as [Hlt|[-> Hle]].
  - assert (2^53 ≤ 2^(- e)) by (apply Z.pow_le_mono_r; lia). lia.
  - exact Hle.
Qed.

(** The radius lies between 5000 and 35000. *)
Lemma calc_radius_bounds v M :
  0 ≤ v ≤ M → 0 < M < 2^63 →
  SFleb F64.c5000 (calc_radius v M) = true
  ∧ SFleb (calc_radius v M) F64.c35000 = true.
Proof.
  intros Hv HM.
  destruct (Z.eq_dec v 0) as [->|Hv0].
  { rewrite calc_radius_zero by lia. split; reflexivity. }
  destruct (of_int_normal v ltac:(lia)) as (mx & ex & Ex & Nx & Rx).
  destruct (of_int_normal M ltac:(lia)) as (my & ey & Ey & Ny & Ry).
  pose proof (round53_mono v M ltac:(lia) ltac:(lia)) as Hxy.
  rewrite <- Rx, <- Ry in Hxy.
  pose proof (round53_exp v ltac:(lia)) as Xe. rewrite <- Rx in Xe. cbn [fst] in Xe.
  pose proof (round53_exp M ltac:(lia)) as Ye. rewrite <- Ry in Ye. cbn [fst] in Ye.
  pose proof (Zdigits2_le_64 v ltac:(lia)) as Dv.
  pose proof (Zdigits2_le_64 M ltac:(lia)) as DM.
  pose proof (Zdigits2_bounds v ltac:(lia)) as (Dv0 & _).
  pose proof (Zdigits2_bounds M ltac:(lia)) as (DM0 & _).
  unfold calc_radius. rewrite Ex, Ey.
  destruct (div_le_one mx ex my ey Nx Ny ltac:(lia) ltac:(lia) Hxy)
    as (mq & eq & -> & Nq & Hqlo & Hqle).
  pose proof (normal_bounds _ _ Nq) as Bq.
  assert (Heq : eq ≤ -52).
  { destruct Hqle as [H|[H _]]; cbn [fst] in H; lia. }
  pose proof (lex_le_value (Zpos mq) eq Bq ltac:(lia) Hqle) as Hqv.
  change F64.c30000 with (S754_finite false 8246337208320000 (-38)).
  assert (N3 : normal 8246337208320000 (-38)) by (split; [reflexivity|lia]).
  rewrite (mul_normal mq eq _ _ Nq N3) by lia.
  set (P := Zpos mq * 8246337208320000).
  assert (HP0 : 0 < P) by (unfold P; lia).
  assert (Hpow : 0 < 2^(- eq)) by (apply Z.pow_pos_nonneg; lia).
  assert (HPle : P ≤ 8246337208320000 * 2^(- eq)) by (unfold P; nia).
  pose proof (round53_mono P _ HP0 HPle) as HmonoP.
  rewrite round53_scale in HmonoP by lia.
  change (round53 8246337208320000) with (0, 8246337208320000) in HmonoP.
  cbn [fst snd] in HmonoP.
  pose proof (round53_mantissa P HP0) as MP.
  pose proof (round53_exp P HP0) as XP.
  pose proof (digits_product mq 8246337208320000 Bq ltac:(lia)) as DP.
  assert (EDP : Zdigits2 P = Zpos (digits2_pos (mq * 8246337208320000))).
  { unfold P. rewrite <- Pos2Z.inj_mul. reflexivity. }
  rewrite EDP in XP.
  set (np := (round53 P).1) in *. set (mp := (round53 P).2) in *.
  assert (Np : normal (Z.to_pos mp) (eq + -38 + np)).
  { split; [|lia]. apply digits_unique. rewrite Z2Pos.id by lia. exact MP. }
  assert (Hple : lex_le (eq + -38 + np, mp) (-38, 8246337208320000)).
  { unfold lex_le in *. cbn [fst snd] in *. lia. }
  change F64.c5000 with (S754_finite false 5497558138880000 (-40)).
  assert (N5 : normal 5497558138880000 (-40)) by (split; [reflexivity|lia]).
  rewrite (add_normal _ _ _ _ Np N5) by lia. cbv zeta.
  rewrite Z2Pos.id by lia.
  set (ep := eq + -38 + np) in *.
  set (ez := Z.min ep (-40)).
  set (S := mp * 2^(ep - ez) + 5497558138880000 * 2^(-40 - ez)).
  set (t := -40 - ez).
  assert (Ht : 0 ≤ t) by (unfold t, ez; lia).
  assert (HT : 0 < 2^t) by (apply Z.pow_pos_nonneg; lia).
  assert (HS0 : 0 < S).
  { unfold S. fold t.
    assert (0 < 2^(ep - ez)) by (apply Z.pow_pos_nonneg; unfold ez; lia). nia. }
  assert (HSlo : 5497558138880000 * 2^t ≤ S).
  { unfold S. fold t.
    assert (0 < 2^(ep - ez)) by (apply Z.pow_pos_nonneg; unfold ez; lia). nia. }
  assert (HShi : S ≤ 4810363371520000 * 2^(3 + t)).
  { rewrite Z.pow_add_r by lia. change (2^3) with 8. unfold S. fold t.
    destruct (Z.le_gt_cases ep (-40)) as [Hle|Hgt].
    - replace (ep - ez) with 0 by (unfold ez; lia). rewrite Z.pow_0_r. nia.
    - assert (Et : t = 0) by (unfold t, ez; lia). rewrite Et in *.
      rewrite Z.pow_0_r.
      assert (Hez : ez = -40) by (unfold ez; lia). rewrite Hez.
      assert (Hep : ep = -39 ∨ ep = -38).
      { destruct Hple as [H|[H _]]; cbn [fst] in H; lia. }
      destruct Hep as [Hep|Hep]; rewrite Hep.
      + change (2^(-39 - -40)) with 2. lia.
      + change (2^(-38 - -40)) with 4.
        destruct Hple as [H|[_ H]]; cbn [fst snd] in H; lia. }
  pose proof (round53_mono (5497558138880000 * 2^t) S ltac:(lia) HSlo) as Hlo.
  pose proof (round53_mono S _ HS0 HShi) as Hhi.
  rewrite round53_scale in Hlo, Hhi by lia.
  change (round53 5497558138880000) with (0, 5497558138880000) in Hlo.
  change (round53 4810363371520000) with (0, 4810363371520000) in Hhi.
  cbn [fst snd] in Hlo, Hhi.
  pose proof (round53_mantissa S HS0) as MS.
  change F64.c35000 with (S754_finite false 4810363371520000 (-37)).
  split; apply SFleb_finite_pos; rewrite ?Z2Pos.id by lia;
    unfold lex_le in *; cbn [fst snd] in *; unfold t in *; lia.
Qed.

(** *** The classes of the largest sum and of a sum of zero *)

Lemma SFltb_finite_pos m1 e1 m2 e2 :
  e1 < e2 ∨ (e1 = e2 ∧ Zpos m1 < Zpos m2) →
  SFltb (S754_finite false m1 e1) (S754_finite false m2 e2) = true.
Proof.
  unfold SFltb, SFcompare.
  change (Pos.compare_cont Eq) with Pos.compare.
  intros H; cases_compare; try reflexivity; lia.
Qed.

Lemma rne_cases q rem P : rne q rem P = q ∨ rne q rem P = q + 1.
Proof. unfold rne. destruct (_ || _); auto. Qed.

(** The product of a float by 0.7 is below that float. *)
Lemma mul_c0_7_lt m e :
  normal m e → - 100 ≤ e ≤ 100 →
  SFltb (F64.mul (S754_finite false m e) F64.c0_7) (S754_finite false m e) = true.
Proof.
  intros Hn He. pose proof (normal_bounds _ _ Hn) as Bm.
  change F64.c0_7 with (S754_finite false 6305039478318694 (-53)).
  assert (N7 : normal 6305039478318694 (-53)) by (split; [reflexivity|lia]).
  rewrite (mul_normal m e _ _ Hn N7) by lia.
  pose proof (digits_product m 6305039478318694 Bm ltac:(lia)) as DP.
  set (P := Zpos m * 6305039478318694).
  assert (HP0 : 0 < P) by (unfold P; lia).
  assert (EDP : Zdigits2 P = Zpos (digits2_pos (m * 6305039478318694))).
  { unfold P. rewrite <- Pos2Z.inj_mul. reflexivity. }
  pose proof (round53_mantissa P HP0) as MP.
  apply SFltb_finite_pos. rewrite Z2Pos.id by lia.
  revert MP. unfold round53. rewrite EDP.
  set (d := Zpos (digits2_pos (m * 6305039478318694))) in *.
  rewrite (proj2 (Z.leb_gt d 53)) by lia. cbv zeta.
  assert (HK : 0 < 2^(d - 53)) by (apply Z.pow_pos_nonneg; lia).
  pose proof (Z.div_mod P (2^(d - 53)) ltac:(lia)) as Hdm.
  pose proof (Z.mod_pos_bound P (2^(d - 53)) HK) as Hrem.
  set (q := P / 2^(d - 53)) in *. set (rem := P mod 2^(d - 53)) in *.
  assert (Hq : q * 2^(d - 53) ≤ P) by lia.
  destruct (rne_cases q rem (2^(d - 53))) as [-> | ->].
  - destruct (Z.eqb_spec q (2^53)); cbn [fst snd]; intros MP.
    + exfalso.
      destruct (Z.eq_dec d 105) as [E|E].
      * rewrite E in *. change (2^(105 - 53)) with (2^52) in *. unfold P in *. lia.
      * assert (E' : d = 106) by lia. rewrite E' in *.
        change (2^(106 - 53)) with (2^53) in *. unfold P in *. lia.
    + destruct (Z.eq_dec d 105) as [E|E]; [left; lia|].
      assert (E' : d = 106) by lia. right. split; [lia|].
      rewrite E' in *. change (2^(106 - 53)) with (2^53) in *. unfold P in *. lia.
  - destruct (Z.eqb_spec (q + 1) (2^53)); cbn [fst snd]; intros MP.
    + destruct (Z.eq_dec d 105) as [E|E].
      * right. split; [lia|]. rewrite E in *.
        change (2^(105 - 53)) with (2^52) in *. unfold P in *. lia.
      * exfalso. assert (E' : d = 106) by lia. rewrite E' in *.
        change (2^(106 - 53)) with (2^53) in *. unfold P in *. lia.
    + destruct (Z.eq_dec d 105) as [E|E]; [left; lia|].
      assert (E' : d = 106) by lia. right. split; [lia|].
      rewrite E' in *. change (2^(106 - 53)) with (2^53) in *. unfold P in *. lia.
Qed.

(** The largest sum is in the first class, a sum of zero in the last. *)
Lemma intensidade_max M : 0 < M < 2^64 → intensidade M M = MuitoAlta.
Proof.
  intros HM. unfold intensidade. cbv zeta.
  destruct (of_int_normal M HM) as (m & e & -> & Nm & Rm).
  pose proof (round53_exp M ltac:(lia)) as Xe. rewrite <- Rm in Xe. cbn [fst] in Xe.
  pose proof (Zdigits2_le_64 M ltac:(lia)) as DM.
  pose proof (Zdigits2_bounds M ltac:(lia)) as (DM0 & _).
  unfold F64.gtb. rewrite mul_c0_7_lt by (assumption || lia). reflexivity.
Qed.

Lemma bra_not_lt_zero m e l b :
  SFltb (binary_round_aux prec emax false m e l) (S754_zero b) = false.
Proof.
  unfold binary_round_aux.
  destruct (shr_fexp prec emax m e l) as [mrs e'].
  destruct (shr_fexp prec emax _ e' loc_Exact) as [mrs' e''].
  destruct (shr_m mrs'); [reflexivity| |reflexivity].
  destruct (_ <=? _); reflexivity.
Qed.

Lemma intensidade_zero M : 0 < M < 2^64 → intensidade 0 M = Baixa.
Proof.
  intros HM. unfold intensidade. cbv zeta.
  destruct (of_int_normal M HM) as (m & e & -> & _ & _).
  change (F64.of_int 0) with (S754_zero false).
  unfold F64.gtb, F64.mul, SFmul, F64.c0_7, F64.c0_4, F64.c0_2. cbn [xorb].
  rewrite !bra_not_lt_zero. reflexivity.
Qed.

End F64Facts.

(** ** Properties of the map *)

Section Propriedades.
Import Pandas Folium.
Variables str_upper str_strip : string → string.
Variable COORDENADAS_MUNICIPIOS : gmap string Coord.
Variable sort_values : list (string * Z) → list (string * Z).
Hypothesis sort_values_perm : ∀ l, sort_values l ≡ₚ l.

#[local] Abbreviation criar :=
  (criar_mapa_calor str_upper str_strip COORDENADAS_MUNICIPIOS sort_values).
#[local] Abbreviation marca := (marcador str_upper str_strip COORDENADAS_MUNICIPIOS).
#[local] Abbreviation coords_de := (resolve str_upper str_strip COORDENADAS_MUNICIPIOS).
#[local] Abbreviation desenhado := (desenho str_upper str_strip COORDENADAS_MUNICIPIOS).
#[local] Abbreviation agregado df cm cv ano mes n :=
  (agregar sort_values (filtrar df ano mes) cm cv n).

Lemma filtrar_columns df ano mes : columns (filtrar df ano mes) = columns df.
Proof.
  unfold filtrar. destruct ano, mes; repeat case_bool_decide; reflexivity.
Qed.

Lemma foldl_desenhar M l : ∀ m,
  foldl (desenhar str_upper str_strip COORDENADAS_MUNICIPIOS M) m l
  = mkMap (map_location m) (zoom_start m) (tiles m)
      (circles m ++ omap (marca M) l) (html m).
Proof.
  induction l as [|g l IH]; intros m; simpl.
  - rewrite app_nil_r. destruct m; reflexivity.
  - rewrite IH. unfold desenhar. destruct (marca M g) as [c|]; simpl.
    + rewrite <- app_assoc. reflexivity.
    + reflexivity.
Qed.

Lemma criar_Some df cm cv ano mes top_n :
  cm ∈ columns df → cv ∈ columns df →
  criar df cm cv ano mes top_n = Some (desenhado (agregado df cm cv ano mes top_n)).
Proof.
  intros H1 H2. unfold criar_mapa_calor.
  rewrite filtrar_columns, !bool_decide_eq_true_2 by assumption. simpl.
  destruct (agregar _ _ _ _ _) as [|g l] eqn:E; [reflexivity|].
  cbn [length Nat.eqb]. rewrite foldl_desenhar. reflexivity.
Qed.

Lemma criar_inv df cm cv ano mes top_n m :
  criar df cm cv ano mes top_n = Some m →
  cm ∈ columns df ∧ cv ∈ columns df
  ∧ m = desenhado (agregado df cm cv ano mes top_n).
Proof.
  intros H.
  destruct (decide (cm ∈ columns df)) as [H1|H1];
    [destruct (decide (cv ∈ columns df)) as [H2|H2]|].
  - rewrite criar_Some in H by assumption. injection H as <-. auto.
  - unfold criar_mapa_calor in H. rewrite filtrar_columns in H.
    rewrite (bool_decide_eq_false_2 _ H2), andb_false_r in H. discriminate.
  - unfold criar_mapa_calor in H. rewrite filtrar_columns in H.
    rewrite (bool_decide_eq_false_2 _ H1) in H. discriminate.
Qed.

Lemma marca_Some M g c :
  marca M g = Some c →
  ∃ coords, coords_de g.1 = Some coords
    ∧ location c = (lat coords, lon coords)
    ∧ radius c = calc_radius g.2 M
    ∧ color c = cor (intensidade g.2 M).
Proof.
  unfold marcador, coords_de. destruct (COORDENADAS_MUNICIPIOS !! _) as [co|];
    [|discriminate].
  intros [= <-]. exists co. auto.
Qed.

Lemma marca_None M g : marca M g = None ↔ coords_de g.1 = None.
Proof.
  unfold marcador, coords_de. destruct (COORDENADAS_MUNICIPIOS !! _); split;
    (reflexivity || discriminate).
Qed.

Lemma marca_is_Some M g : is_Some (marca M g) ↔ is_Some (coords_de g.1).
Proof.
  rewrite <- !not_eq_None_Some, marca_None. reflexivity.
Qed.

(** C8. A year filter on a frame that has no column 'ANO' (a month
    filter on a frame that has no column 'MES') changes nothing: the
    records that are aggregated are those of the call without that
    filter, the result is the same, and it is a map, not an error, as
    soon as the two columns the call names are in the frame. *)
Theorem filtro_sem_coluna_noop df col_municipio col_vitimas ano mes top_n
    (a m : Z) :
  ("ANO" ∉ columns df →
     filtrar df (Some a) mes = filtrar df None mes
     ∧ criar df col_municipio col_vitimas (Some a) mes top_n
       = criar df col_municipio col_vitimas None mes top_n
     ∧ (col_municipio ∈ columns df → col_vitimas ∈ columns df →
        is_Some (criar df col_municipio col_vitimas (Some a) mes top_n)))
  ∧ ("MES" ∉ columns df →
     filtrar df ano (Some m) = filtrar df ano None
     ∧ criar df col_municipio col_vitimas ano (Some m) top_n
       = criar df col_municipio col_vitimas ano None top_n
     ∧ (col_municipio ∈ columns df → col_vitimas ∈ columns df →
        is_Some (criar df col_municipio col_vitimas ano (Some m) top_n))).
Proof.
  split; intros Habs.
  - assert (E : filtrar df (Some a) mes = filtrar df None mes).
    { unfold filtrar. rewrite (bool_decide_eq_false_2 _ Habs). reflexivity. }
    split; [exact E|]. split.
    + unfold criar_mapa_calor. rewrite E. reflexivity.
    + intros H1 H2. rewrite criar_Some by assumption. eauto.
  - assert (E : filtrar df ano (Some m) = filtrar df ano None).
    { unfold filtrar.
      destruct ano as [a'|]; [destruct (bool_decide ("ANO" ∈ columns df))|];
        cbn [columns select_eq]; rewrite (bool_decide_eq_false_2 _ Habs);
        reflexivity. }
    split; [exact E|]. split.
    + unfold criar_mapa_calor. rewrite E. reflexivity.
    + intros H1 H2. rewrite criar_Some by assumption. eauto.
Qed.

(** C1, as the code has it. When no group is left after the filters and
    the cut, the function returns the bare map: centred on
    (-8.0476, -35.8770), without circles and without any HTML child, so
    without the legend. *)
Theorem sem_grupos_mapa_base df col_municipio col_vitimas ano mes top_n :
  col_municipio ∈ columns df → col_vitimas ∈ columns df →
  agregado df col_municipio col_vitimas ano mes top_n = [] →
  ∃ m, criar df col_municipio col_vitimas ano mes top_n = Some m
       ∧ map_location m = (F64.lat_PE, F64.lon_PE)
       ∧ circles m = []
       ∧ html m = []
       ∧ legend_html ∉ html m.
Proof.
  intros H1 H2 E. exists mapa_base. rewrite criar_Some, E by assumption.
  simpl. repeat split; auto. apply not_elem_of_nil.
Qed.

(** C10. When groups are left but none of their names is in the
    coordinate table, the map has no circle and has the legend. *)
Theorem sem_coordenadas_so_legenda df col_municipio col_vitimas ano mes top_n :
  col_municipio ∈ columns df → col_vitimas ∈ columns df →
  agregado df col_municipio col_vitimas ano mes top_n ≠ [] →
  (∀ g, g ∈ agregado df col_municipio col_vitimas ano mes top_n →
        coords_de g.1 = None) →
  ∃ m, criar df col_municipio col_vitimas ano mes top_n = Some m
       ∧ circles m = []
       ∧ legend_html ∈ html m.
Proof.
  intros H1 H2 Hne Hnone. rewrite criar_Some by assumption.
  eexists; split; [reflexivity|].
  destruct (agregar _ _ _ _ _) as [|g l] eqn:E; [congruence|].
  cbn [desenhado circles html]. split; [|apply list_elem_of_singleton; reflexivity].
  set (M := Pandas.max _). clearbody M.
  assert (Hall : ∀ g', g' ∈ g :: l → marca M g' = None).
  { intros g' Hg'. apply marca_None, Hnone, Hg'. }
  clear E Hnone Hne. induction (g :: l) as [|x xs IH]; [reflexivity|].
  simpl. rewrite (Hall x) by left. apply IH. intros g' Hg'. apply Hall. by right.
Qed.

(** *** The aggregate *)

Lemma head_sublist {A} n (l : list A) : Pandas.head n l `sublist_of` l.
Proof. unfold Pandas.head. destruct (0 <=? n); apply sublist_take. Qed.

Lemma head_length {A} n (l : list A) :
  0 ≤ n → Z.of_nat (length (Pandas.head n l)) ≤ n.
Proof.
  intros Hn. unfold Pandas.head.
  rewrite (proj2 (Z.leb_le 0 n)), length_take by assumption. lia.
Qed.

Lemma groupby_sum_key key val rs k v :
  groupby_sum key val rs !! k = Some v →
  k ∈ omap (λ r, str_cells r !! key) rs.
Proof.
  induction rs as [|r rs IH]; simpl.
  - rewrite lookup_empty. discriminate.
  - unfold add_row. destruct (str_cells r !! key) as [k'|] eqn:E; [|exact IH].
    destruct (decide (k' = k)) as [->|Hne].
    + intros _. left.
    + rewrite lookup_insert_ne by assumption. intros H. right. auto.
Qed.

Lemma wrap64_range z : - 2^63 ≤ wrap64 z < 2^63.
Proof.
  unfold wrap64. pose proof (Z.mod_pos_bound (z + 2^63) (2^64) eq_refl). lia.
Qed.

Lemma wrap64_id z : - 2^63 ≤ z < 2^63 → wrap64 z = z.
Proof. intros H. unfold wrap64. rewrite Z.mod_small; lia. Qed.

Lemma groupby_sum_range key val rs k v :
  groupby_sum key val rs !! k = Some v → - 2^63 ≤ v < 2^63.
Proof.
  induction rs as [|r rs IH]; simpl.
  - rewrite lookup_empty. discriminate.
  - unfold add_row. destruct (str_cells r !! key) as [k'|]; [|exact IH].
    destruct (decide (k' = k)) as [->|Hne].
    + rewrite lookup_insert_eq. intros [= <-]. apply wrap64_range.
    + rewrite lookup_insert_ne by assumption. exact IH.
Qed.

Lemma agregar_sublist df_mapa cm cv n :
  agregar sort_values df_mapa cm cv n
  `sublist_of` sort_values (map_to_list (groupby_sum cm cv (rows df_mapa))).
Proof. apply head_sublist. Qed.

Lemma agregar_elem df_mapa cm cv n g :
  g ∈ agregar sort_values df_mapa cm cv n →
  groupby_sum cm cv (rows df_mapa) !! g.1 = Some g.2.
Proof.
  intros H. apply elem_of_map_to_list'. rewrite <- (sort_values_perm _).
  eapply elem_of_sublist; [exact H|apply agregar_sublist].
Qed.

Lemma agregar_NoDup df_mapa cm cv n :
  NoDup ((agregar sort_values df_mapa cm cv n).*1).
Proof.
  eapply sublist_NoDup; [|apply fmap_sublist, agregar_sublist].
  rewrite sort_values_perm. apply NoDup_fst_map_to_list.
Qed.

Lemma agregar_range df_mapa cm cv n g :
  g ∈ agregar sort_values df_mapa cm cv n → - 2^63 ≤ g.2 < 2^63.
Proof. intros H. eapply groupby_sum_range, agregar_elem, H. Qed.

Lemma max_spec x l :
  foldr Z.max x l ∈ x :: l ∧ ∀ y, y ∈ x :: l → y ≤ foldr Z.max x l.
Proof.
  induction l as [|z l [IHin IHle]]; simpl.
  - split; [left|]. intros y Hy. apply list_elem_of_singleton in Hy. lia.
  - split.
    + destruct (Z.max_spec z (foldr Z.max x l)) as [[_ ->]|[_ ->]].
      * apply elem_of_cons in IHin as [->|Hin]; [left|right; right; exact Hin].
      * right; left.
    + intros y Hy. apply elem_of_cons in Hy as [->|Hy].
      * specialize (IHle x ltac:(left)). lia.
      * apply elem_of_cons in Hy as [->|Hy]; [lia|].
        specialize (IHle y ltac:(right; exact Hy)). lia.
Qed.

Lemma pandas_max_spec l :
  l ≠ [] → Pandas.max l ∈ l ∧ ∀ y, y ∈ l → y ≤ Pandas.max l.
Proof. destruct l as [|x l]; [congruence|]. intros _. apply max_spec. Qed.

Lemma circles_desenho agg :
  circles (desenhado agg) = omap (marca (Pandas.max (agg.*2))) agg.
Proof. destruct agg; reflexivity. Qed.

Lemma omap_marca_length M l :
  length (omap (marca M) l)
  = length (filter (λ g : string * Z, is_Some (coords_de g.1)) l).
Proof.
  induction l as [|g l IH]; [reflexivity|].
  rewrite filter_cons. cbn [omap list_omap].
  destruct (decide (is_Some (coords_de g.1))) as [Hs|Hn].
  - apply (marca_is_Some M) in Hs as [c ->]. cbn [length]. congruence.
  - destruct (marca M g) eqn:E; [|exact IH].
    exfalso. apply Hn, (marca_is_Some M). eauto.
Qed.

(** C5. With a positive [top_n] the map has at most [top_n] circles, and
    at most as many as there are distinct municipality names in the
    filtered records whose normalised form is in the coordinate table. *)
Theorem circulos_limitados df col_municipio col_vitimas ano mes top_n :
  0 < top_n →
  col_municipio ∈ columns df → col_vitimas ∈ columns df →
  ∃ m, criar df col_municipio col_vitimas ano mes top_n = Some m
    ∧ Z.of_nat (length (circles m)) ≤ top_n
    ∧ (length (circles m)
       ≤ length (filter (λ k, is_Some (coords_de k))
                   (chaves (filtrar df ano mes) col_municipio)))%nat.
Proof.
  intros Hn H1 H2. eexists. split; [apply criar_Some; assumption|].
  rewrite circles_desenho, omap_marca_length.
  set (agg := agregar _ _ _ _ _).
  set (P := λ g : string * Z, is_Some (coords_de g.1)).
  split.
  - pose proof (length_filter P agg).
    pose proof (head_length top_n
      (sort_values (map_to_list (groupby_sum col_municipio col_vitimas
                                   (rows (filtrar df ano mes)))))
      ltac:(lia)) as Hh.
    fold (agregar sort_values (filtrar df ano mes) col_municipio col_vitimas top_n)
      in Hh. fold agg in Hh. lia.
  - rewrite <- (length_fmap fst (filter P agg)).
    apply submseteq_length, NoDup_submseteq.
    + eapply sublist_NoDup; [apply agregar_NoDup|].
      apply fmap_sublist, sublist_filter.
    + intros k Hk. apply list_elem_of_fmap in Hk as (g & -> & Hg).
      apply list_elem_of_filter in Hg as [HP Hg].
      apply list_elem_of_filter. split; [exact HP|].
      apply elem_of_remove_dups. eapply groupby_sum_key, agregar_elem, Hg.
Qed.

Lemma omap_filter_None {A B} (f : A → option B) (P : A → Prop)
    `{∀ x, Decision (P x)} (l : list A) :
  (∀ x, x ∈ l → ¬ P x → f x = None) →
  omap f l = omap f (filter P l).
Proof.
  induction l as [|x l IH]; intros Hf; [reflexivity|].
  rewrite filter_cons. cbn [omap list_omap].
  rewrite IH by (intros y Hy; apply Hf; by right).
  destruct (decide (P x)) as [HP|HP]; [reflexivity|].
  rewrite (Hf x) by (left || assumption). reflexivity.
Qed.

Lemma omap_length_le {A B} (f : A → option B) (l : list A) :
  (length (omap f l) ≤ length l)%nat.
Proof.
  induction l as [|y l IH]; [reflexivity|]. cbn [omap list_omap length].
  destruct (f y); cbn [length]; lia.
Qed.

Lemma omap_length_lt {A B} (f : A → option B) (l : list A) x :
  x ∈ l → f x = None → (length (omap f l) < length l)%nat.
Proof.
  intros Hx Hf. induction l as [|y l IH]; [inversion Hx|].
  cbn [omap list_omap length].
  pose proof (omap_length_le f l) as Hle.
  apply elem_of_cons in Hx as [<-|Hx].
  - rewrite Hf. lia.
  - specialize (IH Hx). destruct (f y); cbn [length]; lia.
Qed.

Lemma cor_intensidade v M :
  cor (intensidade v M)
  = if F64.gtb (F64.of_int v) (F64.mul (F64.of_int M) F64.c0_7) then "#8B0000"
    else if F64.gtb (F64.of_int v) (F64.mul (F64.of_int M) F64.c0_4)
    then "#DC143C"
    else if F64.gtb (F64.of_int v) (F64.mul (F64.of_int M) F64.c0_2)
    then "#FF6347"
    else "#FFA07A".
Proof. unfold intensidade. cbv zeta. repeat destruct (F64.gtb _ _); reflexivity. Qed.

(** C6. A kept group whose normalised name is not in the coordinate
    table draws no circle: the circles are the markers of the kept
    groups of the other municipalities, in their order, and there are
    fewer of them than kept groups. Its sum is nevertheless among those
    whose maximum [max_vitimas] is taken; when it is the largest it is
    that maximum. Every other kept group that has coordinates is drawn,
    with the radius and the colour computed, in binary64, from its own
    sum and that maximum; the group that holds the maximum is drawn with
    the radius 35000 and, when its sum is positive, in the colour of the
    first class. *)
Theorem grupo_sem_coordenada df col_municipio col_vitimas ano mes top_n g :
  col_municipio ∈ columns df → col_vitimas ∈ columns df →
  g ∈ agregado df col_municipio col_vitimas ano mes top_n →
  coords_de g.1 = None →
  let agg := agregado df col_municipio col_vitimas ano mes top_n in
  let max_vitimas := Pandas.max (agg.*2) in
  let raio (v : Z) :=
    F64.add
      (F64.mul (F64.div (F64.of_int v) (F64.of_int max_vitimas)) F64.c30000)
      F64.c5000 in
  let cor_de (v : Z) :=
    if F64.gtb (F64.of_int v) (F64.mul (F64.of_int max_vitimas) F64.c0_7)
    then "#8B0000"
    else if F64.gtb (F64.of_int v) (F64.mul (F64.of_int max_vitimas) F64.c0_4)
    then "#DC143C"
    else if F64.gtb (F64.of_int v) (F64.mul (F64.of_int max_vitimas) F64.c0_2)
    then "#FF6347"
    else "#FFA07A" in
  ∃ m, criar df col_municipio col_vitimas ano mes top_n = Some m
  ∧ circles m
    = omap (marca max_vitimas) (filter (λ g' : string * Z, g'.1 ≠ g.1) agg)
  ∧ (length (circles m) < length agg)%nat
  ∧ g.2 ≤ max_vitimas
  ∧ (∃ h, h ∈ agg ∧ h.2 = max_vitimas)
  ∧ ((∀ h, h ∈ agg → h.2 ≤ g.2) → max_vitimas = g.2)
  ∧ (∀ g' coords, g' ∈ agg → coords_de g'.1 = Some coords →
       ∃ c, c ∈ circles m
            ∧ location c = (lat coords, lon coords)
            ∧ radius c = raio g'.2
            ∧ color c = cor_de g'.2
            ∧ (g'.2 = max_vitimas → max_vitimas ≠ 0 → radius c = F64.c35000)
            ∧ (g'.2 = max_vitimas → 0 < max_vitimas → color c = "#8B0000"))
  ∧ (∀ c, c ∈ circles m →
       ∃ g' coords, g' ∈ agg ∧ g'.1 ≠ g.1
            ∧ coords_de g'.1 = Some coords
            ∧ location c = (lat coords, lon coords)
            ∧ radius c = raio g'.2
            ∧ color c = cor_de g'.2).
Proof.
  intros H1 H2 Hg Hnone agg M raio cor_de.
  eexists. split; [apply criar_Some; assumption|].
  fold agg. rewrite circles_desenho. fold M.
  assert (Hne : agg.*2 ≠ []).
  { intros E. apply fmap_nil_inv in E. unfold agg in E. rewrite E in Hg.
    inversion Hg. }
  destruct (pandas_max_spec _ Hne) as [Hin Hle]. fold M in Hin, Hle.
  assert (HgM : g.2 ≤ M) by (apply Hle, list_elem_of_fmap; eauto).
  split; [|split; [|split; [|split; [|split; [|split]]]]].
  - apply omap_filter_None. intros g' _ Hg'.
    apply marca_None. destruct (decide (g'.1 = g.1)) as [->|]; [exact Hnone|].
    contradiction.
  - apply (omap_length_lt _ _ g); [exact Hg|]. apply marca_None, Hnone.
  - exact HgM.
  - apply list_elem_of_fmap in Hin as (h & E & Hh). eauto.
  - intros Hall. apply list_elem_of_fmap in Hin as (h & E & Hh).
    specialize (Hall h Hh). lia.
  - intros g' co Hg' Hco.
    destruct (proj2 (marca_is_Some M g')) as [c Hc]; [eauto|].
    exists c. split; [apply list_elem_of_omap; eauto|].
    apply marca_Some in Hc as (co' & Hco' & Hloc & Hr & Hcol).
    rewrite Hco in Hco'. injection Hco' as <-.
    split; [exact Hloc|]. split; [exact Hr|].
    split; [rewrite Hcol; apply cor_intensidade|].
    pose proof (agregar_range _ _ _ _ _ Hg') as Hrange.
    split.
    + intros E HM. rewrite Hr, E. apply F64Facts.calc_radius_max; [|exact HM].
      rewrite E in Hrange. lia.
    + intros E HM. rewrite Hcol, E, F64Facts.intensidade_max; [reflexivity|].
      rewrite E in Hrange. lia.
  - intros c Hc. apply list_elem_of_omap in Hc as (g' & Hg' & Hm).
    apply marca_Some in Hm as (co & Hco & Hloc & Hr & Hcol).
    exists g', co. split; [exact Hg'|]. split.
    { intros E. rewrite E, Hnone in Hco. discriminate. }
    split; [exact Hco|]. split; [exact Hloc|]. split; [exact Hr|].
    rewrite Hcol. apply cor_intensidade.
Qed.

(** C7. Every kept group whose name is in the coordinate table has a
    circle at its coordinates, and the map has no other circle. The
    radius is the binary64 value of
    [(vitimas / max_vitimas) * 30000 + 5000], the quotient, the product
    and the sum each rounded to the nearest float, where [max_vitimas]
    is the largest sum among the kept groups. For a sum that is not
    negative, with a positive [max_vitimas], it lies between 5000 and
    35000; it is 35000 for the group whose sum is [max_vitimas] and 5000
    for a group whose sum is zero, when [max_vitimas] is not zero. *)
Theorem raio_linear df col_municipio col_vitimas ano mes top_n :
  col_municipio ∈ columns df → col_vitimas ∈ columns df →
  let agg := agregado df col_municipio col_vitimas ano mes top_n in
  let max_vitimas := Pandas.max (agg.*2) in
  let raio (v : Z) :=
    F64.add
      (F64.mul (F64.div (F64.of_int v) (F64.of_int max_vitimas)) F64.c30000)
      F64.c5000 in
  ∃ m, criar df col_municipio col_vitimas ano mes top_n = Some m
  ∧ (∀ g coords, g ∈ agg → coords_de g.1 = Some coords →
     ∃ c, c ∈ circles m
          ∧ location c = (lat coords, lon coords)
          ∧ radius c = raio g.2)
  ∧ (∀ c, c ∈ circles m →
     ∃ g coords, g ∈ agg ∧ coords_de g.1 = Some coords
          ∧ location c = (lat coords, lon coords)
          ∧ radius c = raio g.2
          ∧ (0 ≤ g.2 → 0 < max_vitimas →
             F64.leb F64.c5000 (radius c) = true
             ∧ F64.leb (radius c) F64.c35000 = true)
          ∧ (max_vitimas ≠ 0 → g.2 = max_vitimas → radius c = F64.c35000)
          ∧ (max_vitimas ≠ 0 → g.2 = 0 → radius c = F64.c5000))
  ∧ (agg ≠ [] → (∃ h, h ∈ agg ∧ h.2 = max_vitimas)
                ∧ ∀ g, g ∈ agg → g.2 ≤ max_vitimas).
Proof.
  intros H1 H2 agg M raio. eexists. split; [apply criar_Some; assumption|].
  fold agg. rewrite circles_desenho. fold M.
  split; [|split].
  - intros g co Hg Hco.
    destruct (proj2 (marca_is_Some M g)) as [c Hc]; [eauto|].
    exists c. split; [apply list_elem_of_omap; eauto|].
    apply marca_Some in Hc as (co' & Hco' & Hloc & Hr & _).
    rewrite Hco in Hco'. injection Hco' as <-. auto.
  - intros c Hc. apply list_elem_of_omap in Hc as (g & Hg & Hm).
    apply marca_Some in Hm as (co & Hco & Hloc & Hr & _).
    exists g, co. split; [exact Hg|]. split; [exact Hco|].
    split; [exact Hloc|]. split; [exact Hr|].
    assert (HM : - 2^63 ≤ M < 2^63 ∧ g.2 ≤ M).
    { assert (Hne : agg.*2 ≠ []).
      { intros E. apply fmap_nil_inv in E. rewrite E in Hg. inversion Hg. }
      destruct (pandas_max_spec _ Hne) as [Hin Hle]. fold M in Hin, Hle.
      split; [|apply Hle, list_elem_of_fmap; eauto].
      apply list_elem_of_fmap in Hin as (h & -> & Hh).
      apply (agregar_range _ _ _ _ _ Hh). }
    destruct HM as [HM HgM].
    split; [|split].
    + intros Hg0 HM0. rewrite Hr. unfold F64.leb.
      apply F64Facts.calc_radius_bounds; lia.
    + intros HM0 E. rewrite Hr, E. apply F64Facts.calc_radius_max; [lia|assumption].
    + intros HM0 E. rewrite Hr, E.
      apply F64Facts.calc_radius_zero; [lia|assumption].
  - intros Hne.
    assert (Hne' : agg.*2 ≠ []).
    { intros E. apply fmap_nil_inv in E. contradiction. }
    destruct (pandas_max_spec _ Hne') as [Hin Hle]. fold M in Hin, Hle. split.
    + apply list_elem_of_fmap in Hin as (h & E & Hh). eauto.
    + intros g Hg. apply Hle, list_elem_of_fmap. eauto.
Qed.

(** *** Positive counts *)

Lemma groupby_sum_pos key val rs :
  (∀ r, r ∈ rs → 0 < valor val r) →
  soma_total val rs < 2^63 →
  ∀ k v, groupby_sum key val rs !! k = Some v → 0 < v ≤ soma_total val rs.
Proof.
  induction rs as [|r rs IH]; intros Hpos Hsum k v; simpl.
  - rewrite lookup_empty. discriminate.
  - assert (Hr : 0 < valor val r) by (apply Hpos; left).
    assert (Hpos' : ∀ r', r' ∈ rs → 0 < valor val r')
      by (intros r' Hr'; apply Hpos; right; exact Hr').
    simpl in Hsum. specialize (IH Hpos' ltac:(lia)).
    unfold add_row. fold (valor val r).
    destruct (str_cells r !! key) as [k'|].
    + assert (Hacc : 0 ≤ default 0 (groupby_sum key val rs !! k')
                     ≤ soma_total val rs).
      { destruct (groupby_sum key val rs !! k') as [v'|] eqn:E; simpl.
        - specialize (IH _ _ E). lia.
        - assert (0 ≤ soma_total val rs); [|lia].
          clear -Hpos'. induction rs as [|x xs IHx]; simpl; [lia|].
          assert (0 < valor val x) by (apply Hpos'; left).
          assert (0 ≤ soma_total val xs); [|lia].
          apply IHx. intros r' Hr'. apply Hpos'. right. exact Hr'. }
      destruct (decide (k' = k)) as [->|Hne].
      * rewrite lookup_insert_eq. intros [= <-]. rewrite wrap64_id; lia.
      * rewrite lookup_insert_ne by assumption. intros E.
        specialize (IH _ _ E). lia.
    + intros E. specialize (IH _ _ E). lia.
Qed.

(** C3, as the code has it. Nothing in the function excludes a group
    whose sum is zero; what holds is that when every record left by the
    filters carries a strictly positive count, and the counts add up
    within [int64], every kept group has a strictly positive sum and
    [max_vitimas], the divisor of the radius, is strictly positive. *)
Theorem somas_positivas df col_municipio col_vitimas ano mes top_n :
  (∀ r, r ∈ rows (filtrar df ano mes) → 0 < valor col_vitimas r) →
  soma_total col_vitimas (rows (filtrar df ano mes)) < 2^63 →
  let agg := agregado df col_municipio col_vitimas ano mes top_n in
  (∀ g, g ∈ agg → 0 < g.2)
  ∧ (agg ≠ [] →
     0 < Pandas.max (agg.*2)
     ∧ F64.is_zero (F64.of_int (Pandas.max (agg.*2))) = false).
Proof.
  intros Hpos Hsum agg.
  assert (Hall : ∀ g, g ∈ agg → 0 < g.2).
  { intros g Hg. apply agregar_elem in Hg.
    apply (groupby_sum_pos _ _ _ Hpos Hsum) in Hg. lia. }
  split; [exact Hall|]. intros Hne.
  assert (Hne' : agg.*2 ≠ []).
  { intros E. apply fmap_nil_inv in E. contradiction. }
  destruct (pandas_max_spec _ Hne') as [Hin _].
  apply list_elem_of_fmap in Hin as (h & E & Hh).
  pose proof (Hall h Hh). pose proof (agregar_range _ _ _ _ _ Hh).
  split; [lia|]. apply F64Facts.of_int_nonzero; lia.
Qed.

(** *** Classes of intensity *)

Lemma intensidade_mono b a M :
  - 2^64 < b → b ≤ a → a < 2^64 →
  (nivel (intensidade b M) ≤ nivel (intensidade a M))%nat.
Proof.
  intros Hlo Hba Hhi. unfold intensidade.
  pose proof (λ t, F64Facts.gtb_of_int_mono t b a Hlo Hba Hhi) as Hmono.
  destruct (F64.gtb (F64.of_int b) (F64.mul (F64.of_int M) F64.c0_7)) eqn:E7.
  { rewrite (Hmono _ E7). reflexivity. }
  destruct (F64.gtb (F64.of_int b) (F64.mul (F64.of_int M) F64.c0_4)) eqn:E4.
  { rewrite (Hmono _ E4). destruct (F64.gtb (F64.of_int a) _); simpl; lia. }
  destruct (F64.gtb (F64.of_int b) (F64.mul (F64.of_int M) F64.c0_2)) eqn:E2.
  { rewrite (Hmono _ E2).
    repeat destruct (F64.gtb (F64.of_int a) _); simpl; lia. }
  simpl. lia.
Qed.

(** C9. Of two kept groups that both have a circle, the one with the
    strictly larger sum has a colour of a class that is not lower
    (Baixa < Média < Alta < Muito Alta). *)
Theorem intensidade_monotona df col_municipio col_vitimas ano mes top_n
    gA gB cA cB :
  col_municipio ∈ columns df → col_vitimas ∈ columns df →
  let agg := agregado df col_municipio col_vitimas ano mes top_n in
  let max_vitimas := Pandas.max (agg.*2) in
  gA ∈ agg → gB ∈ agg →
  marca max_vitimas gA = Some cA → marca max_vitimas gB = Some cB →
  gB.2 < gA.2 →
  ∃ m, criar df col_municipio col_vitimas ano mes top_n = Some m
  ∧ cA ∈ circles m ∧ cB ∈ circles m
  ∧ color cA = cor (intensidade gA.2 max_vitimas)
  ∧ color cB = cor (intensidade gB.2 max_vitimas)
  ∧ (nivel (intensidade gB.2 max_vitimas)
     ≤ nivel (intensidade gA.2 max_vitimas))%nat.
Proof.
  intros H1 H2 agg M HA HB HcA HcB Hlt.
  eexists. split; [apply criar_Some; assumption|].
  fold agg. rewrite circles_desenho. fold M.
  pose proof (agregar_range _ _ _ _ _ HA) as RA.
  pose proof (agregar_range _ _ _ _ _ HB) as RB.
  split; [apply list_elem_of_omap; eauto|].
  split; [apply list_elem_of_omap; eauto|].
  apply marca_Some in HcA as (_ & _ & _ & _ & ->).
  apply marca_Some in HcB as (_ & _ & _ & _ & ->).
  split; [reflexivity|]. split; [reflexivity|].
  apply intensidade_mono; lia.
Qed.

(** *** The scenario of three municipalities *)

Hypothesis sort_values_desc :
  ∀ l, Sorted (λ a b : string * Z, b.2 ≤ a.2) (sort_values l).

Lemma sort_values_three (a b c : string * Z) l :
  l ≡ₚ [a; b; c] → c.2 < b.2 → b.2 < a.2 → sort_values l = [a; b; c].
Proof.
  intros Hl Hcb Hba.
  pose proof (sort_values_desc l) as Hs.
  assert (Hp : sort_values l ≡ₚ [a; b; c])
    by (etrans; [apply sort_values_perm|exact Hl]).
  pose proof (Permutation_length Hp) as Hlen.
  destruct (sort_values l) as [|x [|y [|z [|? ?]]]]; try discriminate.
  assert (Hx : x ∈ [a; b; c]) by (rewrite <- Hp; left).
  assert (Hy : y ∈ [a; b; c]) by (rewrite <- Hp; right; left).
  assert (Hz : z ∈ [a; b; c]) by (rewrite <- Hp; right; right; left).
  assert (Hnd : NoDup [x; y; z]).
  { rewrite Hp. repeat constructor; rewrite ?elem_of_cons, ?elem_of_nil;
      intros H; repeat destruct H as [H|H]; try subst; try lia; auto. }
  apply Sorted_inv in Hs as [Hs Hxy]. apply Sorted_inv in Hs as [_ Hyz].
  apply HdRel_inv in Hxy, Hyz.
  apply NoDup_cons in Hnd as [Hx' Hnd]. apply NoDup_cons in Hnd as [Hy' _].
  rewrite !not_elem_of_cons in Hx', Hy'.
  repeat (apply elem_of_cons in Hx as [->|Hx]);
    [..|apply elem_of_nil in Hx; destruct Hx];
    (repeat (apply elem_of_cons in Hy as [->|Hy]);
     [..|apply elem_of_nil in Hy; destruct Hy]);
    (repeat (apply elem_of_cons in Hz as [->|Hz]);
     [..|apply elem_of_nil in Hz; destruct Hz]);
    try reflexivity; try lia; exfalso; tauto.
Qed.

(** C4. Records RECIFE 100, OLINDA 40 and ATLANTIS 10 with [top_n = 3],
    where RECIFE and OLINDA are in the coordinate table and ATLANTIS is
    not: the map has exactly two circles, that of RECIFE in the colour of
    the class "Muito Alta" and that of OLINDA, whose sum is not greater
    than 0.4 times the maximum, in the colour of the class "Média". *)
Theorem cenario_tres_municipios cR cO :
  coords_de "RECIFE" = Some cR →
  coords_de "OLINDA" = Some cO →
  coords_de "ATLANTIS" = None →
  ∃ m c1 c2,
    criar (frame [linha "RECIFE" 100; linha "OLINDA" 40; linha "ATLANTIS" 10])
      "MUNICIPIO" "TOTAL" None None 3 = Some m
    ∧ circles m = [c1; c2]
    ∧ tooltip c1 = "RECIFE: 100" ∧ location c1 = (lat cR, lon cR)
    ∧ color c1 = cor MuitoAlta ∧ intensidade 100 100 = MuitoAlta
    ∧ tooltip c2 = "OLINDA: 40" ∧ location c2 = (lat cO, lon cO)
    ∧ color c2 = cor Media ∧ intensidade 40 100 = Media
    ∧ legend_html ∈ html m.
Proof.
  intros HR HO HA.
  rewrite criar_Some
    by (unfold frame; cbn [columns]; rewrite !elem_of_cons; auto).
  assert (E : agregado
                (frame [linha "RECIFE" 100; linha "OLINDA" 40; linha "ATLANTIS" 10])
                "MUNICIPIO" "TOTAL" None None 3
              = [("RECIFE", 100); ("OLINDA", 40); ("ATLANTIS", 10)]).
  { unfold agregar.
    rewrite (sort_values_three ("RECIFE", 100) ("OLINDA", 40) ("ATLANTIS", 10));
      [reflexivity| |simpl; lia|simpl; lia].
    apply NoDup_Permutation.
    - apply NoDup_map_to_list.
    - repeat constructor; rewrite ?elem_of_cons, ?elem_of_nil;
        intros H; repeat destruct H as [H|H]; try discriminate; auto.
    - intros [k v]. rewrite elem_of_map_to_list.
      rewrite !elem_of_cons, elem_of_nil.
      split.
      + intros H.
        assert (Hk : k ∈ ["RECIFE"; "OLINDA"; "ATLANTIS"]).
        { apply groupby_sum_key in H. vm_compute in H. exact H. }
        rewrite !elem_of_cons, elem_of_nil in Hk.
        destruct Hk as [->|[->|[->|[]]]]; vm_compute in H;
          injection H as <-; auto.
      + intros [[= -> ->]|[[= -> ->]|[[= -> ->]|[]]]]; vm_compute; reflexivity. }
  rewrite E. unfold desenhado.
  change (Pandas.max _) with 100.
  cbn [omap list_omap]. unfold marcador at 1 2 3. cbn [fst snd].
  fold (coords_de "RECIFE"). fold (coords_de "OLINDA"). fold (coords_de "ATLANTIS").
  rewrite HR, HO, HA.
  eexists _, _, _. split; [reflexivity|]. cbn [circles html].
  split; [reflexivity|].
  assert (H1 : intensidade 100 100 = MuitoAlta) by (vm_compute; reflexivity).
  assert (H2 : intensidade 40 100 = Media) by (vm_compute; reflexivity).
  cbn [tooltip location color]. rewrite H1, H2.
  repeat split; try (vm_compute; reflexivity).
  apply list_elem_of_singleton. reflexivity.
Qed.

End Propriedades.

(** ** The function at work *)

#[local] Instance by_sum_desc_total : Total by_sum_desc.
Proof. intros a b. unfold by_sum_desc. lia. Qed.

Lemma sort_desc_perm l : sort_desc l ≡ₚ l.
Proof. apply merge_sort_Permutation. Qed.

Lemma sort_desc_sorted l :
  Sorted (λ a b : string * Z, b.2 ≤ a.2) (sort_desc l).
Proof. apply (Sorted_merge_sort by_sum_desc). Qed.

Lemma filtro_sem_coluna_noop_witness :
  run tres_municipios (Some 2023) None 5 = run tres_municipios None None 5
  ∧ run tres_municipios None (Some 7) 5 = run tres_municipios None None 5.
Proof.
  pose proof (filtro_sem_coluna_noop
      Py.ascii_upper Py.ascii_strip coordenadas_exemplo sort_desc
                tres_municipios "MUNICIPIO" "TOTAL" None None 5 2023 7)
    as [HA HM].
  split.
  - apply HA. compute_done.
  - apply HM. compute_done.
Defined.

Lemma sem_grupos_mapa_base_witness :
  ∃ m, run (frame []) None None 20 = Some m
       ∧ Folium.circles m = [] ∧ Folium.html m = [].
Proof.
  destruct (sem_grupos_mapa_base
      Py.ascii_upper Py.ascii_strip coordenadas_exemplo sort_desc (frame [])
              "MUNICIPIO" "TOTAL" None None 20)
    as (m & Hm & _ & Hc & Hh & _).
  - compute_done.
  - compute_done.
  - vm_compute. reflexivity.
  - exists m. auto.
Defined.

(** C1, as it is specified, fails on the frame without records: the
    call returns the bare map, which has no legend. *)
Lemma legenda_ausente_sem_grupos :
  agregar sort_desc (filtrar (frame []) None None) "MUNICIPIO" "TOTAL" 20 = []
  ∧ run (frame []) None None 20 = Some mapa_base
  ∧ legend_html ∉ Folium.html mapa_base.
Proof.
  split; [vm_compute; reflexivity|]. split; [vm_compute; reflexivity|].
  apply not_elem_of_nil.
Qed.

Lemma sem_coordenadas_so_legenda_witness :
  ∃ m, run (frame [linha "ATLANTIS" 10; linha "ELDORADO" 3]) None None 20 = Some m
       ∧ Folium.circles m = []
       ∧ legend_html ∈ Folium.html m.
Proof.
  apply (sem_coordenadas_so_legenda
      Py.ascii_upper Py.ascii_strip coordenadas_exemplo sort_desc
           (frame [linha "ATLANTIS" 10; linha "ELDORADO" 3])
           "MUNICIPIO" "TOTAL" None None 20).
  - compute_done.
  - compute_done.
  - vm_compute. discriminate.
  - apply Forall_forall. compute_done.
Defined.

Lemma circulos_limitados_witness :
  ∃ m, run tres_municipios None None 3 = Some m
       ∧ Z.of_nat (length (Folium.circles m)) ≤ 3
       ∧ (length (Folium.circles m) ≤ 2)%nat.
Proof.
  apply (circulos_limitados
      Py.ascii_upper Py.ascii_strip coordenadas_exemplo sort_desc sort_desc_perm
           tres_municipios "MUNICIPIO" "TOTAL" None None 3).
  - lia.
  - compute_done.
  - compute_done.
Defined.

Lemma grupo_sem_coordenada_witness :
  ∃ m c, run atlantis_no_topo None None 3 = Some m
    ∧ (length (Folium.circles m) < 3)%nat
    ∧ Pandas.max ((agregar sort_desc (filtrar atlantis_no_topo None None)
                     "MUNICIPIO" "TOTAL" 3).*2) = 100
    ∧ c ∈ Folium.circles m
    ∧ Folium.radius c = Prim2SF 17000%float
    ∧ Folium.color c = "#FF6347".
Proof.
  destruct (grupo_sem_coordenada
      Py.ascii_upper Py.ascii_strip coordenadas_exemplo sort_desc
              sort_desc_perm atlantis_no_topo "MUNICIPIO" "TOTAL" None None 3
              ("ATLANTIS", 100))
    as (m & Hm & _ & Hlen & _ & _ & Hmax & Hdraw & _).
  - compute_done.
  - compute_done.
  - compute_done.
  - vm_compute. reflexivity.
  - destruct (Hdraw ("RECIFE", 40)
                (mkCoord (Prim2SF (-8.0476)%float) (Prim2SF (-34.8770)%float)))
      as (c & Hc & _ & Hr & Hcol & _).
    + compute_done.
    + vm_compute. reflexivity.
    + exists m, c. split; [exact Hm|]. split; [exact Hlen|].
      split; [apply Hmax; apply Forall_forall; compute_done|].
      split; [exact Hc|]. split.
      * rewrite Hr. vm_compute. reflexivity.
      * rewrite Hcol. vm_compute. reflexivity.
Defined.

Lemma raio_linear_witness :
  ∃ m c, run tres_municipios None None 3 = Some m
         ∧ c ∈ Folium.circles m
         ∧ Folium.radius c
           = F64.add (F64.mul (F64.div (F64.of_int 40) (F64.of_int 100))
                        F64.c30000) F64.c5000
         ∧ Folium.radius c = Prim2SF 17000%float.
Proof.
  destruct (raio_linear
      Py.ascii_upper Py.ascii_strip coordenadas_exemplo sort_desc
              sort_desc_perm tres_municipios "MUNICIPIO" "TOTAL" None None 3)
    as (m & Hm & Hall & _ & _).
  - compute_done.
  - compute_done.
  - destruct (Hall ("OLINDA", 40)
                (mkCoord (Prim2SF (-8.0089)%float) (Prim2SF (-34.8553)%float)))
      as (c & Hc & _ & Hr).
    + compute_done.
    + vm_compute. reflexivity.
    + exists m, c. split; [exact Hm|]. split; [exact Hc|].
      split; [exact Hr|]. rewrite Hr. vm_compute. reflexivity.
Defined.

(** C7, as it is specified, fails at sums in the ratio 3 to 7: the
    radius the code computes is the float 17857.142857142855, that is
    [4908534052571428 / 2^38]; the number (3 / 7) * 30000 + 5000 is
    125000 / 7, which is no float, and the float nearest to it is the
    next one. The three roundings add up. *)
Lemma raio_tres_de_sete :
  (Folium.radius <$>
     (from_option Folium.circles [] (run tres_de_sete None None 20)))
  = [F64.c35000; S754_finite false 4908534052571428 (-38)]
  ∧ calc_radius 3 7 = S754_finite false 4908534052571428 (-38)
  ∧ SF2Prim (calc_radius 3 7) = 17857.142857142855%float
  ∧ 7 * 4908534052571428 ≠ 125000 * 2^38
  ∧ Z.abs (7 * 4908534052571429 - 125000 * 2^38)
    < Z.abs (7 * 4908534052571428 - 125000 * 2^38).
Proof.
  split; [vm_compute; reflexivity|]. split; [vm_compute; reflexivity|].
  split; [vm_compute; reflexivity|]. split; [vm_compute; discriminate|].
  vm_compute. reflexivity.
Qed.

Lemma somas_positivas_witness :
  0 < Pandas.max
        ((agregar sort_desc (filtrar tres_municipios None None)
            "MUNICIPIO" "TOTAL" 3).*2)
  ∧ F64.is_zero
      (F64.of_int
         (Pandas.max
            ((agregar sort_desc (filtrar tres_municipios None None)
                "MUNICIPIO" "TOTAL" 3).*2))) = false.
Proof.
  destruct (somas_positivas sort_desc sort_desc_perm tres_municipios
              "MUNICIPIO" "TOTAL" None None 3) as [_ H].
  - apply Forall_forall. compute_done.
  - vm_compute. reflexivity.
  - apply H. vm_compute. discriminate.
Defined.

(** C3, as it is specified, fails on a record whose count is zero:
    the group is kept, [max_vitimas] is zero and the radius divides zero
    by zero. *)
Lemma max_vitimas_zero :
  agregar sort_desc (filtrar (frame [linha "RECIFE" 0]) None None)
    "MUNICIPIO" "TOTAL" 20 = [("RECIFE", 0)]
  ∧ Pandas.max ([("RECIFE", 0)].*2) = 0
  ∧ F64.is_zero (F64.of_int 0) = true
  ∧ F64.div (F64.of_int 0) (F64.of_int 0) = S754_nan
  ∧ (Folium.radius <$>
       (from_option Folium.circles []
          (run (frame [linha "RECIFE" 0]) None None 20))) = [S754_nan].
Proof. repeat split; vm_compute; reflexivity. Qed.

Lemma cenario_tres_municipios_witness :
  ∃ m, run tres_municipios None None 3 = Some m
       ∧ (Folium.color <$> Folium.circles m) = ["#8B0000"; "#FF6347"].
Proof.
  destruct (cenario_tres_municipios
      Py.ascii_upper Py.ascii_strip coordenadas_exemplo sort_desc
              sort_desc_perm sort_desc_sorted
              (mkCoord (Prim2SF (-8.0476)%float) (Prim2SF (-34.8770)%float))
              (mkCoord (Prim2SF (-8.0089)%float) (Prim2SF (-34.8553)%float)))
    as (m & c1 & c2 & Hm & Hc & _ & _ & H1 & _ & _ & _ & H2 & _).
  - vm_compute. reflexivity.
  - vm_compute. reflexivity.
  - vm_compute. reflexivity.
  - exists m. split; [exact Hm|]. rewrite Hc. cbn [fmap list_fmap].
    rewrite H1, H2. reflexivity.
Defined.

Lemma intensidade_monotona_witness :
  (nivel (intensidade 40 100) ≤ nivel (intensidade 100 100))%nat.
Proof.
  destruct (marcador
      Py.ascii_upper Py.ascii_strip coordenadas_exemplo
      100 ("RECIFE", 100)) as [cA|] eqn:EA;
    [|vm_compute in EA; discriminate].
  destruct (marcador
      Py.ascii_upper Py.ascii_strip coordenadas_exemplo
      100 ("OLINDA", 40)) as [cB|] eqn:EB;
    [|vm_compute in EB; discriminate].
  destruct (intensidade_monotona
      Py.ascii_upper Py.ascii_strip coordenadas_exemplo sort_desc sort_desc_perm
              tres_municipios "MUNICIPIO" "TOTAL" None None 3
              ("RECIFE", 100) ("OLINDA", 40) cA cB)
    as (m & _ & _ & _ & _ & _ & Hle).
  - compute_done.
  - compute_done.
  - compute_done.
  - compute_done.
  - exact EA.
  - exact EB.
  - simpl. lia.
  - exact Hle.
Defined.

(** C2. Sums 63 and 90 are in the ratio 0.70 exactly, and the quotient
    the radius is computed from is the float 0.7 itself; but the
    product [90 * 0.7] is rounded to 62.99999999999999, below 63, so the
    comparison [63 > 90 * 0.7] holds and the circle gets the colour of
    "Muito Alta". At 7 of 10, 40 of 100 and 20 of 100 the products are
    exact and the sums fall in the lower class. *)
Theorem limiar_070_arredondado :
  63 * 10 = 7 * 90
  ∧ F64.div (F64.of_int 63) (F64.of_int 90) = F64.c0_7
  ∧ SF2Prim (F64.mul (F64.of_int 90) F64.c0_7) = 62.99999999999999%float
  ∧ F64.gtb (F64.of_int 63) (F64.mul (F64.of_int 90) F64.c0_7) = true
  ∧ intensidade 63 90 = MuitoAlta
  ∧ (Folium.color <$>
       (from_option Folium.circles []
          (run (frame [linha "RECIFE" 90; linha "OLINDA" 63]) None None 20)))
    = ["#8B0000"; "#8B0000"]
  ∧ intensidade 7 10 = Alta
  ∧ intensidade 40 100 = Media
  ∧ intensidade 20 100 = Baixa.
Proof. repeat split; vm_compute; reflexivity. Qed.

(** A group without coordinates can be the one that sets the maximum:
    next to ATLANTIS with 1,000,000, RECIFE with 90 is drawn in the
    colour of "Baixa" and with a radius of 5002.7, although it is the
    only circle of the map. *)
Lemma maximo_de_grupo_sem_coordenada :
  (λ c, (Folium.tooltip c, Folium.color c, SF2Prim (Folium.radius c))) <$>
    (from_option Folium.circles []
       (run (frame [linha "RECIFE" 90; linha "ATLANTIS" 1000000]) None None 2))
  = [("RECIFE: 90", "#FFA07A", 5002.7%float)].
Proof. vm_compute. reflexivity. Qed.

(** ** Properties of the filters of the side bar *)

Section Filtragem.
Import Pandas Select.

Lemma select_elem mask df r :
  r ∈ rows (select mask df) ↔ r ∈ rows df ∧ mask r = true.
Proof.
  unfold select. cbn [rows]. rewrite !list_elem_of_In. apply filter_In.
Qed.

Lemma select_sublist mask df : rows (select mask df) `sublist_of` rows df.
Proof.
  unfold select. cbn [rows]. induction (rows df) as [|r l IH]; simpl.
  - constructor.
  - destruct (mask r); [apply sublist_skip|apply sublist_cons]; exact IH.
Qed.

Lemma select_all mask df :
  (∀ r, r ∈ rows df → mask r = true) → select mask df = df.
Proof.
  intros H. destruct df as [cols rs]. unfold select. cbn [rows columns] in *.
  f_equal. induction rs as [|r l IH]; [reflexivity|]. simpl.
  rewrite (H r) by left. f_equal. apply IH. intros r' Hr'. apply H. by right.
Qed.

Lemma selecao_ativa_spec todos s :
  selecao_ativa todos s = true ↔ (todos ∉ s) ∧ (s ≠ []).
Proof.
  unfold selecao_ativa. rewrite andb_true_iff, negb_true_iff.
  rewrite bool_decide_eq_false, Nat.ltb_lt. destruct s; simpl; split;
    intros [H1 H2]; split; auto; try lia; congruence.
Qed.

Lemma isin_str_spec col s r :
  isin_str col s r = true ↔ ∃ v, str_cells r !! col = Some v ∧ v ∈ s.
Proof.
  unfold isin_str. destruct (str_cells r !! col) as [v|].
  - rewrite bool_decide_eq_true. split; [eauto|]. intros (v' & [= ->] & H). exact H.
  - split; [discriminate|]. intros (v & [=] & _).
Qed.

Lemma isin_int_spec col vs r :
  isin_int col vs r = true ↔ ∃ z, int_cells r !! col = Some z ∧ z ∈ vs.
Proof.
  unfold isin_int. destruct (int_cells r !! col) as [v|].
  - rewrite bool_decide_eq_true. split; [eauto|]. intros (v' & [= ->] & H). exact H.
  - split; [discriminate|]. intros (v & [=] & _).
Qed.

Lemma between_spec col a b r :
  between col a b r = true ↔ ∃ z, int_cells r !! col = Some z ∧ a ≤ z ≤ b.
Proof.
  unfold between. destruct (int_cells r !! col) as [v|].
  - rewrite andb_true_iff, !Z.leb_le. split; [eauto|].
    intros (v' & [= ->] & H). exact H.
  - split; [discriminate|]. intros (v & [=] & _).
Qed.

(** *** One block at a time *)

Lemma filtro_selecao_columns sel todos col df :
  columns (filtro_selecao sel todos col df) = columns df.
Proof.
  unfold filtro_selecao. destruct sel; [|reflexivity].
  case_bool_decide; [|reflexivity]. destruct (selecao_ativa _ _); reflexivity.
Qed.

Lemma filtro_selecao_sublist sel todos col df :
  rows (filtro_selecao sel todos col df) `sublist_of` rows df.
Proof.
  unfold filtro_selecao. destruct sel; [|reflexivity].
  case_bool_decide; [|reflexivity].
  destruct (selecao_ativa _ _); [apply select_sublist|reflexivity].
Qed.

Lemma filtro_selecao_elem sel todos col df r :
  r ∈ rows (filtro_selecao sel todos col df)
  ↔ r ∈ rows df ∧ passa_selecao sel todos col df r.
Proof.
  unfold filtro_selecao, passa_selecao. destruct sel as [s|].
  - case_bool_decide as Hc.
    + destruct (selecao_ativa todos s) eqn:Ha.
      * rewrite select_elem, isin_str_spec.
        apply selecao_ativa_spec in Ha as [Ht Hs]. split.
        -- intros [Hr Hv]. split; [exact Hr|]. intros s' [= <-] _ _ _. exact Hv.
        -- intros [Hr Hp]. split; [exact Hr|]. by apply (Hp s).
      * split; [|tauto]. intros Hr. split; [exact Hr|].
        intros s' [= <-] _ Ht Hs.
        assert (selecao_ativa todos s = true) by (apply selecao_ativa_spec; auto).
        congruence.
    + split; [|tauto]. intros Hr. split; [exact Hr|]. intros s' _ Hc'. contradiction.
  - split; [|tauto]. intros Hr. split; [exact Hr|]. intros s [=].
Qed.

Lemma filtro_intervalo_columns lo hi col df :
  columns (filtro_intervalo lo hi col df) = columns df.
Proof.
  unfold filtro_intervalo. destruct lo, hi; try reflexivity.
  case_bool_decide; reflexivity.
Qed.

Lemma filtro_intervalo_sublist lo hi col df :
  rows (filtro_intervalo lo hi col df) `sublist_of` rows df.
Proof.
  unfold filtro_intervalo. destruct lo, hi; try reflexivity.
  case_bool_decide; [apply select_sublist|reflexivity].
Qed.

Lemma filtro_intervalo_elem lo hi col df r :
  r ∈ rows (filtro_intervalo lo hi col df)
  ↔ r ∈ rows df ∧ passa_intervalo lo hi col df r.
Proof.
  unfold filtro_intervalo, passa_intervalo.
  destruct lo as [a|], hi as [b|];
    try (split; [|tauto]; intros Hr; split; [exact Hr|]; intros ?? [=] [=]; fail).
  - case_bool_decide as Hc.
    + rewrite select_elem, between_spec. split.
      * intros [Hr Hv]. split; [exact Hr|]. intros a' b' [= <-] [= <-] _. exact Hv.
      * intros [Hr Hp]. split; [exact Hr|]. by apply Hp.
    + split; [|tauto]. intros Hr. split; [exact Hr|]. intros ?? _ _ ?. contradiction.
Qed.

(** Positions in [meses_nomes]. *)
Lemma index_lookup x l n : PyList.index x l = Some n → l !! n = Some x.
Proof.
  revert n. induction l as [|y l IH]; intros n; simpl; [discriminate|].
  case_bool_decide as E.
  - intros [= <-]. subst. reflexivity.
  - destruct (PyList.index x l) as [k|]; simpl; [|discriminate].
    intros [= <-]. simpl. by apply IH.
Qed.

Lemma lookup_index x l n :
  NoDup l → l !! n = Some x → PyList.index x l = Some n.
Proof.
  intros Hnd. revert n. induction Hnd as [|y l Hy Hnd IH]; intros n; [done|].
  destruct n as [|n]; simpl.
  - intros [= ->]. by rewrite bool_decide_eq_true_2.
  - intros Hl. rewrite bool_decide_eq_false_2.
    + by rewrite (IH n Hl).
    + intros ->. apply Hy. by eapply list_elem_of_lookup_2.
Qed.

Lemma index_None x l : PyList.index x l = None ↔ x ∉ l.
Proof.
  induction l as [|y l IH]; simpl.
  - split; [intros _; apply not_elem_of_nil|reflexivity].
  - case_bool_decide as E.
    + subst. split; [discriminate|]. intros H. exfalso. apply H. left.
    + rewrite not_elem_of_cons. destruct (PyList.index x l); simpl.
      * split; [discriminate|]. intros [_ H]. by apply IH in H.
      * split; [|reflexivity]. intros _. split; [exact E|]. by apply IH.
Qed.

Lemma meses_nomes_NoDup : NoDup meses_nomes.
Proof. compute_done. Qed.

Lemma passa_selecao_cols sel todos col df1 df2 r :
  columns df1 = columns df2 →
  passa_selecao sel todos col df1 r ↔ passa_selecao sel todos col df2 r.
Proof. intros E. unfold passa_selecao. rewrite E. reflexivity. Qed.

Lemma passa_intervalo_cols lo hi col df1 df2 r :
  columns df1 = columns df2 →
  passa_intervalo lo hi col df1 r ↔ passa_intervalo lo hi col df2 r.
Proof. intros E. unfold passa_intervalo. rewrite E. reflexivity. Qed.

Lemma passa_meses_cols sel col df1 df2 r :
  columns df1 = columns df2 →
  passa_meses sel col df1 r ↔ passa_meses sel col df2 r.
Proof. intros E. unfold passa_meses. rewrite E. reflexivity. Qed.

(** The numbers of the months selected are those of the names. *)
Lemma meses_numeros_spec (ms : list string) (nums : list nat) (z : Z) :
  "Todos" ∉ ms →
  mapM (λ m, PyList.index m meses_nomes)
       (List.filter (λ m, negb (bool_decide (m = "Todos"))) ms) = Some nums →
  z ∈ Z.of_nat <$> nums
  ↔ 1 ≤ z ≤ 12
    ∧ ∃ nome, PyList.month_name !! Z.to_nat (z - 1) = Some nome ∧ nome ∈ ms.
Proof.
  intros Ht Hm. apply mapM_Some in Hm.
  assert (Hf : ∀ m, m ∈ List.filter (λ m, negb (bool_decide (m = "Todos"))) ms
                     ↔ m ∈ ms).
  { intros m. rewrite !list_elem_of_In, filter_In, <- !list_elem_of_In.
    rewrite negb_true_iff, bool_decide_eq_false. split; [tauto|].
    intros H. split; [exact H|]. intros ->. contradiction. }
  split.
  - intros Hz. apply list_elem_of_fmap in Hz as (n & -> & Hn).
    apply list_elem_of_lookup in Hn as (i & Hi).
    destruct (Forall2_lookup_r _ _ _ _ _ Hm Hi) as (m & Hmi & Hidx).
    apply list_elem_of_lookup_2, Hf in Hmi.
    apply index_lookup in Hidx.
    destruct n as [|k]; [simpl in Hidx; injection Hidx as <-; contradiction|].
    change (PyList.month_name !! k = Some m) in Hidx.
    pose proof (lookup_lt_Some _ _ _ Hidx) as Hk.
    change (length PyList.month_name) with 12%nat in Hk.
    split; [lia|]. exists m. split; [|exact Hmi].
    replace (Z.to_nat (Z.of_nat (S k) - 1)) with k by lia. exact Hidx.
  - intros (Hz & nome & Hl & Hin).
    apply Hf, list_elem_of_lookup in Hin as (i & Hi).
    destruct (Forall2_lookup_l _ _ _ _ _ Hm Hi) as (n & Hn & Hidx).
    assert (Hidx' : PyList.index nome meses_nomes = Some (S (Z.to_nat (z - 1))))
      by (apply lookup_index; [apply meses_nomes_NoDup|exact Hl]).
    rewrite Hidx in Hidx'. injection Hidx' as ->.
    apply list_elem_of_fmap. exists (S (Z.to_nat (z - 1))).
    split; [lia|]. by eapply list_elem_of_lookup_2.
Qed.

Lemma filtro_meses_Some sel col df df' :
  filtro_meses sel col df = Some df' →
  columns df' = columns df
  ∧ rows df' `sublist_of` rows df
  ∧ ∀ r, r ∈ rows df' ↔ r ∈ rows df ∧ passa_meses sel col df r.
Proof.
  unfold filtro_meses, passa_meses. destruct sel as [ms|].
  - case_bool_decide as Hc.
    + destruct (selecao_ativa "Todos" ms) eqn:Ha.
      * destruct (mapM _ _) as [nums|] eqn:Hm; [|discriminate].
        cbn [mbind option_bind]. intros [= <-].
        apply selecao_ativa_spec in Ha as [Ht Hs].
        split; [reflexivity|]. split; [apply select_sublist|].
        intros r. rewrite select_elem, isin_int_spec. split.
        -- intros (Hr & z & Hz & Hin). split; [exact Hr|].
           intros ms' [= <-] _ _ _.
           apply (meses_numeros_spec _ _ _ Ht Hm) in Hin as (Hz' & nome & Hn & Hi).
           eauto 8.
        -- intros (Hr & Hp). split; [exact Hr|].
           destruct (Hp ms eq_refl Hc Ht Hs) as (z & nome & Hz & Hz' & Hn & Hi).
           exists z. split; [exact Hz|].
           apply (meses_numeros_spec _ _ _ Ht Hm). eauto.
      * intros [= <-]. split; [reflexivity|]. split; [reflexivity|].
        intros r. split; [|tauto]. intros Hr. split; [exact Hr|].
        intros ms' [= <-] _ Ht Hs.
        assert (selecao_ativa "Todos" ms = true) by (apply selecao_ativa_spec; auto).
        congruence.
    + intros [= <-]. split; [reflexivity|]. split; [reflexivity|].
      intros r. split; [|tauto]. intros Hr. split; [exact Hr|].
      intros ms' _ Hc'. contradiction.
  - intros [= <-]. split; [reflexivity|]. split; [reflexivity|].
    intros r. split; [|tauto]. intros Hr. split; [exact Hr|]. intros ms [=].
Qed.

Lemma aplicar_filtros_inv df f pc df' :
  aplicar_filtros df f pc = Some df' →
  ∃ d2,
    filtro_meses (meses f) (coluna pc "mes" "MES")
      (filtro_intervalo (ano_inicio f) (ano_fim f) (coluna pc "ano" "ANO") df)
    = Some d2
    ∧ df' = filtro_intervalo (idade_min f) (idade_max f) (coluna pc "idade" "IDADE")
              (filtro_selecao (sexos f) "Todos" (coluna pc "sexo" "SEXO")
                 (filtro_selecao (municipios f) "Todos"
                    (coluna pc "municipio" "MUNICIPIO")
                    (filtro_selecao (regioes f) "Todas"
                       (coluna pc "regiao" "REGIAO_GEOGRAFICA") d2))).
Proof.
  unfold aplicar_filtros, coluna. cbv zeta.
  destruct (filtro_meses _ _ _) as [d2|]; [|discriminate].
  cbn [mbind option_bind]. intros [= <-]. eauto.
Qed.

Lemma aplicar_filtros_car df filtros prefixo_colunas df' :
  aplicar_filtros df filtros prefixo_colunas = Some df' →
  columns df' = columns df
  ∧ ∀ r, r ∈ rows df' ↔ r ∈ rows df ∧ passa_filtros df filtros prefixo_colunas r.
Proof.
  intros H. split.
  { apply aplicar_filtros_inv in H as (d2 & Hm & ->).
    apply filtro_meses_Some in Hm as (Hc & _ & _).
    rewrite filtro_intervalo_columns, !filtro_selecao_columns, Hc,
      filtro_intervalo_columns. reflexivity. }
  revert H.
  intros H r. apply aplicar_filtros_inv in H as (d2 & Hm & ->).
  apply filtro_meses_Some in Hm as (Hc2 & _ & Hm).
  set (d1 := filtro_intervalo _ _ _ df) in *.
  assert (Hc1 : columns d1 = columns df) by apply filtro_intervalo_columns.
  set (d3 := filtro_selecao (regioes filtros) _ _ d2).
  assert (Hc3 : columns d3 = columns df)
    by (unfold d3; rewrite filtro_selecao_columns; congruence).
  set (d4 := filtro_selecao (municipios filtros) _ _ d3).
  assert (Hc4 : columns d4 = columns df)
    by (unfold d4; rewrite filtro_selecao_columns; congruence).
  set (d5 := filtro_selecao (sexos filtros) _ _ d4).
  assert (Hc5 : columns d5 = columns df)
    by (unfold d5; rewrite filtro_selecao_columns; congruence).
  rewrite filtro_intervalo_elem. unfold d5 at 1. rewrite filtro_selecao_elem.
  unfold d4 at 1. rewrite filtro_selecao_elem.
  unfold d3 at 1. rewrite filtro_selecao_elem.
  rewrite Hm. unfold d1 at 1. rewrite filtro_intervalo_elem.
  rewrite (passa_meses_cols _ _ d1 df) by assumption.
  rewrite (passa_selecao_cols _ _ _ d2 df) by congruence.
  rewrite (passa_selecao_cols _ _ _ d3 df) by assumption.
  rewrite (passa_selecao_cols _ _ _ d4 df) by assumption.
  rewrite (passa_intervalo_cols _ _ _ d5 df) by assumption.
  unfold passa_filtros. tauto.
Qed.

(** X1. When [aplicar_filtros] returns, the frame it returns has the
    columns of the frame it was given and its rows are rows of that
    frame, in the same order: nothing is added, changed or moved. *)
Theorem aplicar_filtros_sublista df filtros prefixo_colunas df' :
  aplicar_filtros df filtros prefixo_colunas = Some df' →
  columns df' = columns df ∧ rows df' `sublist_of` rows df.
Proof.
  intros H. apply aplicar_filtros_inv in H as (d2 & Hm & ->).
  apply filtro_meses_Some in Hm as (Hc & Hs & _).
  rewrite filtro_intervalo_columns, !filtro_selecao_columns, Hc,
    filtro_intervalo_columns.
  split; [reflexivity|].
  etrans; [apply filtro_intervalo_sublist|].
  etrans; [apply filtro_selecao_sublist|].
  etrans; [apply filtro_selecao_sublist|].
  etrans; [apply filtro_selecao_sublist|].
  etrans; [exact Hs|]. apply filtro_intervalo_sublist.
Qed.

(** X2. When [aplicar_filtros] returns, the rows it keeps are exactly the
    rows of the frame that pass every block: the year and the age within
    their bounds, the month that of a name selected, the region, the
    municipality and the sex among those selected; a block counts only
    if its keys are in [filtros], its column is in the frame and, for a
    selection, it is not empty and does not hold the entry for all. *)
Theorem aplicar_filtros_linhas df filtros prefixo_colunas df' :
  aplicar_filtros df filtros prefixo_colunas = Some df' →
  ∀ r, r ∈ rows df' ↔ r ∈ rows df ∧ passa_filtros df filtros prefixo_colunas r.
Proof.
  intros H r. destruct (aplicar_filtros_car _ _ _ _ H) as [_ Hl]. apply Hl.
Qed.

(** X3. [aplicar_filtros] fails, with the [ValueError] of
    [meses_nomes.index], exactly when the selection of months is taken
    into account (its column is in the frame, it is not empty and does
    not hold 'Todos') and one of its entries is not the name of a month. *)
Theorem aplicar_filtros_erro df filtros prefixo_colunas :
  aplicar_filtros df filtros prefixo_colunas = None
  ↔ ∃ ms, meses filtros = Some ms
          ∧ coluna prefixo_colunas "mes" "MES" ∈ columns df
          ∧ ("Todos" ∉ ms) ∧ (ms ≠ [])
          ∧ ∃ m, m ∈ ms ∧ (m ∉ PyList.month_name).
Proof.
  unfold aplicar_filtros. cbv zeta. fold (coluna prefixo_colunas "mes" "MES").
  fold (coluna prefixo_colunas "ano" "ANO").
  set (d1 := filtro_intervalo _ _ _ df).
  assert (Hc1 : columns d1 = columns df) by apply filtro_intervalo_columns.
  assert (Hnone : filtro_meses (meses filtros) (coluna prefixo_colunas "mes" "MES") d1
                  = None
                  ↔ ∃ ms, meses filtros = Some ms
                          ∧ coluna prefixo_colunas "mes" "MES" ∈ columns df
                          ∧ ("Todos" ∉ ms) ∧ (ms ≠ [])
                          ∧ ∃ m, m ∈ ms ∧ (m ∉ PyList.month_name)).
  { unfold filtro_meses. rewrite Hc1. destruct (meses filtros) as [ms|].
    - case_bool_decide as Hc.
      + destruct (selecao_ativa "Todos" ms) eqn:Ha.
        * apply selecao_ativa_spec in Ha as [Ht Hs].
          destruct (mapM _ _) as [nums|] eqn:Hm; cbn [mbind option_bind].
          -- split; [discriminate|]. intros (ms' & [= <-] & _ & _ & _ & m & Hm1 & Hm2).
             apply mapM_Some in Hm.
             assert (Hin : m ∈ List.filter (λ m, negb (bool_decide (m = "Todos"))) ms).
             { rewrite list_elem_of_In, filter_In, <- list_elem_of_In.
               split; [exact Hm1|]. rewrite negb_true_iff, bool_decide_eq_false.
               intros ->. contradiction. }
             apply list_elem_of_lookup in Hin as (i & Hi).
             destruct (Forall2_lookup_l _ _ _ _ _ Hm Hi) as (n & _ & Hidx).
             apply index_lookup, list_elem_of_lookup_2 in Hidx.
             apply elem_of_cons in Hidx as [->|Hidx]; contradiction.
          -- split; [|reflexivity]. intros _.
             apply mapM_None, Exists_exists in Hm as (m & Hin & Hidx).
             rewrite list_elem_of_In, filter_In, <- list_elem_of_In in Hin.
             destruct Hin as [Hin _]. apply index_None in Hidx.
             exists ms. repeat split; auto. exists m. split; [exact Hin|].
             intros Hmn. apply Hidx. by right.
        * split; [discriminate|]. intros (ms' & [= <-] & _ & Ht & Hs & _).
          assert (selecao_ativa "Todos" ms = true) by (apply selecao_ativa_spec; auto).
          congruence.
      + split; [discriminate|]. intros (ms' & _ & Hc' & _). contradiction.
    - split; [discriminate|]. intros (ms' & [=] & _). }
  rewrite <- Hnone. destruct (filtro_meses _ _ d1); cbn [mbind option_bind];
    split; congruence.
Qed.

Lemma filtro_selecao_id sel todos col df :
  (∀ r, r ∈ rows df → passa_selecao sel todos col df r) →
  filtro_selecao sel todos col df = df.
Proof.
  intros H. unfold filtro_selecao. destruct sel as [s|]; [|reflexivity].
  case_bool_decide as Hc; [|reflexivity].
  destruct (selecao_ativa todos s) eqn:Ha; [|reflexivity].
  apply selecao_ativa_spec in Ha as [Ht Hs].
  apply select_all. intros r Hr. apply isin_str_spec. by apply (H r Hr s).
Qed.

Lemma filtro_intervalo_id lo hi col df :
  (∀ r, r ∈ rows df → passa_intervalo lo hi col df r) →
  filtro_intervalo lo hi col df = df.
Proof.
  intros H. unfold filtro_intervalo. destruct lo as [a|], hi as [b|]; try reflexivity.
  case_bool_decide as Hc; [|reflexivity].
  apply select_all. intros r Hr. apply between_spec. by apply (H r Hr).
Qed.

Lemma filtro_meses_id sel col dfa dfb dfc :
  filtro_meses sel col dfa = Some dfb →
  columns dfc = columns dfa →
  (∀ r, r ∈ rows dfc → passa_meses sel col dfc r) →
  filtro_meses sel col dfc = Some dfc.
Proof.
  unfold filtro_meses. intros Ha Hc H. rewrite Hc.
  destruct sel as [ms|]; [|reflexivity].
  case_bool_decide as Hcol; [|reflexivity].
  destruct (selecao_ativa "Todos" ms) eqn:Hact; [|reflexivity].
  destruct (mapM _ _) as [nums|] eqn:Hm; [|discriminate].
  cbn [mbind option_bind]. f_equal.
  apply selecao_ativa_spec in Hact as [Ht Hs].
  apply select_all. intros r Hr. apply isin_int_spec.
  destruct (H r Hr ms eq_refl) as (z & nome & Hz & Hz' & Hn & Hi); auto.
  { by rewrite Hc. }
  exists z. split; [exact Hz|]. apply (meses_numeros_spec _ _ _ Ht Hm). eauto.
Qed.

(** X4. Filtering twice is filtering once: applied to the frame it
    returned, with the same [filtros], [aplicar_filtros] returns that
    frame. *)
Theorem aplicar_filtros_idempotente df filtros prefixo_colunas df' :
  aplicar_filtros df filtros prefixo_colunas = Some df' →
  aplicar_filtros df' filtros prefixo_colunas = Some df'.
Proof.
  intros H.
  pose proof (aplicar_filtros_car _ _ _ _ H) as [Hc Hl].
  assert (Hp : ∀ r, r ∈ rows df' → passa_filtros df' filtros prefixo_colunas r).
  { intros r Hr. apply Hl in Hr as [_ (P1 & P2 & P3 & P4 & P5 & P6)].
    unfold passa_filtros.
    rewrite (passa_intervalo_cols _ _ _ df' df), (passa_meses_cols _ _ df' df),
      !(passa_selecao_cols _ _ _ df' df), (passa_intervalo_cols _ _ _ df' df)
      by assumption. auto 10. }
  apply aplicar_filtros_inv in H as (d2 & Hm & _).
  unfold aplicar_filtros. cbv zeta.
  fold (coluna prefixo_colunas "ano" "ANO") (coluna prefixo_colunas "mes" "MES")
       (coluna prefixo_colunas "regiao" "REGIAO_GEOGRAFICA")
       (coluna prefixo_colunas "municipio" "MUNICIPIO")
       (coluna prefixo_colunas "sexo" "SEXO")
       (coluna prefixo_colunas "idade" "IDADE").
  rewrite (filtro_intervalo_id _ _ _ df') by (intros r Hr; apply (Hp r Hr)).
  rewrite (filtro_meses_id _ _ _ _ df' Hm).
  - cbn [mbind option_bind].
    rewrite (filtro_selecao_id (regioes filtros) _ _ df')
      by (intros r Hr; apply (Hp r Hr)).
    rewrite (filtro_selecao_id (municipios filtros) _ _ df')
      by (intros r Hr; apply (Hp r Hr)).
    rewrite (filtro_selecao_id (sexos filtros) _ _ df')
      by (intros r Hr; apply (Hp r Hr)).
    rewrite filtro_intervalo_id by (intros r Hr; apply (Hp r Hr)). reflexivity.
  - rewrite filtro_intervalo_columns. exact Hc.
  - intros r Hr. apply (Hp r Hr).
Qed.

Lemma filtro_selecao_inativa s todos col df :
  todos ∈ s ∨ s = [] → filtro_selecao (Some s) todos col df = df.
Proof.
  intros H. unfold filtro_selecao. case_bool_decide; [|reflexivity].
  destruct (selecao_ativa todos s) eqn:Ha; [|reflexivity].
  apply selecao_ativa_spec in Ha as [Ht Hs]. tauto.
Qed.

Lemma filtro_meses_inativa ms col df :
  "Todos" ∈ ms ∨ ms = [] → filtro_meses (Some ms) col df = Some df.
Proof.
  intros H. unfold filtro_meses. case_bool_decide; [|reflexivity].
  destruct (selecao_ativa "Todos" ms) eqn:Ha; [|reflexivity].
  apply selecao_ativa_spec in Ha as [Ht Hs]. tauto.
Qed.

(** X5. A selection that holds the entry for all ('Todos', 'Todas' for
    the regions) or that is empty does not filter: the result is that of
    the call without the key, for the months, the regions, the
    municipalities and the sexes alike. *)
Theorem selecao_inativa_noop df prefixo_colunas ai af ms rg mu sx imin imax
    (s : list string) :
  ("Todos" ∈ s ∨ s = [] →
     aplicar_filtros df (mkFiltros ai af (Some s) rg mu sx imin imax) prefixo_colunas
     = aplicar_filtros df (mkFiltros ai af None rg mu sx imin imax) prefixo_colunas)
  ∧ ("Todas" ∈ s ∨ s = [] →
     aplicar_filtros df (mkFiltros ai af ms (Some s) mu sx imin imax) prefixo_colunas
     = aplicar_filtros df (mkFiltros ai af ms None mu sx imin imax) prefixo_colunas)
  ∧ ("Todos" ∈ s ∨ s = [] →
     aplicar_filtros df (mkFiltros ai af ms rg (Some s) sx imin imax) prefixo_colunas
     = aplicar_filtros df (mkFiltros ai af ms rg None sx imin imax) prefixo_colunas)
  ∧ ("Todos" ∈ s ∨ s = [] →
     aplicar_filtros df (mkFiltros ai af ms rg mu (Some s) imin imax) prefixo_colunas
     = aplicar_filtros df (mkFiltros ai af ms rg mu None imin imax) prefixo_colunas).
Proof.
  unfold aplicar_filtros. cbn [ano_inicio ano_fim meses regioes municipios sexos
                               idade_min idade_max]. cbv zeta.
  repeat split; intros H.
  - rewrite filtro_meses_inativa by assumption. reflexivity.
  - destruct (filtro_meses _ _ _); cbn [mbind option_bind]; [|reflexivity].
    rewrite (filtro_selecao_inativa s "Todas") by assumption. reflexivity.
  - destruct (filtro_meses _ _ _); cbn [mbind option_bind]; [|reflexivity].
    rewrite (filtro_selecao_inativa s "Todos") by assumption. reflexivity.
  - destruct (filtro_meses _ _ _); cbn [mbind option_bind]; [|reflexivity].
    rewrite (filtro_selecao_inativa s "Todos") by assumption. reflexivity.
Qed.

(** X6. With the bounds of the age in [filtros] and the column of the
    age in the frame, a record whose age is missing is dropped, whatever
    the bounds: no row of the result lacks an age. So with the bounds
    the sliders start from (the least and the largest value of the
    column) and the selections left on 'Todos', the result is the frame
    less the records without an age. *)
Theorem idade_ausente_descartada df prefixo_colunas a b lo hi :
  let col_ano := coluna prefixo_colunas "ano" "ANO" in
  let col_idade := coluna prefixo_colunas "idade" "IDADE" in
  let filtros :=
    mkFiltros (Some a) (Some b) (Some ["Todos"]) (Some ["Todas"])
      (Some ["Todos"]) (Some ["Todos"]) (Some lo) (Some hi) in
  col_idade ∈ columns df →
  (∀ r, r ∈ rows df → ∃ z, int_cells r !! col_ano = Some z ∧ a ≤ z ≤ b) →
  (∀ r z, r ∈ rows df → int_cells r !! col_idade = Some z → lo ≤ z ≤ hi) →
  ∃ df', aplicar_filtros df filtros prefixo_colunas = Some df'
    ∧ (∀ r, r ∈ rows df' → is_Some (int_cells r !! col_idade))
    ∧ (∀ r, r ∈ rows df' ↔ r ∈ rows df ∧ is_Some (int_cells r !! col_idade)).
Proof.
  intros col_ano col_idade filtros Hcol Hano Hidade.
  destruct (aplicar_filtros df filtros prefixo_colunas) as [df'|] eqn:E.
  - exists df'. split; [reflexivity|].
    pose proof (aplicar_filtros_car _ _ _ _ E) as [_ Hl].
    assert (Hchar : ∀ r, r ∈ rows df'
                         ↔ r ∈ rows df ∧ is_Some (int_cells r !! col_idade)).
    { intros r. rewrite Hl. split.
      - intros (Hr & _ & _ & _ & _ & _ & P6). split; [exact Hr|].
        destruct (P6 lo hi eq_refl eq_refl Hcol) as (z & Hz & _). eauto.
      - intros (Hr & z & Hz). split; [exact Hr|]. unfold passa_filtros.
        cbn [ano_inicio ano_fim meses regioes municipios sexos idade_min idade_max
             filtros].
        repeat split.
        + intros a' b' [= <-] [= <-] _. by apply Hano.
        + intros ms [= <-] _ Ht _. exfalso. apply Ht. left.
        + intros s [= <-] _ Ht _. exfalso. apply Ht. left.
        + intros s [= <-] _ Ht _. exfalso. apply Ht. left.
        + intros s [= <-] _ Ht _. exfalso. apply Ht. left.
        + intros a' b' [= <-] [= <-] _. exists z. split; [exact Hz|]. eauto. }
    split; [|exact Hchar]. intros r Hr. by apply Hchar in Hr as [_ ?].
  - exfalso. unfold aplicar_filtros, filtros in E. cbv zeta in E.
    cbn [ano_inicio ano_fim meses regioes municipios sexos idade_min idade_max]
      in E.
    rewrite filtro_meses_inativa in E by (left; left).
    cbn [mbind option_bind] in E. discriminate E.
Qed.

End Filtragem.

(** ** More on the map *)

Section Complementos.
Import Pandas Folium Select.
Variables str_upper str_strip : string → string.
Variable COORDENADAS_MUNICIPIOS : gmap string Coord.
Variable sort_values : list (string * Z) → list (string * Z).
Hypothesis sort_values_perm : ∀ l, sort_values l ≡ₚ l.
Hypothesis sort_values_desc :
  ∀ l, Sorted (λ a b : string * Z, b.2 ≤ a.2) (sort_values l).

#[local] Abbreviation criar :=
  (criar_mapa_calor str_upper str_strip COORDENADAS_MUNICIPIOS sort_values).
#[local] Abbreviation marca := (marcador str_upper str_strip COORDENADAS_MUNICIPIOS).
#[local] Abbreviation agregado df cm cv ano mes n :=
  (agregar sort_values (filtrar df ano mes) cm cv n).

(** X7. When one of the two columns it is given is not in the frame the
    function raises the [KeyError] of pandas, whatever the filters and
    [top_n]: the filters test for their columns, the aggregation does
    not. On a well formed call it returns a map exactly when the two
    columns are in the frame. *)
Theorem criar_mapa_calor_retorna df col_municipio col_vitimas ano mes top_n :
  (col_municipio ∉ columns df ∨ col_vitimas ∉ columns df →
   criar_mapa_calor str_upper str_strip COORDENADAS_MUNICIPIOS sort_values df
     col_municipio col_vitimas ano mes top_n = None)
  ∧ (chamada_bem_formada df col_municipio col_vitimas →
     (is_Some (criar_mapa_calor str_upper str_strip COORDENADAS_MUNICIPIOS
                 sort_values df col_municipio col_vitimas ano mes top_n)
      ↔ col_municipio ∈ columns df ∧ col_vitimas ∈ columns df)).
Proof.
  assert (Hinv : ∀ m, criar df col_municipio col_vitimas ano mes top_n = Some m →
                      col_municipio ∈ columns df ∧ col_vitimas ∈ columns df).
  { intros m Hm.
    apply (criar_inv str_upper str_strip COORDENADAS_MUNICIPIOS sort_values)
      in Hm as (H1 & H2 & _). auto. }
  split.
  - intros Hor.
    destruct (criar df col_municipio col_vitimas ano mes top_n) as [m|] eqn:E;
      [|reflexivity].
    destruct (Hinv m eq_refl) as [H1 H2]. destruct Hor; contradiction.
  - intros _. split.
    + intros [m Hm]. exact (Hinv m Hm).
    + intros [H1 H2].
      rewrite (criar_Some str_upper str_strip COORDENADAS_MUNICIPIOS sort_values)
        by assumption. eauto.
Qed.

(** *** The sums *)

Lemma wrap64_add_l a b : wrap64 (wrap64 a + b) = wrap64 (a + b).
Proof.
  unfold wrap64. f_equal.
  replace ((a + 2^63) mod 2^64 - 2^63 + b + 2^63)
    with ((a + 2^63) mod 2^64 + b) by lia.
  rewrite Z.add_mod_idemp_l by lia. f_equal. lia.
Qed.

Lemma soma_do_grupo_ausente key val k rs :
  k ∉ omap (λ r, str_cells r !! key) rs → soma_do_grupo key val k rs = 0.
Proof.
  induction rs as [|r rs IH]; [reflexivity|]. cbn [omap list_omap soma_do_grupo foldr].
  fold (soma_do_grupo key val k rs).
  destruct (str_cells r !! key) as [k'|] eqn:E.
  - rewrite not_elem_of_cons. intros [Hne Hk].
    rewrite bool_decide_eq_false_2 by congruence. auto.
  - intros Hk. rewrite bool_decide_eq_false_2 by congruence. auto.
Qed.

Lemma groupby_sum_lookup key val rs k :
  groupby_sum key val rs !! k
  = if bool_decide (k ∈ omap (λ r, str_cells r !! key) rs)
    then Some (wrap64 (soma_do_grupo key val k rs)) else None.
Proof.
  induction rs as [|r rs IH].
  - cbn. rewrite lookup_empty. reflexivity.
  - cbn [groupby_sum foldr omap list_omap soma_do_grupo].
    fold (groupby_sum key val rs) (soma_do_grupo key val k rs).
    unfold add_row. fold (valor val r).
    destruct (str_cells r !! key) as [k'|] eqn:E.
    + destruct (decide (k' = k)) as [->|Hne].
      * rewrite lookup_insert_eq, (bool_decide_eq_true_2 (k ∈ k :: _)) by left.
        rewrite (bool_decide_eq_true_2 (Some k = Some k)) by reflexivity.
        f_equal. rewrite IH. case_bool_decide as Hk; cbn [from_option id].
        -- rewrite wrap64_add_l. f_equal. lia.
        -- rewrite (soma_do_grupo_ausente _ _ _ _ Hk). f_equal. lia.
      * rewrite lookup_insert_ne by assumption.
        rewrite (bool_decide_eq_false_2 (Some k' = Some k)) by congruence.
        rewrite IH. repeat case_bool_decide; try reflexivity.
        -- exfalso. match goal with H : ¬ _ |- _ => apply H end. by right.
        -- exfalso. match goal with H : _ ∈ _ :: _ |- _ =>
             apply elem_of_cons in H as [?|?] end; [congruence|contradiction].
    + rewrite (bool_decide_eq_false_2 (None = Some k)) by discriminate. exact IH.
Qed.

Lemma filtrar_elem df ano mes r : r ∈ rows (filtrar df ano mes) → r ∈ rows df.
Proof.
  clear. unfold filtrar. cbv zeta.
  assert (Hsel : ∀ col v d, r ∈ rows (select_eq col v d) → r ∈ rows d).
  { intros col v d. unfold select_eq. cbn [rows].
    rewrite !list_elem_of_In, filter_In. tauto. }
  destruct ano as [a|], mes as [m|]; repeat case_bool_decide; eauto.
Qed.

(** X8. On a frame where every record has its count, the value of a
    kept group is the sum, wrapped to [int64], of the counts of exactly
    the records left by the filters whose name is that of the group; at
    least one such record exists, and no two kept groups have the same
    name. *)
Theorem soma_dos_grupos df col_municipio col_vitimas ano mes top_n g :
  (∀ r, r ∈ rows df → is_Some (int_cells r !! col_vitimas)) →
  g ∈ agregado df col_municipio col_vitimas ano mes top_n →
  g.2 = wrap64 (soma_do_grupo col_municipio col_vitimas g.1
                  (rows (filtrar df ano mes)))
  ∧ (∃ r z, r ∈ rows (filtrar df ano mes)
            ∧ str_cells r !! col_municipio = Some g.1
            ∧ int_cells r !! col_vitimas = Some z)
  ∧ NoDup ((agregado df col_municipio col_vitimas ano mes top_n).*1).
Proof.
  intros Hcount Hg. apply (agregar_elem sort_values sort_values_perm) in Hg.
  rewrite groupby_sum_lookup in Hg. case_bool_decide as Hk; [|discriminate].
  injection Hg as Hg. split; [congruence|]. split.
  - apply list_elem_of_omap in Hk as (r & Hr & E).
    destruct (Hcount r (filtrar_elem _ _ _ _ Hr)) as [z Hz]. eauto.
  - apply (agregar_NoDup sort_values sort_values_perm).
Qed.

(** *** How many groups are kept *)

Lemma grupos_chaves df_mapa key val :
  (map_to_list (groupby_sum key val (rows df_mapa))).*1 ≡ₚ chaves df_mapa key.
Proof.
  apply NoDup_Permutation.
  - apply NoDup_fst_map_to_list.
  - apply NoDup_remove_dups.
  - intros k. unfold chaves. rewrite elem_of_remove_dups, list_elem_of_fmap. split.
    + intros ([k' v] & -> & H). apply elem_of_map_to_list in H.
      eapply groupby_sum_key, H.
    + intros Hk. exists (k, wrap64 (soma_do_grupo key val k (rows df_mapa))).
      split; [reflexivity|]. apply elem_of_map_to_list.
      rewrite groupby_sum_lookup. by rewrite bool_decide_eq_true_2.
Qed.

(** X9. The number of groups kept is the number of distinct names in the
    filtered records cut to [top_n]; a negative [top_n] drops that many
    groups from the end instead, and [top_n = 0] keeps none. *)
Theorem numero_de_grupos df col_municipio col_vitimas ano mes top_n :
  let distintos := length (chaves (filtrar df ano mes) col_municipio) in
  length (agregado df col_municipio col_vitimas ano mes top_n)
  = if 0 <=? top_n then Nat.min (Z.to_nat top_n) distintos
    else (distintos - Z.to_nat (- top_n))%nat.
Proof.
  intros distintos. unfold agregar, Pandas.head.
  set (L := sort_values _).
  assert (HL : length L = distintos).
  { unfold L, distintos. rewrite (Permutation_length (sort_values_perm _)).
    rewrite <- (length_fmap fst). apply Permutation_length, grupos_chaves. }
  destruct (0 <=? top_n); rewrite length_take, HL; lia.
Qed.

Lemma linhas_vazias_mapa_base df cm cv ano mes top_n :
  cm ∈ columns df → cv ∈ columns df →
  rows (filtrar df ano mes) = [] →
  criar df cm cv ano mes top_n = Some (mapa_base).
Proof.
  intros H1 H2 E.
  rewrite (criar_Some str_upper str_strip COORDENADAS_MUNICIPIOS sort_values) by assumption.
  f_equal.
  assert (Hagg : agregado df cm cv ano mes top_n = []).
  { unfold agregar. rewrite E. cbn [groupby_sum foldr].
    rewrite map_to_list_empty.
    rewrite (proj1 (Permutation_nil_r _) (sort_values_perm [])).
    unfold Pandas.head. destruct (0 <=? top_n); apply take_nil. }
  rewrite Hagg. reflexivity.
Qed.

(** X10. When the frame has the column 'ANO' and no record of the year
    asked for, the function returns the bare map, without circles and
    without the legend. *)
Theorem ano_sem_registros df col_municipio col_vitimas a mes top_n :
  col_municipio ∈ columns df → col_vitimas ∈ columns df →
  "ANO" ∈ columns df →
  (∀ r, r ∈ rows df → int_cells r !! "ANO" ≠ Some a) →
  criar df col_municipio col_vitimas (Some a) mes top_n = Some mapa_base.
Proof.
  intros H1 H2 Hano Hno. apply linhas_vazias_mapa_base; try assumption.
  assert (E : rows (select_eq "ANO" a df) = []).
  { unfold select_eq. cbn [rows].
    induction (rows df) as [|r l IH]; [reflexivity|]. simpl.
    assert (cell_eqb "ANO" a r = false) as ->.
    { unfold cell_eqb. destruct (int_cells r !! "ANO") as [z|] eqn:Ez; [|reflexivity].
      apply Z.eqb_neq. intros ->. apply (Hno r); [left|exact Ez]. }
    apply IH. intros r' Hr'. apply Hno. by right. }
  unfold filtrar. cbv zeta. rewrite (bool_decide_eq_true_2 _ Hano).
  destruct mes as [m|]; [|exact E].
  case_bool_decide; [|exact E]. unfold select_eq at 1. cbn [rows]. rewrite E.
  reflexivity.
Qed.

(** *** Growing [top_n] *)

Lemma foldr_max_head x l : (∀ y, y ∈ l → y ≤ x) → foldr Z.max x l = x.
Proof.
  induction l as [|z l IH]; intros H; [reflexivity|]. simpl.
  rewrite IH by (intros y Hy; apply H; by right).
  specialize (H z ltac:(left)). lia.
Qed.

Lemma max_da_cabeca (x : string * Z) l n :
  Sorted (λ a b : string * Z, b.2 ≤ a.2) (x :: l) →
  Pandas.max ((take (S n) (x :: l)).*2) = x.2.
Proof.
  intros Hs. cbn [take fmap list_fmap Pandas.max].
  apply foldr_max_head. intros y Hy.
  assert (Htr : Transitive (λ a b : string * Z, b.2 ≤ a.2))
    by (intros a b c; simpl; lia).
  apply Sorted_StronglySorted in Hs; [|exact Htr].
  apply StronglySorted_inv in Hs as [_ Hall].
  apply list_elem_of_fmap in Hy as (g & -> & Hg).
  pose proof (elem_of_sublist _ _ _ Hg (sublist_take l n)) as Hg'.
  rewrite Forall_forall in Hall. apply Hall, Hg'.
Qed.

(** X11. With a sort in descending order, [max_vitimas] is the sum of
    the first group whatever the cut, so a larger [top_n] only appends
    circles: for [0 < top_n <= top_n'] the circles of the first map are
    the first circles of the second, radius and colour included, and
    both maps have the same HTML children. *)
Theorem top_n_maior_acrescenta df col_municipio col_vitimas ano mes top_n top_n' :
  0 < top_n → top_n ≤ top_n' →
  col_municipio ∈ columns df → col_vitimas ∈ columns df →
  ∃ m m',
    criar_mapa_calor str_upper str_strip COORDENADAS_MUNICIPIOS sort_values df
      col_municipio col_vitimas ano mes top_n = Some m
    ∧ criar_mapa_calor str_upper str_strip COORDENADAS_MUNICIPIOS sort_values df
        col_municipio col_vitimas ano mes top_n' = Some m'
    ∧ circles m `prefix_of` circles m'
    ∧ html m = html m'.
Proof.
  intros Hn Hnn H1 H2.
  rewrite !(criar_Some str_upper str_strip COORDENADAS_MUNICIPIOS sort_values) by assumption.
  eexists _, _. split; [reflexivity|]. split; [reflexivity|].
  unfold agregar, Pandas.head.
  rewrite !(proj2 (Z.leb_le 0 _)) by lia.
  set (L := sort_values _).
  pose proof (sort_values_desc
                (map_to_list (groupby_sum col_municipio col_vitimas
                                (rows (filtrar df ano mes))))) as Hs.
  fold L in Hs. clearbody L.
  destruct (Z.to_nat top_n) as [|k] eqn:Ek; [lia|].
  destruct (Z.to_nat top_n') as [|k'] eqn:Ek'; [lia|].
  assert (Hkk : (k ≤ k')%nat) by lia.
  destruct L as [|x L]; [split; reflexivity|].
  rewrite !(circles_desenho str_upper str_strip COORDENADAS_MUNICIPIOS).
  rewrite !max_da_cabeca by exact Hs.
  split; [|reflexivity].
  assert (Hp : take (S k) (x :: L) `prefix_of` take (S k') (x :: L)).
  { replace (take (S k) (x :: L)) with (take (S k) (take (S k') (x :: L))).
    - apply prefix_take.
    - rewrite take_take. f_equal. lia. }
  destruct Hp as [rest ->]. rewrite omap_app. by eexists.
Qed.

(** *** Colours *)

(** X12. Every circle is filled with its own colour, and that colour is
    one of the four the classes have; each of the four is written in the
    legend. *)
Theorem cores_da_legenda df col_municipio col_vitimas ano mes top_n m :
  criar df col_municipio col_vitimas ano mes top_n = Some m →
  (∀ c, c ∈ circles m →
     fill c = true ∧ fillColor c = color c ∧ ∃ i, color c = cor i)
  ∧ (∀ i, String.index 0 (cor i) legend_html ≠ None)
  ∧ (∀ i j, cor i = cor j → i = j).
Proof.
  intros H.
  apply (criar_inv str_upper str_strip COORDENADAS_MUNICIPIOS sort_values)
    in H as (_ & _ & ->).
  split; [|split].
  - intros c Hc. rewrite (circles_desenho str_upper str_strip COORDENADAS_MUNICIPIOS) in Hc.
    apply list_elem_of_omap in Hc as (g & _ & Hm).
    unfold marcador in Hm. destruct (COORDENADAS_MUNICIPIOS !! _); [|discriminate].
    injection Hm as <-. cbn [fill fillColor color]. eauto.
  - intros []; vm_compute; discriminate.
  - intros [] []; (reflexivity || discriminate).
Qed.

(** *** After the filters of the side bar *)

(** X13. On the frame [aplicar_filtros] returns for a selection of
    municipalities that is taken into account, the map only has groups,
    and so circles, of municipalities selected. *)
Theorem mapa_so_municipios_selecionados df filtros prefixo_colunas df' s
    col_vitimas ano mes top_n :
  let col_municipio := coluna prefixo_colunas "municipio" "MUNICIPIO" in
  aplicar_filtros df filtros prefixo_colunas = Some df' →
  municipios filtros = Some s → "Todos" ∉ s → s ≠ [] →
  col_municipio ∈ columns df → col_vitimas ∈ columns df →
  ∃ m, criar df' col_municipio col_vitimas ano mes top_n = Some m
  ∧ (∀ g, g ∈ agregado df' col_municipio col_vitimas ano mes top_n → g.1 ∈ s)
  ∧ (∀ c, c ∈ circles m →
       ∃ g, g.1 ∈ s
            ∧ marca (Pandas.max
                       ((agregado df' col_municipio col_vitimas ano mes top_n).*2))
                g = Some c).
Proof.
  intros cm Hap Hsel Ht Hs H1 H2.
  pose proof (aplicar_filtros_car _ _ _ _ Hap) as [Hc Hl].
  assert (Hg : ∀ g, g ∈ agregado df' cm col_vitimas ano mes top_n → g.1 ∈ s).
  { intros g Hg. apply (agregar_elem sort_values sort_values_perm) in Hg.
    apply groupby_sum_key, list_elem_of_omap in Hg as (r & Hr & Hk).
    apply filtrar_elem, Hl in Hr as [_ (_ & _ & _ & P4 & _)].
    destruct (P4 s Hsel H1 Ht Hs) as (v & Hv & Hin). fold cm in Hv. congruence. }
  eexists. split.
  { apply (criar_Some str_upper str_strip COORDENADAS_MUNICIPIOS sort_values); by rewrite Hc. }
  split; [exact Hg|].
  intros c Hcirc. rewrite (circles_desenho str_upper str_strip COORDENADAS_MUNICIPIOS) in Hcirc.
  apply list_elem_of_omap in Hcirc as (g & Hin & Hm). eauto.
Qed.

(** X14. When the first year chosen is after the last, and the frame has
    the column of the year, [aplicar_filtros] returns a frame without
    rows, on which the map is the bare one, without the legend. *)
Theorem intervalo_invertido df filtros prefixo_colunas df' a b
    col_municipio col_vitimas ano mes top_n :
  aplicar_filtros df filtros prefixo_colunas = Some df' →
  ano_inicio filtros = Some a → ano_fim filtros = Some b → b < a →
  coluna prefixo_colunas "ano" "ANO" ∈ columns df →
  rows df' = []
  ∧ (col_municipio ∈ columns df → col_vitimas ∈ columns df →
     criar df' col_municipio col_vitimas ano mes top_n = Some mapa_base).
Proof.
  intros Hap Ha Hb Hlt Hcol.
  pose proof (aplicar_filtros_car _ _ _ _ Hap) as [Hc Hl].
  assert (E : rows df' = []).
  { destruct (rows df') as [|r l] eqn:Er; [reflexivity|]. exfalso.
    assert (Hr : r ∈ r :: l) by left.
    apply Hl in Hr as [_ (P1 & _)].
    destruct (P1 a b Ha Hb Hcol) as (z & _ & Hz). lia. }
  split; [exact E|]. intros H1 H2.
  apply linhas_vazias_mapa_base; rewrite ?Hc; try assumption.
  destruct (rows (filtrar df' ano mes)) as [|r l] eqn:Er; [reflexivity|]. exfalso.
  assert (Hr : r ∈ rows (filtrar df' ano mes)) by (rewrite Er; left).
  apply filtrar_elem in Hr. rewrite E in Hr. inversion Hr.
Qed.

(** *** The page of the crimes against property *)

(** X15. On the page of [analise_cvp] an empty selection of regions or
    of municipalities is not ignored, as it is by [aplicar_filtros]: it
    leaves no record, and the map of the page is then the bare one. *)
Theorem cvp_selecao_vazia df ano_inicio ano_fim regiao municipio ano_map top_n :
  "ANO" ∈ columns df → "REGIAO_GEOGRAFICA" ∈ columns df →
  "MUNICIPIO" ∈ columns df → "TOTAL" ∈ columns df →
  regiao = [] ∨ municipio = [] →
  ∃ df_filt,
    filtrar_cvp df ano_inicio ano_fim regiao municipio = Some df_filt
    ∧ rows df_filt = []
    ∧ mapa_cvp str_upper str_strip COORDENADAS_MUNICIPIOS sort_values df_filt ano_map top_n
      = Some mapa_base.
Proof.
  intros Hano Hreg Hmun Htot Hvazia.
  assert (Hnil : ∀ col d, rows (select (isin_str col []) d) = []).
  { intros col d. unfold select. cbn [rows].
    induction (rows d) as [|r l IH]; [reflexivity|]. simpl.
    assert (isin_str col [] r = false) as ->; [|exact IH].
    unfold isin_str. destruct (str_cells r !! col); [|reflexivity].
    apply bool_decide_eq_false, not_elem_of_nil. }
  assert (Hsel_nil : ∀ mask d, rows d = [] → rows (select mask d) = []).
  { intros mask d E. unfold select. cbn [rows]. rewrite E. reflexivity. }
  unfold filtrar_cvp. rewrite (bool_decide_eq_true_2 _ Hano).
  cbn [mbind option_bind].
  set (d1 := select (between "ANO" ano_inicio ano_fim) df).
  assert (Hmapa : ∀ d, columns d = columns df → rows d = [] →
            mapa_cvp str_upper str_strip COORDENADAS_MUNICIPIOS sort_values d ano_map top_n
            = Some mapa_base).
  { intros d Hc E. unfold mapa_cvp. cbv zeta.
    apply linhas_vazias_mapa_base; rewrite ?Hc; try assumption.
    destruct (rows (filtrar d _ None)) as [|r l] eqn:Er; [reflexivity|]. exfalso.
    assert (Hr : r ∈ rows (filtrar d
                (match ano_map with Todos => None | Ano a => Some a end) None))
      by (rewrite Er; left).
    apply filtrar_elem in Hr. rewrite E in Hr. inversion Hr. }
  destruct Hvazia as [-> | ->].
  - rewrite (bool_decide_eq_false_2 ("Todas" ∈ [])) by apply not_elem_of_nil.
    cbn [negb]. rewrite (bool_decide_eq_true_2 _ Hreg). cbn [mbind option_bind].
    set (d2 := select (isin_str "REGIAO_GEOGRAFICA" []) d1).
    assert (E2 : rows d2 = []) by apply Hnil.
    destruct (negb (bool_decide ("Todos" ∈ municipio))).
    + rewrite (bool_decide_eq_true_2 ("MUNICIPIO" ∈ columns d2)) by exact Hmun.
      cbn [mbind option_bind]. eexists. split; [reflexivity|].
      split; [by apply Hsel_nil|]. apply Hmapa; [reflexivity|by apply Hsel_nil].
    + cbn [mbind option_bind]. eexists. split; [reflexivity|].
      split; [exact E2|]. by apply Hmapa.
  - destruct (negb (bool_decide ("Todas" ∈ regiao))).
    + rewrite (bool_decide_eq_true_2 _ Hreg). cbn [mbind option_bind].
      rewrite (bool_decide_eq_false_2 ("Todos" ∈ [])) by apply not_elem_of_nil.
      cbn [negb].
      rewrite (bool_decide_eq_true_2
                 ("MUNICIPIO" ∈ columns (select (isin_str "REGIAO_GEOGRAFICA" regiao) d1)))
        by exact Hmun.
      cbn [mbind option_bind]. eexists. split; [reflexivity|].
      split; [apply Hnil|]. apply Hmapa; [reflexivity|apply Hnil].
    + cbn [mbind option_bind].
      rewrite (bool_decide_eq_false_2 ("Todos" ∈ [])) by apply not_elem_of_nil.
      cbn [negb]. rewrite (bool_decide_eq_true_2 ("MUNICIPIO" ∈ columns d1))
        by exact Hmun.
      cbn [mbind option_bind]. eexists. split; [reflexivity|].
      split; [apply Hnil|]. apply Hmapa; [reflexivity|apply Hnil].
Qed.

(** X16. With selections that are not empty, the page of [analise_cvp]
    filters as [aplicar_filtros] does with the same years, regions and
    municipalities and no other key. *)
Theorem cvp_como_aplicar_filtros df a b regiao municipio :
  "ANO" ∈ columns df → "REGIAO_GEOGRAFICA" ∈ columns df →
  "MUNICIPIO" ∈ columns df →
  regiao ≠ [] → municipio ≠ [] →
  filtrar_cvp df a b regiao municipio
  = aplicar_filtros df
      (mkFiltros (Some a) (Some b) None (Some regiao) (Some municipio)
         None None None)
      None.
Proof.
  intros Hano Hreg Hmun Hr Hm.
  unfold filtrar_cvp, aplicar_filtros.
  cbn [ano_inicio ano_fim meses regioes municipios sexos idade_min idade_max].
  cbv zeta. cbn [from_option id]. rewrite !lookup_empty. cbn [from_option id].
  cbn [filtro_meses filtro_intervalo filtro_selecao].
  rewrite (bool_decide_eq_true_2 _ Hano). cbn [mbind option_bind].
  set (d1 := select (between "ANO" a b) df).
  assert (Hlen : ∀ s : list string, s ≠ [] → (0 <? length s)%nat = true).
  { intros [|? ?] Hs; [congruence|reflexivity]. }
  unfold selecao_ativa. rewrite !Hlen by assumption. rewrite !andb_true_r.
  rewrite (bool_decide_eq_true_2 ("REGIAO_GEOGRAFICA" ∈ columns d1)) by exact Hreg.
  destruct (negb (bool_decide ("Todas" ∈ regiao))); cbn [mbind option_bind].
  - rewrite (bool_decide_eq_true_2
               ("MUNICIPIO" ∈ columns (select (isin_str "REGIAO_GEOGRAFICA" regiao) d1)))
      by exact Hmun.
    destruct (negb (bool_decide ("Todos" ∈ municipio))); reflexivity.
  - rewrite (bool_decide_eq_true_2 ("MUNICIPIO" ∈ columns d1)) by exact Hmun.
    destruct (negb (bool_decide ("Todos" ∈ municipio))); reflexivity.
Qed.

End Complementos.

(** ** The text of the counts and the keys of the coordinates *)

Section Textos.
Import Py.

Lemma string_of_uint_algarismos d :
  Forall (λ c, algarismo c = true)
    (list_ascii_of_string (NilZero.string_of_uint d)).
Proof.
  assert (H : ∀ d, Forall (λ c, algarismo c = true)
                (list_ascii_of_string (NilEmpty.string_of_uint d))).
  { clear d. induction d; simpl; constructor; (reflexivity || assumption). }
  destruct d; try apply H. repeat constructor.
Qed.

Lemma algarismo_nao_virgula c :
  algarismo c = true → negb (Ascii.eqb c ",") = true.
Proof.
  intros H. destruct (Ascii.eqb_spec c ",") as [->|]; [discriminate H|reflexivity].
Qed.

Lemma group3_sem_virgulas k l :
  Forall (λ c, algarismo c = true) l →
  List.filter (λ c, negb (Ascii.eqb c ",")) (group3 k l) = l.
Proof.
  intros H. revert k. induction H as [|c l Hc Hl IH]; intros k; [reflexivity|].
  assert (Hn := algarismo_nao_virgula c Hc).
  destruct k as [|[|[|[|k]]]]; cbn [group3 List.filter]; rewrite ?Hn;
    try (f_equal; apply IH).
Qed.

Lemma filter_rev' {A} (f : A → bool) l :
  List.filter f (rev l) = rev (List.filter f l).
Proof.
  induction l as [|x l IH]; [reflexivity|]. cbn [rev List.filter].
  rewrite List.filter_app, IH. cbn [List.filter].
  destruct (f x); cbn [rev]; [reflexivity|]. apply app_nil_r.
Qed.

Lemma sem_virgulas_corpo d :
  sem_virgulas
    (string_of_list_ascii
       (rev (group3 0 (rev (list_ascii_of_string (NilZero.string_of_uint d))))))
  = NilZero.string_of_uint d.
Proof.
  unfold sem_virgulas. rewrite list_ascii_of_string_of_list_ascii.
  rewrite filter_rev', group3_sem_virgulas.
  - rewrite rev_involutive. apply string_of_list_ascii_of_string.
  - apply Forall_rev, string_of_uint_algarismos.
Qed.

Lemma sem_virgulas_format_comma z :
  sem_virgulas (format_comma z) = NilZero.string_of_int (Z.to_int z).
Proof.
  unfold format_comma. cbv zeta.
  destruct z as [|p|p]; cbn [Z.ltb Z.compare Z.abs_N Z.to_int NilZero.string_of_int].
  - apply (sem_virgulas_corpo (N.to_uint 0)).
  - apply (sem_virgulas_corpo (N.to_uint (N.pos p))).
  - change (sem_virgulas (String "-" ?s)) with (String "-" (sem_virgulas s)).
    f_equal. apply (sem_virgulas_corpo (N.to_uint (N.pos p))).
Qed.

(** X17. The text [{vitimas:,}] of the popup and of the tooltip reads
    back as the count: with the commas taken out it is the decimal
    numeral of [vitimas], sign included. *)
Theorem texto_da_contagem z :
  option_map Z.of_int (NilZero.int_of_string (sem_virgulas (format_comma z)))
  = Some z.
Proof.
  rewrite sem_virgulas_format_comma.
  destruct z as [|p|p]; [reflexivity| |].
  - rewrite NilZero.isi.
    + cbn [option_map]. f_equal. apply (DecimalZ.of_to (Z.pos p)).
    + cbn [Z.to_int]. intros [= E]. by apply DecimalPos.Unsigned.to_uint_nonnil in E.
    + discriminate.
  - rewrite NilZero.isi.
    + cbn [option_map]. f_equal. apply (DecimalZ.of_to (Z.neg p)).
    + discriminate.
    + cbn [Z.to_int]. intros [= E]. by apply DecimalPos.Unsigned.to_uint_nonnil in E.
Qed.

Lemma group3_posicoes l :
  Forall (λ c, algarismo c = true) l →
  ∀ k i c, (k ≤ 3)%nat → group3 k l !! i = Some c →
    if ((i + k) mod 4 =? 3)%nat then c = "," %char else algarismo c = true.
Proof.
  induction 1 as [|d l Hd Hl IH]; intros k i c Hk Hi;
    [destruct k as [|[|[|[|k]]]]; inversion Hi|].
  assert (E4 : ∀ j a, ((j + (a + 4)) mod 4 = (j + a) mod 4)%nat).
  { intros j a. replace (j + (a + 4))%nat with (j + a + 1 * 4)%nat by lia.
    apply Nat.Div0.mod_add. }
  destruct k as [|[|[|[|k]]]]; [| | | |lia]; cbn [group3] in Hi.
  - destruct i as [|j]; [injection Hi as <-; exact Hd|].
    apply (IH 1%nat j c) in Hi; [|lia].
    by replace (S j + 0)%nat with (j + 1)%nat by lia.
  - destruct i as [|j]; [injection Hi as <-; exact Hd|].
    apply (IH 2%nat j c) in Hi; [|lia].
    by replace (S j + 1)%nat with (j + 2)%nat by lia.
  - destruct i as [|j]; [injection Hi as <-; exact Hd|].
    apply (IH 3%nat j c) in Hi; [|lia].
    by replace (S j + 2)%nat with (j + 3)%nat by lia.
  - destruct i as [|[|j]]; [by injection Hi as <-|injection Hi as <-; exact Hd|].
    apply (IH 1%nat j c) in Hi; [|lia].
    replace (S (S j) + 3)%nat with (j + (1 + 4))%nat by lia. by rewrite E4.
Qed.

Lemma group3_last k l : last (group3 k l) = last l.
Proof.
  revert k. induction l as [|d l IH]; intros k; [by destruct k as [|[|[|[|k]]]]|].
  assert (E : ∀ k', last (d :: group3 k' l) = last (d :: l)).
  { intros k'. specialize (IH k'). destruct l as [|e l].
    - by destruct k' as [|[|[|[|k']]]].
    - rewrite (last_cons d (group3 k' (e :: l))), IH. symmetry. apply last_cons. }
  destruct k as [|[|[|[|k]]]]; cbn [group3]; try apply E.
Qed.

(** X18. For a count that is not negative, [{vitimas:,}] has its commas
    three digits apart from the right: counted from the end, every
    fourth character is a comma and the others are digits; the text
    begins with a digit. *)
Theorem virgulas_de_tres_em_tres z :
  0 ≤ z →
  (∀ i c, rev (list_ascii_of_string (format_comma z)) !! i = Some c →
     if (i mod 4 =? 3)%nat then c = "," %char else algarismo c = true)
  ∧ (∃ c s, format_comma z = String c s ∧ algarismo c = true).
Proof.
  intros Hz. unfold format_comma. cbv zeta.
  rewrite (proj2 (Z.ltb_ge z 0) Hz).
  set (L := list_ascii_of_string (NilZero.string_of_uint _)).
  assert (HL : Forall (λ c, algarismo c = true) L) by apply string_of_uint_algarismos.
  assert (Hne : L ≠ []).
  { subst L. destruct (N.to_uint (Z.abs_N z)); discriminate. }
  clearbody L. rewrite list_ascii_of_string_of_list_ascii, rev_involutive.
  split.
  - intros i c Hi.
    apply (group3_posicoes (rev L) (Forall_rev HL) 0%nat i c) in Hi; [|lia].
    by rewrite Nat.add_0_r in Hi.
  - destruct L as [|d L]; [done|].
    assert (Hl : last (group3 0 (rev (d :: L))) = Some d).
    { rewrite group3_last. cbn [rev]. apply last_snoc. }
    destruct (group3 0 (rev (d :: L))) as [|x G] using rev_ind.
    + discriminate Hl.
    + rewrite last_snoc in Hl. injection Hl as ->.
      rewrite rev_app_distr. cbn [rev app string_of_list_ascii].
      eexists _, _. split; [reflexivity|]. by inversion HL.
Qed.

(** *** The key of the coordinates *)

Lemma upper_char_space c : ascii_is_space (ascii_upper_char c) = ascii_is_space c.
Proof. destruct c as [[] [] [] [] [] [] [] []]; reflexivity. Qed.

Lemma upper_char_idem c : ascii_upper_char (ascii_upper_char c) = ascii_upper_char c.
Proof. destruct c as [[] [] [] [] [] [] [] []]; reflexivity. Qed.

Lemma upper_idem s : ascii_upper (ascii_upper s) = ascii_upper s.
Proof.
  induction s as [|c s IH]; [reflexivity|]. cbn [ascii_upper].
  by rewrite upper_char_idem, IH.
Qed.

Lemma upper_lstrip s : ascii_upper (ascii_lstrip s) = ascii_lstrip (ascii_upper s).
Proof.
  induction s as [|c s IH]; [reflexivity|]. cbn [ascii_upper ascii_lstrip].
  rewrite upper_char_space. destruct (ascii_is_space c); [exact IH|reflexivity].
Qed.

Lemma upper_rstrip s : ascii_upper (ascii_rstrip s) = ascii_rstrip (ascii_upper s).
Proof.
  induction s as [|c s IH]; [reflexivity|]. cbn [ascii_upper ascii_rstrip].
  rewrite <- IH, upper_char_space.
  destruct (ascii_rstrip s) as [|e r]; cbn [ascii_upper]; [|reflexivity].
  destruct (ascii_is_space c); reflexivity.
Qed.

Lemma lstrip_idem s : ascii_lstrip (ascii_lstrip s) = ascii_lstrip s.
Proof.
  induction s as [|c s IH]; [reflexivity|]. cbn [ascii_lstrip].
  destruct (ascii_is_space c) eqn:E; [exact IH|]. cbn [ascii_lstrip]. by rewrite E.
Qed.

Lemma rstrip_idem s : ascii_rstrip (ascii_rstrip s) = ascii_rstrip s.
Proof.
  induction s as [|c s IH]; [reflexivity|]. cbn [ascii_rstrip].
  destruct (ascii_rstrip s) as [|e r] eqn:Er.
  - destruct (ascii_is_space c) eqn:E; [reflexivity|]. cbn [ascii_rstrip]. by rewrite E.
  - cbn [ascii_rstrip] in IH |- *. by rewrite IH.
Qed.

Lemma lstrip_rstrip t : ascii_lstrip t = t → ascii_lstrip (ascii_rstrip t) = ascii_rstrip t.
Proof.
  destruct t as [|c t]; [reflexivity|]. cbn [ascii_lstrip].
  destruct (ascii_is_space c) eqn:E.
  - intros H. exfalso.
    assert (Hlen : ∀ s, (String.length (ascii_lstrip s) ≤ String.length s)%nat).
    { induction s as [|d s IHs]; [done|]. cbn [ascii_lstrip].
      destruct (ascii_is_space d); cbn [String.length]; lia. }
    specialize (Hlen t). rewrite H in Hlen. cbn [String.length] in Hlen. lia.
  - intros _. cbn [ascii_rstrip]. destruct (ascii_rstrip t); rewrite ?E; cbn [ascii_lstrip]; by rewrite E.
Qed.

Lemma strip_idem s : ascii_strip (ascii_strip s) = ascii_strip s.
Proof.
  unfold ascii_strip. rewrite (lstrip_rstrip (ascii_lstrip s)) by apply lstrip_idem.
  apply rstrip_idem.
Qed.

Lemma upper_strip s : ascii_upper (ascii_strip s) = ascii_strip (ascii_upper s).
Proof. unfold ascii_strip. by rewrite upper_rstrip, upper_lstrip. Qed.

Lemma chave_idem municipio : chave (chave municipio) = chave municipio.
Proof.
  unfold chave. by rewrite upper_strip, upper_idem, strip_idem.
Qed.

Lemma upper_char_ascii c :
  (nat_of_ascii (ascii_upper_char c) <? 128)%nat = (nat_of_ascii c <? 128)%nat.
Proof. destruct c as [[] [] [] [] [] [] [] []]; reflexivity. Qed.

Lemma upper_ascii s : is_ascii (ascii_upper s) = is_ascii s.
Proof.
  induction s as [|c s IH]; [reflexivity|]. cbn [ascii_upper is_ascii].
  by rewrite upper_char_ascii, IH.
Qed.

Lemma lstrip_ascii s : is_ascii s = true → is_ascii (ascii_lstrip s) = true.
Proof.
  induction s as [|c s IH]; [reflexivity|]. cbn [ascii_lstrip].
  destruct (ascii_is_space c); [|done]. cbn [is_ascii].
  intros [_ H]%andb_prop. auto.
Qed.

Lemma rstrip_ascii s : is_ascii s = true → is_ascii (ascii_rstrip s) = true.
Proof.
  induction s as [|c s IH]; [reflexivity|]. cbn [ascii_rstrip is_ascii].
  intros [Hc H]%andb_prop. specialize (IH H).
  destruct (ascii_rstrip s) as [|d r].
  - destruct (ascii_is_space c); [reflexivity|]. cbn [is_ascii]. by rewrite Hc.
  - cbn [is_ascii] in IH |- *. by rewrite Hc, IH.
Qed.

Lemma chave_ascii s : is_ascii s = true → is_ascii (chave s) = true.
Proof.
  intros H. unfold chave, ascii_strip. apply rstrip_ascii, lstrip_ascii.
  by rewrite upper_ascii.
Qed.

End Textos.

Section Chaves.
Variables str_upper str_strip : string → string.
Variable COORDENADAS_MUNICIPIOS : gmap string Coord.

(** What Python's [str.upper] and [str.strip] do with a text of ASCII
    characters. *)
Hypothesis str_upper_ascii :
  ∀ s, Py.is_ascii s = true → str_upper s = Py.ascii_upper s.
Hypothesis str_strip_ascii :
  ∀ s, Py.is_ascii s = true → str_strip s = Py.ascii_strip s.

(** X19. For a municipality whose name is of ASCII characters, the key
    looked up in [COORDENADAS_MUNICIPIOS] is of ASCII characters and is
    in its normal form already: [upper] and [strip] leave it as it is.
    So a circle of such a municipality is always drawn from an entry
    whose key is upper case with no space around it; an entry under
    another key is never used for it. *)
Theorem coordenada_de_chave_normalizada max_vitimas row c :
  Py.is_ascii row.1 = true →
  marcador str_upper str_strip COORDENADAS_MUNICIPIOS max_vitimas row = Some c →
  ∃ k coords,
    COORDENADAS_MUNICIPIOS !! k = Some coords
    ∧ k = str_strip (str_upper row.1)
    ∧ Py.is_ascii k = true
    ∧ str_strip (str_upper k) = k
    ∧ Folium.location c = (lat coords, lon coords).
Proof.
  intros Hascii. unfold marcador. cbv zeta.
  assert (Hk : str_strip (str_upper row.1) = chave row.1).
  { rewrite str_upper_ascii by assumption.
    rewrite str_strip_ascii by (by rewrite upper_ascii). reflexivity. }
  assert (Hka : Py.is_ascii (chave row.1) = true) by by apply chave_ascii.
  rewrite Hk.
  destruct (COORDENADAS_MUNICIPIOS !! chave row.1) as [coords|] eqn:E;
    [|discriminate].
  intros [= <-]. exists (chave row.1), coords.
  split; [exact E|]. split; [reflexivity|]. split; [exact Hka|].
  split; [|reflexivity].
  rewrite str_upper_ascii by assumption.
  rewrite str_strip_ascii by (by rewrite upper_ascii).
  apply chave_idem.
Qed.

End Chaves.

(** ** The filters and the callers at work *)

Lemma aplicar_filtros_sublista_witness :
  aplicar_filtros base_exemplo filtros_exemplo None = Some base_filtrada
  ∧ Pandas.columns base_filtrada = Pandas.columns base_exemplo
  ∧ Pandas.rows base_filtrada `sublist_of` Pandas.rows base_exemplo.
Proof.
  assert (E : aplicar_filtros base_exemplo filtros_exemplo None = Some base_filtrada)
    by (vm_compute; reflexivity).
  split; [exact E|].
  exact (aplicar_filtros_sublista base_exemplo filtros_exemplo None base_filtrada E).
Defined.

Lemma aplicar_filtros_linhas_witness :
  registro "OLINDA" "METROPOLITANA" "FEMININO" 2023 2 25 3
    ∈ Pandas.rows base_exemplo
  ∧ passa_filtros base_exemplo filtros_exemplo None
      (registro "OLINDA" "METROPOLITANA" "FEMININO" 2023 2 25 3).
Proof.
  apply (aplicar_filtros_linhas base_exemplo filtros_exemplo None base_filtrada).
  - vm_compute. reflexivity.
  - left.
Defined.

Lemma aplicar_filtros_idempotente_witness :
  aplicar_filtros base_filtrada filtros_exemplo None = Some base_filtrada.
Proof.
  apply (aplicar_filtros_idempotente base_exemplo filtros_exemplo None).
  vm_compute. reflexivity.
Defined.

Lemma selecao_inativa_noop_witness :
  aplicar_filtros base_exemplo
    (mkFiltros (Some 2023) (Some 2024) (Some ["February"]) None
       (Some ["Todos"; "RECIFE"]) None None None) None
  = aplicar_filtros base_exemplo
      (mkFiltros (Some 2023) (Some 2024) (Some ["February"]) None
         None None None None) None.
Proof.
  destruct (selecao_inativa_noop base_exemplo None (Some 2023) (Some 2024)
              (Some ["February"]) None None None None None ["Todos"; "RECIFE"])
    as (_ & _ & H & _).
  apply H. left. left.
Defined.

Lemma idade_ausente_descartada_witness :
  ∃ df', aplicar_filtros base_com_lacuna (filtros_padrao 2022 2024 19 50) None
         = Some df'
    ∧ sem_idade ∈ Pandas.rows base_com_lacuna
    ∧ sem_idade ∉ Pandas.rows df'.
Proof.
  destruct (idade_ausente_descartada base_com_lacuna None 2022 2024 19 50)
    as (df' & E & Hall & _).
  - compute_done.
  - apply Forall_forall.
    repeat (apply Forall_cons_2;
            [eexists; split; [vm_compute; reflexivity|lia]|]).
    apply Forall_nil_2.
  - intros r z Hr Hz.
    unfold base_com_lacuna, base_exemplo in Hr. cbn [Pandas.rows] in Hr.
    repeat (apply elem_of_cons in Hr as [->|Hr];
            [vm_compute in Hz;
             first [discriminate Hz | injection Hz as <-; lia]|]).
    inversion Hr.
  - exists df'. split; [exact E|]. split; [left|].
    intros Hin. apply Hall in Hin. destruct Hin as [z Hz].
    vm_compute in Hz. discriminate Hz.
Defined.

Lemma soma_dos_grupos_witness :
  7 = Pandas.wrap64 (soma_do_grupo "MUNICIPIO" "TOTAL" "RECIFE"
                       (Pandas.rows (filtrar base_exemplo None None)))
  ∧ NoDup ((agregar sort_desc (filtrar base_exemplo None None)
              "MUNICIPIO" "TOTAL" 3).*1).
Proof.
  destruct (soma_dos_grupos sort_desc sort_desc_perm base_exemplo
              "MUNICIPIO" "TOTAL" None None 3 ("RECIFE", 7))
    as (H1 & _ & H3).
  - apply Forall_forall.
    repeat (apply Forall_cons_2; [eexists; vm_compute; reflexivity|]).
    apply Forall_nil_2.
  - compute_done.
  - split; [exact H1|exact H3].
Defined.

Lemma numero_de_grupos_witness :
  length (agregar sort_desc (filtrar base_exemplo None None)
            "MUNICIPIO" "TOTAL" 3) = 3%nat
  ∧ length (agregar sort_desc (filtrar base_exemplo None None)
              "MUNICIPIO" "TOTAL" (-1)) = 3%nat.
Proof.
  split.
  - rewrite (numero_de_grupos sort_desc sort_desc_perm base_exemplo
               "MUNICIPIO" "TOTAL" None None 3).
    vm_compute. reflexivity.
  - rewrite (numero_de_grupos sort_desc sort_desc_perm base_exemplo
               "MUNICIPIO" "TOTAL" None None (-1)).
    vm_compute. reflexivity.
Defined.

Lemma ano_sem_registros_witness :
  criar_mapa_calor
      Py.ascii_upper Py.ascii_strip coordenadas_exemplo sort_desc base_exemplo
    "MUNICIPIO" "TOTAL" (Some 2019) None 20 = Some mapa_base.
Proof.
  apply (ano_sem_registros
      Py.ascii_upper Py.ascii_strip coordenadas_exemplo sort_desc sort_desc_perm
           base_exemplo "MUNICIPIO" "TOTAL" 2019 None 20).
  - compute_done.
  - compute_done.
  - compute_done.
  - apply Forall_forall. compute_done.
Defined.

Lemma top_n_maior_acrescenta_witness :
  ∃ m m', run tres_municipios None None 1 = Some m
          ∧ run tres_municipios None None 3 = Some m'
          ∧ Folium.circles m `prefix_of` Folium.circles m'
          ∧ Folium.html m = Folium.html m'.
Proof.
  apply (top_n_maior_acrescenta
      Py.ascii_upper Py.ascii_strip coordenadas_exemplo
      sort_desc sort_desc_sorted
           tres_municipios "MUNICIPIO" "TOTAL" None None 1 3).
  - lia.
  - lia.
  - compute_done.
  - compute_done.
Defined.

Lemma cores_da_legenda_witness :
  ∃ m, run tres_municipios None None 3 = Some m
       ∧ Forall (λ c, Folium.fillColor c = Folium.color c) (Folium.circles m)
       ∧ String.index 0 (cor Media) legend_html ≠ None.
Proof.
  destruct (run tres_municipios None None 3) as [m|] eqn:E;
    [|vm_compute in E; discriminate E].
  destruct (cores_da_legenda
      Py.ascii_upper Py.ascii_strip coordenadas_exemplo
      sort_desc tres_municipios
              "MUNICIPIO" "TOTAL" None None 3 m E) as (Hc & Hl & _).
  exists m. split; [reflexivity|]. split; [|apply Hl].
  apply Forall_forall. intros c Hin. apply (Hc c Hin).
Defined.

Lemma mapa_so_municipios_selecionados_witness :
  ∃ m, criar_mapa_calor
      Py.ascii_upper Py.ascii_strip coordenadas_exemplo sort_desc base_filtrada
         "MUNICIPIO" "TOTAL" None None 20 = Some m
       ∧ Forall (λ g, g.1 ∈ ["RECIFE"; "OLINDA"])
           (agregar sort_desc (filtrar base_filtrada None None)
              "MUNICIPIO" "TOTAL" 20).
Proof.
  destruct (mapa_so_municipios_selecionados
      Py.ascii_upper Py.ascii_strip coordenadas_exemplo sort_desc
              sort_desc_perm base_exemplo filtros_exemplo None base_filtrada
              ["RECIFE"; "OLINDA"] "TOTAL" None None 20)
    as (m & Hm & Hg & _).
  - vm_compute. reflexivity.
  - reflexivity.
  - compute_done.
  - discriminate.
  - compute_done.
  - compute_done.
  - exists m. split; [exact Hm|]. apply Forall_forall. exact Hg.
Defined.

Lemma intervalo_invertido_witness :
  Pandas.rows (Select.select (Select.between "ANO" 2024 2023) base_exemplo) = []
  ∧ criar_mapa_calor Py.ascii_upper Py.ascii_strip coordenadas_exemplo sort_desc
      (Select.select (Select.between "ANO" 2024 2023) base_exemplo)
      "MUNICIPIO" "TOTAL" None None 20 = Some mapa_base.
Proof.
  destruct (intervalo_invertido
      Py.ascii_upper Py.ascii_strip coordenadas_exemplo sort_desc sort_desc_perm
              base_exemplo
              (mkFiltros (Some 2024) (Some 2023) None None None None None None)
              None
              (Select.select (Select.between "ANO" 2024 2023) base_exemplo)
              2024 2023 "MUNICIPIO" "TOTAL" None None 20)
    as [H1 H2].
  - vm_compute. reflexivity.
  - reflexivity.
  - reflexivity.
  - lia.
  - compute_done.
  - split; [exact H1|]. apply H2; compute_done.
Defined.

Lemma cvp_selecao_vazia_witness :
  ∃ df_filt, filtrar_cvp base_exemplo 2022 2024 ["Todas"] [] = Some df_filt
    ∧ Pandas.rows df_filt = []
    ∧ mapa_cvp
        Py.ascii_upper Py.ascii_strip coordenadas_exemplo
        sort_desc df_filt Todos 20 = Some mapa_base.
Proof.
  apply (cvp_selecao_vazia
      Py.ascii_upper Py.ascii_strip coordenadas_exemplo sort_desc sort_desc_perm
           base_exemplo 2022 2024 ["Todas"] [] Todos 20).
  - compute_done.
  - compute_done.
  - compute_done.
  - compute_done.
  - right. reflexivity.
Defined.

Lemma cvp_como_aplicar_filtros_witness :
  filtrar_cvp base_exemplo 2023 2024 ["Todas"] ["RECIFE"; "OLINDA"]
  = aplicar_filtros base_exemplo
      (mkFiltros (Some 2023) (Some 2024) None (Some ["Todas"])
         (Some ["RECIFE"; "OLINDA"]) None None None)
      None.
Proof.
  apply (cvp_como_aplicar_filtros base_exemplo 2023 2024 ["Todas"]
           ["RECIFE"; "OLINDA"]).
  - compute_done.
  - compute_done.
  - compute_done.
  - discriminate.
  - discriminate.
Defined.

Lemma virgulas_de_tres_em_tres_witness :
  Py.format_comma 1234567 = "1,234,567"
  ∧ ∃ c s, Py.format_comma 1234567 = String c s ∧ algarismo c = true.
Proof.
  split; [vm_compute; reflexivity|].
  destruct (virgulas_de_tres_em_tres 1234567) as [_ H]; [lia|exact H].
Defined.

Lemma coordenada_de_chave_normalizada_witness :
  ∃ k coords, coordenadas_exemplo !! k = Some coords
    ∧ k = Py.ascii_strip (Py.ascii_upper " Recife ")
    ∧ Py.is_ascii k = true
    ∧ Py.ascii_strip (Py.ascii_upper k) = k.
Proof.
  destruct (marcador
      Py.ascii_upper Py.ascii_strip coordenadas_exemplo 100 (" Recife ", 100))
    as [c|] eqn:E; [|vm_compute in E; discriminate E].
  destruct (coordenada_de_chave_normalizada
      Py.ascii_upper Py.ascii_strip coordenadas_exemplo
              (λ s _, eq_refl) (λ s _, eq_refl) 100 (" Recife ", 100) c)
    as (k & coords & H1 & H2 & H3 & H4 & _).
  - reflexivity.
  - exact E.
  - exists k, coords. split; [exact H1|]. split; [exact H2|].
    split; [exact H3|exact H4].
Defined.

Lemma criar_mapa_calor_retorna_witness :
  criar_mapa_calor Py.ascii_upper Py.ascii_strip coordenadas_exemplo sort_desc
    tres_municipios "MUNICIPIO" "VITIMAS" None None 20 = None
  ∧ is_Some (run tres_municipios None None 20).
Proof.
  split.
  - apply (criar_mapa_calor_retorna
      Py.ascii_upper Py.ascii_strip coordenadas_exemplo
             sort_desc tres_municipios "MUNICIPIO" "VITIMAS" None None 20).
    right. compute_done.
  - apply (criar_mapa_calor_retorna
      Py.ascii_upper Py.ascii_strip coordenadas_exemplo
             sort_desc tres_municipios "MUNICIPIO" "TOTAL" None None 20).
    + split; [discriminate|]. split; [compute_done|].
      apply Forall_forall.
      repeat (apply Forall_cons_2;
              [split; [reflexivity|split; [reflexivity|eexists; reflexivity]]|]).
      apply Forall_nil_2.
    + split; compute_done.
Defined.
